(** * The IndexedDb remote document cache and its change buffer

    A shallow embedding of [IndexedDbRemoteDocumentCacheImpl],
    [IndexedDbRemoteDocumentChangeBuffer] and
    [remoteDocumentCacheGetNewDocumentChanges]
    (packages/firestore/src/local/indexeddb_remote_document_cache.ts),
    with the properties of the local persistence specification that
    concern them.

    The object stores of the transaction are finite maps; the cursors of
    the key-value store are lists in key order walked with an explicit
    control value; assertions are the failures of a small error monad. *)

From Stdlib Require Import ZArith String Ascii List Lia.
From stdpp Require Import base option list sorting gmap strings fin_maps.

Local Open Scope Z_scope.
Local Open Scope string_scope.
Local Open Scope list_scope.

(** ** Failing computations

    [hardAssert] and [debugAssert] throw; a throw inside a transaction
    aborts it.  A computation is either a value or the message of the
    assertion that fired. *)

Inductive Result (A : Type) : Type :=
| Ok (a : A)
| AssertionFailed (msg : string).
Arguments Ok {A} a.
Arguments AssertionFailed {A} msg.

Definition result_bind {A B} (f : A → Result B) (r : Result A) : Result B :=
  match r with
  | Ok a => f a
  | AssertionFailed msg => AssertionFailed msg
  end.

#[global] Instance result_ret : MRet Result := @Ok.
#[global] Instance result_mbind : MBind Result := @result_bind.

Definition isOk {A} (r : Result A) : bool :=
  match r with Ok _ => true | AssertionFailed _ => false end.

(** ** Keys of the key-value store

    IndexedDB keys are strings, numbers and arrays of keys; a store or an
    index walks its records in the order of their keys. *)

Class IdbKey (K : Type) := {
  key_compare : K → K → comparison;
  key_compare_eq : ∀ x y, key_compare x y = Eq ↔ x = y;
  key_compare_antisym : ∀ x y, key_compare y x = CompOpp (key_compare x y);
  key_compare_trans : ∀ x y z c,
    key_compare x y = c → key_compare y z = c → key_compare x z = c
}.

Definition key_ltb `{IdbKey K} (x y : K) : bool :=
  match key_compare x y with Lt => true | _ => false end.
Definition key_leb `{IdbKey K} (x y : K) : bool :=
  match key_compare x y with Gt => false | _ => true end.
Definition key_eqb `{IdbKey K} (x y : K) : bool :=
  match key_compare x y with Eq => true | _ => false end.

(** Fixed-size arrays such as [[collectionKey, readTimeKey]] compare
    component by component. *)
Definition pair_compare {A B} (ca : A → A → comparison) (cb : B → B → comparison)
    (x y : A * B) : comparison :=
  match ca x.1 y.1 with
  | Eq => cb x.2 y.2
  | c => c
  end.

Lemma ascii_compare_trans (a b c : ascii) (r : comparison) :
  Ascii.compare a b = r → Ascii.compare b c = r → Ascii.compare a c = r.
Proof.
  unfold Ascii.compare. intros <-.
  destruct (N.compare_spec (N_of_ascii a) (N_of_ascii b)) as [E|E|E]; intros H2.
  - rewrite E. exact H2.
  - rewrite N.compare_lt_iff in *. lia.
  - rewrite N.compare_gt_iff in *. lia.
Qed.

Lemma ascii_compare_refl (a : ascii) : Ascii.compare a a = Eq.
Proof. unfold Ascii.compare. apply N.compare_refl. Qed.

Lemma string_compare_refl (s : string) : String.compare s s = Eq.
Proof.
  induction s as [|a s IH]; simpl; [done|]. by rewrite ascii_compare_refl.
Qed.

Lemma string_compare_eq (x y : string) : String.compare x y = Eq ↔ x = y.
Proof.
  split; [apply String.compare_eq_iff|]. intros ->. apply string_compare_refl.
Qed.

Lemma string_compare_antisym (x y : string) :
  String.compare y x = CompOpp (String.compare x y).
Proof. apply String.compare_antisym. Qed.

Lemma string_compare_trans (x y z : string) (c : comparison) :
  String.compare x y = c → String.compare y z = c → String.compare x z = c.
Proof.
  revert y z. induction x as [|a x IH]; intros [|b y] [|d z]; simpl;
    try congruence.
  destruct (Ascii.compare a b) eqn:Eab; destruct (Ascii.compare b d) eqn:Ebd;
    try congruence.
  - apply Ascii.compare_eq_iff in Eab, Ebd. subst.
    rewrite ascii_compare_refl. apply IH.
  - apply Ascii.compare_eq_iff in Eab. subst. by rewrite Ebd.
  - apply Ascii.compare_eq_iff in Eab. subst. by rewrite Ebd.
  - apply Ascii.compare_eq_iff in Ebd. subst. by rewrite Eab.
  - by rewrite (ascii_compare_trans _ _ _ _ Eab Ebd).
  - apply Ascii.compare_eq_iff in Ebd. subst. by rewrite Eab.
  - by rewrite (ascii_compare_trans _ _ _ _ Eab Ebd).
Qed.

Lemma Z_compare_trans (x y z : Z) (c : comparison) :
  Z.compare x y = c → Z.compare y z = c → Z.compare x z = c.
Proof.
  intros <-. destruct (Z.compare_spec x y) as [E|E|E]; intros H2.
  - by subst.
  - rewrite Z.compare_lt_iff in *. lia.
  - rewrite Z.compare_gt_iff in *. lia.
Qed.

Lemma Z_compare_antisym (x y : Z) : Z.compare y x = CompOpp (Z.compare x y).
Proof. apply Z.compare_antisym. Qed.

Section PairCompare.
Context {A B : Type} (ca : A → A → comparison) (cb : B → B → comparison).
Hypothesis ca_eq : ∀ x y, ca x y = Eq ↔ x = y.
Hypothesis cb_eq : ∀ x y, cb x y = Eq ↔ x = y.
Hypothesis ca_antisym : ∀ x y, ca y x = CompOpp (ca x y).
Hypothesis cb_antisym : ∀ x y, cb y x = CompOpp (cb x y).
Hypothesis ca_trans : ∀ x y z c, ca x y = c → ca y z = c → ca x z = c.
Hypothesis cb_trans : ∀ x y z c, cb x y = c → cb y z = c → cb x z = c.

Lemma pair_compare_eq (x y : A * B) : pair_compare ca cb x y = Eq ↔ x = y.
Proof.
  destruct x as [a b], y as [a' b']. unfold pair_compare; simpl. split.
  - destruct (ca a a') eqn:E; try discriminate.
    apply ca_eq in E. intros ?%cb_eq. congruence.
  - intros [= -> ->]. rewrite (proj2 (ca_eq a' a') eq_refl). by apply cb_eq.
Qed.

Lemma pair_compare_antisym (x y : A * B) :
  pair_compare ca cb y x = CompOpp (pair_compare ca cb x y).
Proof.
  destruct x as [a b], y as [a' b']. unfold pair_compare; simpl.
  rewrite (ca_antisym a a'). destruct (ca a a'); simpl; auto.
Qed.

Lemma pair_compare_trans (x y z : A * B) (c : comparison) :
  pair_compare ca cb x y = c → pair_compare ca cb y z = c →
  pair_compare ca cb x z = c.
Proof.
  destruct x as [a b], y as [a' b'], z as [a'' b'']. unfold pair_compare; simpl.
  destruct (ca a a') eqn:E1; destruct (ca a' a'') eqn:E2;
    try (apply ca_eq in E1; subst a'); try (apply ca_eq in E2; subst a'');
    rewrite ?E1, ?E2, ?(proj2 (ca_eq _ _) eq_refl);
    try (intros; congruence); eauto.
  - rewrite (ca_trans _ _ _ _ E1 E2). done.
  - rewrite (ca_trans _ _ _ _ E1 E2). done.
Qed.
End PairCompare.

#[global] Instance string_IdbKey : IdbKey string := {|
  key_compare := String.compare;
  key_compare_eq := string_compare_eq;
  key_compare_antisym := string_compare_antisym;
  key_compare_trans := string_compare_trans
|}.

#[global] Instance Z_IdbKey : IdbKey Z := {|
  key_compare := Z.compare;
  key_compare_eq := Z.compare_eq_iff;
  key_compare_antisym := Z_compare_antisym;
  key_compare_trans := Z_compare_trans
|}.

#[global] Instance list_IdbKey `{IdbKey A} : IdbKey (list A) := {|
  key_compare := list_compare key_compare;
  key_compare_eq := list_compare_refl key_compare key_compare_eq;
  key_compare_antisym := λ x y,
    list_compare_antisym key_compare key_compare_eq x y key_compare_antisym;
  key_compare_trans := λ x y z c,
    @list_compare_trans _ key_compare key_compare_eq x y z c
      key_compare_trans key_compare_antisym
|}.

#[global] Instance pair_IdbKey `{IdbKey A, IdbKey B} : IdbKey (A * B).
Proof.
  refine {| key_compare := pair_compare key_compare key_compare |}.
  - apply pair_compare_eq; apply key_compare_eq.
  - apply pair_compare_antisym; apply key_compare_antisym.
  - apply pair_compare_trans;
      first [apply key_compare_eq | apply key_compare_trans].
Defined.

Section KeyOrder.
Context `{IdbKey K}.

Lemma key_compare_refl (x : K) : key_compare x x = Eq.
Proof. by apply key_compare_eq. Qed.

Lemma key_compare_gt_lt (x y : K) : key_compare x y = Gt ↔ key_compare y x = Lt.
Proof.
  rewrite (key_compare_antisym x y). destruct (key_compare x y); simpl; split; congruence.
Qed.

Lemma key_ltb_irrefl (x : K) : key_ltb x x = false.
Proof. unfold key_ltb. by rewrite key_compare_refl. Qed.

Lemma key_ltb_trans (x y z : K) :
  key_ltb x y = true → key_ltb y z = true → key_ltb x z = true.
Proof.
  unfold key_ltb. destruct (key_compare x y) eqn:E1; try done.
  destruct (key_compare y z) eqn:E2; try done.
  by rewrite (key_compare_trans _ _ _ _ E1 E2).
Qed.

Lemma key_ltb_asym (x y : K) : key_ltb x y = true → key_ltb y x = false.
Proof.
  unfold key_ltb. rewrite (key_compare_antisym x y).
  by destruct (key_compare x y).
Qed.

Lemma key_ltb_leb (x y : K) : key_ltb x y = true → key_leb x y = true.
Proof. unfold key_ltb, key_leb. by destruct (key_compare x y). Qed.

Lemma key_leb_refl (x : K) : key_leb x x = true.
Proof. unfold key_leb. by rewrite key_compare_refl. Qed.

Lemma key_leb_ltb (x y : K) : key_leb x y = negb (key_ltb y x).
Proof.
  unfold key_ltb, key_leb. rewrite (key_compare_antisym x y).
  by destruct (key_compare x y).
Qed.

Lemma key_leb_cases (x y : K) : key_leb x y = true ↔ key_ltb x y = true ∨ x = y.
Proof.
  unfold key_leb, key_ltb. destruct (key_compare x y) eqn:E.
  - apply key_compare_eq in E. naive_solver.
  - naive_solver.
  - split; [done|]. intros [?| ->]; [done|].
    by rewrite key_compare_refl in E.
Qed.

Lemma key_leb_trans (x y z : K) :
  key_leb x y = true → key_leb y z = true → key_leb x z = true.
Proof.
  rewrite (key_leb_cases x y), (key_leb_cases y z), (key_leb_cases x z).
  intros [?| ->] [?| ->]; eauto using key_ltb_trans.
Qed.

Lemma key_leb_ltb_trans (x y z : K) :
  key_leb x y = true → key_ltb y z = true → key_ltb x z = true.
Proof.
  rewrite (key_leb_cases x y). intros [?| ->] ?; eauto using key_ltb_trans.
Qed.

Lemma key_ltb_leb_trans (x y z : K) :
  key_ltb x y = true → key_leb y z = true → key_ltb x z = true.
Proof.
  rewrite (key_leb_cases y z). intros ? [?| ->]; eauto using key_ltb_trans.
Qed.

Lemma key_leb_total (x y : K) : key_leb x y = true ∨ key_leb y x = true.
Proof.
  unfold key_leb. rewrite (key_compare_antisym x y).
  destruct (key_compare x y); auto.
Qed.

Lemma key_leb_antisym (x y : K) : key_leb x y = true → key_leb y x = true → x = y.
Proof.
  rewrite (key_leb_cases x y), (key_leb_cases y x).
  intros [H1|E1] [H2|E2]; auto.
  apply key_ltb_asym in H1. congruence.
Qed.

Lemma key_eqb_eq (x y : K) : key_eqb x y = true ↔ x = y.
Proof.
  unfold key_eqb. rewrite <- key_compare_eq. by destruct (key_compare x y).
Qed.

Lemma key_trichotomy (x y : K) :
  key_ltb x y = true ∨ x = y ∨ key_ltb y x = true.
Proof.
  unfold key_ltb. rewrite (key_compare_antisym x y).
  destruct (key_compare x y) eqn:E; simpl; auto.
  right; left. by apply key_compare_eq.
Qed.
End KeyOrder.

(** ** Paths, versions and documents *)

(** Modelled from the spec: [ResourcePath] and [DocumentKey] (model/path.ts
    and model/document_key.ts are not among the sources): "a
    path-structured identifier (ordered sequence of path segments); totally
    ordered by segment-wise comparison".  [dbKey] of the source is
    [docKey.path.toArray()], so a document key is its array of segments. *)
Abbreviation ResourcePath := (list string) (only parsing).
Abbreviation DocumentKey := (list string) (only parsing).

Definition dbKey (docKey : DocumentKey) : list string := docKey.

(** Modelled from the spec: [ResourcePath.popLast], "parent paths (key minus
    last segment)". *)
Definition popLast (p : ResourcePath) : ResourcePath := removelast p.

(** Modelled from the spec: [ResourcePath.isPrefixOf]. *)
Fixpoint isPrefixOf (p other : ResourcePath) : bool :=
  match p, other with
  | [], _ => true
  | s :: p', t :: other' => if decide (s = t) then isPrefixOf p' other' else false
  | _ :: _, [] => false
  end.

(** Modelled from the spec: [ResourcePath.canonicalString] and
    [DocumentKey.toString], the segments joined by a slash. *)
Definition canonicalString (p : ResourcePath) : string := String.concat "/" p.

(** [DocumentKey.comparator] and the key order of the store agree: both
    compare segment by segment. *)
Definition DocumentKey_comparator (l r : DocumentKey) : comparison :=
  key_compare l r.

(** [primitiveComparator] on strings. *)
Definition primitiveComparator (l r : string) : comparison := String.compare l r.

(** Modelled from the spec: [SnapshotVersion] (core/snapshot_version.ts is
    not among the sources), "a logical version token (monotonic per key,
    comparable, with a distinguished minimum value)": a timestamp of
    seconds and nanoseconds. *)
Record SnapshotVersion := {
  seconds : Z;
  nanoseconds : Z
}.

#[global] Instance SnapshotVersion_eq_dec : EqDecision SnapshotVersion.
Proof. solve_decision. Defined.

Definition SnapshotVersion_min : SnapshotVersion :=
  {| seconds := 0; nanoseconds := 0 |}.

Definition SnapshotVersion_compareTo (a b : SnapshotVersion) : comparison :=
  match Z.compare (seconds a) (seconds b) with
  | Eq => Z.compare (nanoseconds a) (nanoseconds b)
  | c => c
  end.

Definition SnapshotVersion_isEqual (a b : SnapshotVersion) : bool :=
  match SnapshotVersion_compareTo a b with Eq => true | _ => false end.

(** The key a timestamp has in an index: the array [[seconds, nanos]]. *)
Abbreviation DbTimestampKey := (Z * Z)%type (only parsing).

(** Modelled from the spec: [toDbTimestampKey] and [fromDbTimestampKey]
    (local/local_serializer.ts is not among the sources). *)
Definition toDbTimestampKey (v : SnapshotVersion) : DbTimestampKey :=
  (seconds v, nanoseconds v).
Definition fromDbTimestampKey (k : DbTimestampKey) : SnapshotVersion :=
  {| seconds := k.1; nanoseconds := k.2 |}.

(** Modelled from the spec: the typed values of a document's field tree;
    "field tree as a flat ordered map keyed by path". *)
Inductive FieldValue :=
| NullValue
| BooleanValue (b : bool)
| IntegerValue (n : Z)
| StringValue (s : string).

#[global] Instance FieldValue_eq_dec : EqDecision FieldValue.
Proof. solve_decision. Defined.

Inductive DocumentType :=
| INVALID
| FOUND_DOCUMENT
| NO_DOCUMENT
| UNKNOWN_DOCUMENT.

#[global] Instance DocumentType_eq_dec : EqDecision DocumentType.
Proof. solve_decision. Defined.

(** Modelled from the spec: [MutableDocument] (model/document.ts is not
    among the sources), section 3 "Mutable Document". *)
Record MutableDocument := {
  key : DocumentKey;
  documentType : DocumentType;
  version : SnapshotVersion;
  readTime : SnapshotVersion;
  data : gmap string FieldValue;
  hasLocalMutations : bool;
  hasCommittedMutations : bool
}.

#[global] Instance MutableDocument_eq_dec : EqDecision MutableDocument.
Proof. solve_decision. Defined.

(** Modelled from the spec: "created empty/invalid on first cache miss";
    the read time "must default to the minimum sentinel until explicitly
    set". *)
Definition newInvalidDocument (documentKey : DocumentKey) : MutableDocument :=
  {| key := documentKey;
     documentType := INVALID;
     version := SnapshotVersion_min;
     readTime := SnapshotVersion_min;
     data := ∅;
     hasLocalMutations := false;
     hasCommittedMutations := false |}.

(** Modelled from the spec: "a document is valid iff state is one of
    found-document, no-document, unknown-document". *)
Definition isValidDocument (d : MutableDocument) : bool :=
  match documentType d with INVALID => false | _ => true end.

Definition isNoDocument (d : MutableDocument) : bool :=
  match documentType d with NO_DOCUMENT => true | _ => false end.

Definition isFoundDocument (d : MutableDocument) : bool :=
  match documentType d with FOUND_DOCUMENT => true | _ => false end.

(** Modelled from the spec: [convertToNoDocument], "a no-document at the
    given version" with its data cleared; key and read time are kept. *)
Definition convertToNoDocument (d : MutableDocument) (v : SnapshotVersion)
    : MutableDocument :=
  {| key := key d;
     documentType := NO_DOCUMENT;
     version := v;
     readTime := readTime d;
     data := ∅;
     hasLocalMutations := false;
     hasCommittedMutations := false |}.

Definition setReadTime (d : MutableDocument) (rt : SnapshotVersion) : MutableDocument :=
  {| key := key d;
     documentType := documentType d;
     version := version d;
     readTime := rt;
     data := data d;
     hasLocalMutations := hasLocalMutations d;
     hasCommittedMutations := hasCommittedMutations d |}.

(** The sentinel removal of [maybeDecodeDocument]: a no-document at the
    minimum version. *)
Definition isSentinelRemoval (doc : MutableDocument) : bool :=
  isNoDocument doc && SnapshotVersion_isEqual (version doc) SnapshotVersion_min.

(** ** The serializer and the stored records

    [DbRemoteDocument] is the record the store holds.  The cache reads two
    of its properties, [readTime] and the parent path the collection index
    is keyed by; everything else goes through the serializer.
    local/local_serializer.ts, local/indexeddb_schema.ts and [dbDocumentSize]
    are not among the sources: they are the parameters of the model.  The
    encoder is taken as a function that always returns a record; an encoder
    that refuses a document makes the commit fail at that document, which
    this model does not show. *)
Record LocalSerializer (DbRemoteDocument : Type) := {
  db_readTime : DbRemoteDocument → option DbTimestampKey;
  db_parentPath : DbRemoteDocument → ResourcePath;
  toDbRemoteDocument : MutableDocument → DbRemoteDocument;
  fromDbRemoteDocument : DbRemoteDocument → MutableDocument;
  dbDocumentSize : option DbRemoteDocument → Z
}.
Arguments db_readTime {_} _ _.
Arguments db_parentPath {_} _ _.
Arguments toDbRemoteDocument {_} _ _.
Arguments fromDbRemoteDocument {_} _ _.
Arguments dbDocumentSize {_} _ _.

(** ** The key-value store and its cursors *)

(** Modelled from the spec: [IDBKeyRange] of the key-value store, "an
    optional key range". *)
Record IDBKeyRange (IK : Type) := {
  lower : option IK;
  lowerOpen : bool;
  upper : option IK;
  upperOpen : bool
}.
Arguments lower {_} _.
Arguments lowerOpen {_} _.
Arguments upper {_} _.
Arguments upperOpen {_} _.

Definition IDBKeyRange_lowerBound {IK} (k : IK) (open : bool) : IDBKeyRange IK :=
  {| lower := Some k; lowerOpen := open; upper := None; upperOpen := false |}.

Definition IDBKeyRange_bound {IK} (lo hi : IK) : IDBKeyRange IK :=
  {| lower := Some lo; lowerOpen := false; upper := Some hi; upperOpen := false |}.

Definition IDBKeyRange_includes `{IdbKey IK} (range : IDBKeyRange IK) (k : IK) : bool :=
  match lower range with
  | None => true
  | Some lo => if lowerOpen range then key_ltb lo k else key_leb lo k
  end &&
  match upper range with
  | None => true
  | Some hi => if upperOpen range then key_ltb k hi else key_leb k hi
  end.

(** Modelled from the spec: the control object of [SimpleDbStore.iterate]
    (local/simple_db.ts is not among the sources), "mid-iteration
    skipTo(key) / stop() control".  A callback that touches neither moves
    the cursor to the next record. *)
Inductive IterationControl (IK : Type) :=
| ControlContinue
| ControlSkip (k : IK)
| ControlDone.
Arguments ControlContinue {IK}.
Arguments ControlSkip {IK} k.
Arguments ControlDone {IK}.

(** The records a cursor visits are triples of the key in the cursor's
    order, the primary key and the value. *)
Definition cursor_le `{IdbKey IK} {V} : relation (IK * (list string * V)) :=
  λ e1 e2, key_leb (e1.1, e1.2.1) (e2.1, e2.2.1) = true.

#[global] Instance cursor_le_dec `{IdbKey IK} {V} (e1 e2 : IK * (list string * V)) :
  Decision (cursor_le e1 e2).
Proof. unfold cursor_le. apply _. Defined.

(** A cursor opened on a store or on one of its indexes: the records whose
    key path yields a key, in the order of that key and then of the
    primary key. *)
Definition cursor_records `{IdbKey IK} {V}
    (keyPath : list string → V → option IK) (store : gmap (list string) V)
    : list (IK * (list string * V)) :=
  merge_sort cursor_le
    (omap (λ kv, (λ ik, (ik, kv)) <$> keyPath kv.1 kv.2) (map_to_list store)).

Fixpoint cursor_walk `{IdbKey IK} {V S : Type} (skipTo : option IK)
    (records : list (IK * (list string * V)))
    (callback : list string → V → S → Result (S * IterationControl IK))
    (s : S) : Result S :=
  match records with
  | [] => Ok s
  | (ik, (k, v)) :: rest =>
      if match skipTo with Some target => key_ltb ik target | None => false end
      then cursor_walk skipTo rest callback s
      else
        match callback k v s with
        | AssertionFailed msg => AssertionFailed msg
        | Ok (s', ControlContinue) => cursor_walk None rest callback s'
        | Ok (s', ControlSkip target) => cursor_walk (Some target) rest callback s'
        | Ok (s', ControlDone) => Ok s'
        end
  end.

(** Modelled from the spec: [SimpleDbStore.iterate], "iterate(options) →
    lazy sequence of (key, value) where options include an optional key
    range, optional named secondary index". *)
Definition SimpleDbStore_iterate `{IdbKey IK} {V S : Type}
    (index : list string → V → option IK) (range : option (IDBKeyRange IK))
    (store : gmap (list string) V)
    (callback : list string → V → S → Result (S * IterationControl IK))
    (s : S) : Result S :=
  cursor_walk None
    (filter (λ e, match range with
                  | Some r => IDBKeyRange_includes r e.1
                  | None => true
                  end = true)
            (cursor_records index store))
    callback s.

(** Without a named index the cursor runs over the primary keys. *)
Definition primaryKey {V} : list string → V → option (list string) :=
  λ k _, Some k.

(** Modelled from the spec: the iterator of a sorted key set
    (util/sorted_set.ts is not among the sources); [getNext] on an
    exhausted iterator is a failure. *)
Definition getNext (keyIter : list DocumentKey) : Result (DocumentKey * list DocumentKey) :=
  match keyIter with
  | [] => AssertionFailed "getNext() called on iterator when hasNext() is false."
  | k :: keyIter' => Ok (k, keyIter')
  end.

Definition hasNext (keyIter : list DocumentKey) : bool :=
  match keyIter with [] => false | _ :: _ => true end.

(** A [DocumentKeySet] is walked in the order of [DocumentKey.comparator]. *)
Definition key_le : relation DocumentKey := λ l r, key_leb l r = true.

#[global] Instance key_le_dec (l r : DocumentKey) : Decision (key_le l r).
Proof. unfold key_le. apply _. Defined.

Definition getIterator (documentKeys : gset DocumentKey) : list DocumentKey :=
  merge_sort key_le (elements documentKeys).

(** A [MutableDocumentMap] is a map sorted by document key; [forEach] visits
    its entries in key order. *)
Definition MutableDocumentMap_entries (m : gmap DocumentKey MutableDocument)
    : list (DocumentKey * MutableDocument) :=
  merge_sort (λ e1 e2, key_le e1.1 e2.1) (map_to_list m).

(** ** The persistent state a transaction works on *)

(** The single record of [DbRemoteDocumentGlobalStore]. *)
Record DbRemoteDocumentGlobal := {
  byteSize : Z
}.

Record PersistenceTransaction (DbRemoteDocument : Type) := {
  (** [DbRemoteDocumentStore], keyed by the segments of the document key *)
  remoteDocuments : gmap (list string) DbRemoteDocument;
  (** [DbRemoteDocumentGlobalStore] at [DbRemoteDocumentGlobalKey] *)
  remoteDocumentGlobal : option DbRemoteDocumentGlobal;
  (** the paths the index manager was handed by
      [addToCollectionParentIndex] in this transaction, oldest first *)
  collectionParentIndex : list ResourcePath
}.
Arguments remoteDocuments {_} _.
Arguments remoteDocumentGlobal {_} _.
Arguments collectionParentIndex {_} _.

(** The [collectionParents] of [applyChanges]: a [SortedSet] of resource
    paths under the comparator
    [primitiveComparator(l.canonicalString(), r.canonicalString())],
    kept as the list [forEach] walks.  Adding a path that compares equal
    to a member replaces the member. *)
Fixpoint SortedSet_add (elem : ResourcePath) (s : list ResourcePath) : list ResourcePath :=
  match s with
  | [] => [elem]
  | x :: s' =>
      match primitiveComparator (canonicalString elem) (canonicalString x) with
      | Lt => elem :: x :: s'
      | Eq => elem :: s'
      | Gt => x :: SortedSet_add elem s'
      end
  end.

(** The persistence promises [applyChanges] collects, in the order it
    issues them. *)
Inductive PersistencePromise (DbRemoteDocument : Type) :=
| Promise_addEntry (key : DocumentKey) (doc : DbRemoteDocument)
| Promise_removeEntry (documentKey : DocumentKey)
| Promise_addToCollectionParentIndex (parent : ResourcePath)
| Promise_updateMetadata (sizeDelta : Z).
Arguments Promise_addEntry {_} key doc.
Arguments Promise_removeEntry {_} documentKey.
Arguments Promise_addToCollectionParentIndex {_} parent.
Arguments Promise_updateMetadata {_} sizeDelta.

(** The change buffer: [changes] of [RemoteDocumentChangeBuffer], and
    [documentSizes] and [trackRemovals] of the IndexedDb subclass. *)
Record IndexedDbRemoteDocumentChangeBuffer := {
  changes : gmap DocumentKey MutableDocument;
  documentSizes : gmap DocumentKey Z;
  trackRemovals : bool
}.

(** The locals of the loop of [applyChanges]. *)
Record ApplyState (DbRemoteDocument : Type) := {
  sizeDelta : Z;
  collectionParents : list ResourcePath;
  promises : list (PersistencePromise DbRemoteDocument)
}.
Arguments sizeDelta {_} _.
Arguments collectionParents {_} _.
Arguments promises {_} _.

Section Cache.
Context {DbRemoteDocument : Type}.
Variable serializer : LocalSerializer DbRemoteDocument.

Abbreviation Txn := (PersistenceTransaction DbRemoteDocument).

(** *** IndexedDbRemoteDocumentCacheImpl *)

Definition addEntry (transaction : Txn) (key : DocumentKey) (doc : DbRemoteDocument) : Txn :=
  {| remoteDocuments := <[dbKey key := doc]> (remoteDocuments transaction);
     remoteDocumentGlobal := remoteDocumentGlobal transaction;
     collectionParentIndex := collectionParentIndex transaction |}.

Definition removeEntry (transaction : Txn) (documentKey : DocumentKey) : Txn :=
  {| remoteDocuments := delete (dbKey documentKey) (remoteDocuments transaction);
     remoteDocumentGlobal := remoteDocumentGlobal transaction;
     collectionParentIndex := collectionParentIndex transaction |}.

Definition getMetadata (txn : Txn) : Result DbRemoteDocumentGlobal :=
  match remoteDocumentGlobal txn with
  | Some metadata => Ok metadata
  | None => AssertionFailed "Missing document cache metadata"
  end.

Definition setMetadata (txn : Txn) (metadata : DbRemoteDocumentGlobal) : Txn :=
  {| remoteDocuments := remoteDocuments txn;
     remoteDocumentGlobal := Some metadata;
     collectionParentIndex := collectionParentIndex txn |}.

Definition updateMetadata (transaction : Txn) (sizeDelta : Z) : Result Txn :=
  metadata ← getMetadata transaction;
  mret (setMetadata transaction {| byteSize := byteSize metadata + sizeDelta |}).

Definition getSize (txn : Txn) : Result Z :=
  metadata ← getMetadata txn; mret (byteSize metadata).

(** The index manager's [addToCollectionParentIndex]: the cache only
    hands it the path. *)
Definition addToCollectionParentIndex (transaction : Txn) (parent : ResourcePath) : Txn :=
  {| remoteDocuments := remoteDocuments transaction;
     remoteDocumentGlobal := remoteDocumentGlobal transaction;
     collectionParentIndex := collectionParentIndex transaction ++ [parent] |}.

Definition maybeDecodeDocument (documentKey : DocumentKey)
    (dbRemoteDoc : option DbRemoteDocument) : MutableDocument :=
  match dbRemoteDoc with
  | Some dbRemoteDoc =>
      let doc := fromDbRemoteDocument serializer dbRemoteDoc in
      if negb (isSentinelRemoval doc) then doc
      else newInvalidDocument documentKey
  | None => newInvalidDocument documentKey
  end.

Definition getEntry (transaction : Txn) (documentKey : DocumentKey) : MutableDocument :=
  maybeDecodeDocument documentKey (remoteDocuments transaction !! dbKey documentKey).

Definition getSizedEntry (transaction : Txn) (documentKey : DocumentKey)
    : MutableDocument * Z :=
  let dbRemoteDoc := remoteDocuments transaction !! dbKey documentKey in
  (maybeDecodeDocument documentKey dbRemoteDoc, dbDocumentSize serializer dbRemoteDoc).

(** The state of the merge walk of [forEachDbEntry]: [nextKey], the rest
    of [keyIter] and what the callback has accumulated. *)
Fixpoint forEachDbEntry_missing {A : Type}
    (callback : DocumentKey → option DbRemoteDocument → A → A)
    (potentialKey : DocumentKey) (nextKey : option DocumentKey)
    (keyIter : list DocumentKey) (acc : A) {struct keyIter}
    : Result (option DocumentKey * list DocumentKey * A) :=
  match nextKey with
  | Some nk =>
      if key_ltb nk potentialKey then
        (* callback(nextKey, null); nextKey = keyIter.getNext() *)
        match keyIter with
        | [] => '(_, _) ← getNext keyIter; mret (nextKey, keyIter, acc)
        | k :: keyIter' =>
            forEachDbEntry_missing callback potentialKey (Some k) keyIter'
              (callback nk None acc)
        end
      else Ok (nextKey, keyIter, acc)
  | None => Ok (nextKey, keyIter, acc)
  end.

Fixpoint forEachDbEntry_rest {A : Type}
    (callback : DocumentKey → option DbRemoteDocument → A → A)
    (nextKey : option DocumentKey) (keyIter : list DocumentKey) (acc : A)
    {struct keyIter} : A :=
  match nextKey with
  | Some nk =>
      match keyIter with
      | [] => callback nk None acc
      | k :: keyIter' =>
          forEachDbEntry_rest callback (Some k) keyIter' (callback nk None acc)
      end
  | None => acc
  end.

Definition forEachDbEntry_step {A : Type}
    (callback : DocumentKey → option DbRemoteDocument → A → A)
    (potentialKeyRaw : list string) (dbRemoteDoc : DbRemoteDocument)
    (st : option DocumentKey * list DocumentKey * A)
    : Result (option DocumentKey * list DocumentKey * A * IterationControl (list string)) :=
  let potentialKey := potentialKeyRaw in
  let '(nextKey, keyIter, acc) := st in
  (* Go through keys not found in cache. *)
  '(nextKey, keyIter, acc) ←
    forEachDbEntry_missing callback potentialKey nextKey keyIter acc;
  (* Key found in cache. *)
  let '(nextKey, keyIter, acc) :=
    match nextKey with
    | Some nk =>
        if key_eqb nk potentialKey then
          match keyIter with
          | [] => (None, keyIter, callback nk (Some dbRemoteDoc) acc)
          | k :: keyIter' => (Some k, keyIter', callback nk (Some dbRemoteDoc) acc)
          end
        else (nextKey, keyIter, acc)
    | None => (nextKey, keyIter, acc)
    end in
  (* Skip to the next key (if there is one). *)
  match nextKey with
  | Some nk => Ok (nextKey, keyIter, acc, ControlSkip (dbKey nk))
  | None => Ok (nextKey, keyIter, acc, ControlDone)
  end.

Definition forEachDbEntry {A : Type} (transaction : Txn)
    (documentKeys : gset DocumentKey)
    (callback : DocumentKey → option DbRemoteDocument → A → A) (acc : A)
    : Result A :=
  match getIterator documentKeys with
  | [] => Ok acc
  | first :: keyIter =>
      let range := IDBKeyRange_bound (dbKey first) (dbKey (List.last keyIter first)) in
      '(nextKey, keyIter, acc) ←
        SimpleDbStore_iterate primaryKey (Some range) (remoteDocuments transaction)
          (forEachDbEntry_step callback) (Some first, keyIter, acc);
      (* The rest of the keys are not in the cache. *)
      mret (forEachDbEntry_rest callback nextKey keyIter acc)
  end.

Definition getEntries (transaction : Txn) (documentKeys : gset DocumentKey)
    : Result (gmap DocumentKey MutableDocument) :=
  forEachDbEntry transaction documentKeys
    (λ key dbRemoteDoc results,
       let doc := maybeDecodeDocument key dbRemoteDoc in
       <[key := doc]> results)
    ∅.

Definition getSizedEntries (transaction : Txn) (documentKeys : gset DocumentKey)
    : Result (gmap DocumentKey MutableDocument * gmap DocumentKey Z) :=
  forEachDbEntry transaction documentKeys
    (λ key dbRemoteDoc '(results, sizeMap),
       let doc := maybeDecodeDocument key dbRemoteDoc in
       (<[key := doc]> results,
        <[key := dbDocumentSize serializer dbRemoteDoc]> sizeMap))
    (∅, ∅).

(** The two indexes of the store. *)
Definition DbRemoteDocumentReadTimeIndex
    : list string → DbRemoteDocument → option DbTimestampKey :=
  λ _ dbRemoteDoc, db_readTime serializer dbRemoteDoc.

Definition DbRemoteDocumentCollectionReadTimeIndex
    : list string → DbRemoteDocument → option (list string * DbTimestampKey) :=
  λ _ dbRemoteDoc,
    readTime ← db_readTime serializer dbRemoteDoc;
    Some (db_parentPath serializer dbRemoteDoc, readTime).

(** The callback of the cursor of [getAll]; [rawKey] is the [key] the
    cursor hands it, the primary key of the record. *)
Definition getAll_callback {IK : Type} (collection : ResourcePath)
    (rawKey : list string) (dbRemoteDoc : DbRemoteDocument)
    (results : gmap DocumentKey MutableDocument)
    : Result (gmap DocumentKey MutableDocument * IterationControl IK) :=
  let immediateChildrenPathLength := (length collection + 1)%nat in
  if negb (length rawKey =? immediateChildrenPathLength)%nat then
    Ok (results, ControlContinue)
  else
    let document := maybeDecodeDocument rawKey (Some dbRemoteDoc) in
    if isPrefixOf collection (key document) then
      Ok (<[key document := document]> results, ControlContinue)
    else
      Ok (results, ControlDone).

Definition getAll (transaction : Txn) (collection : ResourcePath)
    (sinceReadTime : SnapshotVersion) : Result (gmap DocumentKey MutableDocument) :=
  if SnapshotVersion_isEqual sinceReadTime SnapshotVersion_min then
    (* Documents are ordered by key, so we can use a prefix scan. *)
    let startKey := collection in
    SimpleDbStore_iterate primaryKey
      (Some (IDBKeyRange_lowerBound startKey false))
      (remoteDocuments transaction) (getAll_callback collection) ∅
  else
    let collectionKey := collection in
    let readTimeKey := toDbTimestampKey sinceReadTime in
    SimpleDbStore_iterate DbRemoteDocumentCollectionReadTimeIndex
      (Some (IDBKeyRange_lowerBound (collectionKey, readTimeKey) true))
      (remoteDocuments transaction) (getAll_callback collection) ∅.

Definition newChangeBuffer (options : option bool) : IndexedDbRemoteDocumentChangeBuffer :=
  {| changes := ∅;
     documentSizes := ∅;
     trackRemovals := match options with Some tr => tr | None => false end |}.
End Cache.

Section ChangeBuffer.
Context {DbRemoteDocument : Type}.
Variable serializer : LocalSerializer DbRemoteDocument.

Abbreviation Txn := (PersistenceTransaction DbRemoteDocument).
Abbreviation Buffer := IndexedDbRemoteDocumentChangeBuffer.

(** *** remoteDocumentCacheGetNewDocumentChanges *)

Definition getNewDocumentChanges_callback
    (_ : list string) (dbRemoteDoc : DbRemoteDocument)
    (st : gmap DocumentKey MutableDocument * DbTimestampKey)
    : Result (gmap DocumentKey MutableDocument * DbTimestampKey
              * IterationControl DbTimestampKey) :=
  let '(changedDocs, lastReadTime) := st in
  (* Unlike getEntry() and others, the document is parsed directly since
     we want to keep sentinel deletes. *)
  let doc := fromDbRemoteDocument serializer dbRemoteDoc in
  match db_readTime serializer dbRemoteDoc with
  | Some readTime => Ok (<[key doc := doc]> changedDocs, readTime, ControlContinue)
  | None => AssertionFailed "dbRemoteDoc.readTime is undefined"
  end.

Definition remoteDocumentCacheGetNewDocumentChanges (transaction : Txn)
    (sinceReadTime : SnapshotVersion)
    : Result (gmap DocumentKey MutableDocument * SnapshotVersion) :=
  let lastReadTime := toDbTimestampKey sinceReadTime in
  let range := IDBKeyRange_lowerBound lastReadTime true in
  '(changedDocs, lastReadTime) ←
    SimpleDbStore_iterate (DbRemoteDocumentReadTimeIndex serializer) (Some range)
      (remoteDocuments transaction) getNewDocumentChanges_callback
      (∅, lastReadTime);
  mret (changedDocs, fromDbTimestampKey lastReadTime).

(** *** IndexedDbRemoteDocumentChangeBuffer *)

(** One turn of the loop of [applyChanges].  What it returns is what the
    loop accumulates.  The staged document is not part of it: for a
    tracked removal [convertToNoDocument] is called on the staged document
    itself, so what the buffer stages after the call is outside this
    model, which describes one call of [applyChanges] on a buffer. *)
Definition applyChanges_entry (buffer : Buffer)
    (st : ApplyState DbRemoteDocument)
    (key : DocumentKey) (documentChange : MutableDocument)
    : Result (ApplyState DbRemoteDocument) :=
  match documentSizes buffer !! key with
  | None =>
      AssertionFailed
        ("Cannot modify a document that wasn't read (for "
         +:+ canonicalString key +:+ ")")
  | Some previousSize =>
      if isValidDocument documentChange then
        if SnapshotVersion_isEqual (readTime documentChange) SnapshotVersion_min
        then AssertionFailed "Cannot add a document with a read time of zero"
        else
          let doc := toDbRemoteDocument serializer documentChange in
          let size := dbDocumentSize serializer (Some doc) in
          Ok {| collectionParents :=
                  SortedSet_add (popLast key) (collectionParents st);
                sizeDelta := sizeDelta st + (size - previousSize);
                promises := promises st ++ [Promise_addEntry key doc] |}
      else
        if trackRemovals buffer then
          (* a "sentinel delete": a NoDocument with a version of 0 *)
          let deletedDoc :=
            toDbRemoteDocument serializer
              (convertToNoDocument documentChange SnapshotVersion_min) in
          Ok {| collectionParents := collectionParents st;
                sizeDelta := sizeDelta st - previousSize;
                promises := promises st ++ [Promise_addEntry key deletedDoc] |}
        else
          Ok {| collectionParents := collectionParents st;
                sizeDelta := sizeDelta st - previousSize;
                promises := promises st ++ [Promise_removeEntry key] |}
  end.

(** [this.changes.forEach]. *)
Fixpoint applyChanges_forEach (buffer : Buffer)
    (entries : list (DocumentKey * MutableDocument))
    (st : ApplyState DbRemoteDocument) : Result (ApplyState DbRemoteDocument) :=
  match entries with
  | [] => Ok st
  | (key, documentChange) :: entries' =>
      st' ← applyChanges_entry buffer st key documentChange;
      applyChanges_forEach buffer entries' st'
  end.

(** The array [promises] at the end of [applyChanges]. *)
Definition applyChanges_promises (buffer : Buffer)
    : Result (list (PersistencePromise DbRemoteDocument)) :=
  st ← applyChanges_forEach buffer (map_to_list (changes buffer))
         {| sizeDelta := 0; collectionParents := []; promises := [] |};
  mret (promises st
        ++ (Promise_addToCollectionParentIndex <$> collectionParents st)
        ++ [Promise_updateMetadata (sizeDelta st)]).

Definition PersistencePromise_run (p : PersistencePromise DbRemoteDocument)
    (transaction : Txn) : Result Txn :=
  match p with
  | Promise_addEntry key doc => Ok (addEntry transaction key doc)
  | Promise_removeEntry documentKey => Ok (removeEntry transaction documentKey)
  | Promise_addToCollectionParentIndex parent =>
      Ok (addToCollectionParentIndex transaction parent)
  | Promise_updateMetadata sizeDelta => updateMetadata transaction sizeDelta
  end.

Fixpoint PersistencePromise_waitFor (ps : list (PersistencePromise DbRemoteDocument))
    (transaction : Txn) : Result Txn :=
  match ps with
  | [] => Ok transaction
  | p :: ps' =>
      transaction' ← PersistencePromise_run p transaction;
      PersistencePromise_waitFor ps' transaction'
  end.

(** A failing assertion aborts the transaction: no state comes back. *)
Definition applyChanges (buffer : Buffer) (transaction : Txn) : Result Txn :=
  ps ← applyChanges_promises buffer;
  PersistencePromise_waitFor ps transaction.

Definition getFromCache (buffer : Buffer) (transaction : Txn)
    (documentKey : DocumentKey) : Buffer * MutableDocument :=
  (* Record the size of everything we load from the cache. *)
  let getResult := getSizedEntry serializer transaction documentKey in
  ({| changes := changes buffer;
      documentSizes := <[documentKey := getResult.2]> (documentSizes buffer);
      trackRemovals := trackRemovals buffer |},
   getResult.1).

Definition getAllFromCache (buffer : Buffer) (transaction : Txn)
    (documentKeys : gset DocumentKey)
    : Result (Buffer * gmap DocumentKey MutableDocument) :=
  '(documents, sizeMap) ← getSizedEntries serializer transaction documentKeys;
  mret ({| changes := changes buffer;
           documentSizes :=
             map_fold (λ documentKey size sizes, <[documentKey := size]> sizes)
                      (documentSizes buffer) sizeMap;
           trackRemovals := trackRemovals buffer |},
        documents).

(** *** RemoteDocumentChangeBuffer, the base class *)

(** Modelled from the spec: [RemoteDocumentChangeBuffer.addEntry]
    (local/remote_document_change_buffer.ts is not among the sources),
    "stages the document for write; if this key already appears in the
    buffer, it is only updated in the set, not duplicated". *)
Definition buffer_addEntry (buffer : Buffer) (document : MutableDocument) : Buffer :=
  {| changes := <[key document := document]> (changes buffer);
     documentSizes := documentSizes buffer;
     trackRemovals := trackRemovals buffer |}.

(** Modelled from the spec: [RemoteDocumentChangeBuffer.removeEntry]; a
    removal is staged as an invalid ("deleted") document for the key,
    carrying the read time of the removal. *)
Definition buffer_removeEntry (buffer : Buffer) (key : DocumentKey)
    (readTime : SnapshotVersion) : Buffer :=
  {| changes := <[key := setReadTime (newInvalidDocument key) readTime]> (changes buffer);
     documentSizes := documentSizes buffer;
     trackRemovals := trackRemovals buffer |}.

(** Modelled from the spec: [RemoteDocumentChangeBuffer.getEntry], "first
    check the buffer's in-progress change set; on miss, delegate to the
    cache and record the pre-existing size". *)
Definition buffer_getEntry (buffer : Buffer) (transaction : Txn)
    (documentKey : DocumentKey) : Buffer * MutableDocument :=
  match changes buffer !! documentKey with
  | Some bufferedEntry => (buffer, bufferedEntry)
  | None => getFromCache buffer transaction documentKey
  end.

(** Modelled from the spec: [RemoteDocumentChangeBuffer.getEntries], with
    the same rule per key: the staged keys are answered from the change
    set, the others are read from the cache in one call. *)
Definition buffer_getEntries (buffer : Buffer) (transaction : Txn)
    (documentKeys : gset DocumentKey)
    : Result (Buffer * gmap DocumentKey MutableDocument) :=
  let staged := filter (λ kv, kv.1 ∈ documentKeys) (changes buffer) in
  let misses := filter (λ k, changes buffer !! k = None) documentKeys in
  '(buffer', documents) ← getAllFromCache buffer transaction misses;
  mret (buffer', staged ∪ documents).

(** Modelled from the spec: [RemoteDocumentChangeBuffer.apply], the
    single terminal call that commits the staged changes. *)
Definition buffer_apply (buffer : Buffer) (transaction : Txn) : Result Txn :=
  applyChanges buffer transaction.
End ChangeBuffer.

(** ** A serializer to run the model with

    Modelled from the spec: "Serializer: encode(document) → on-disk
    representation, decode(on-disk representation) → document; opaque to
    this core beyond needing a byteSize(encoded) estimator".  The record
    keeps the document beside the two properties the indexes read; its
    size estimate counts the key, the fields and a constant for the
    envelope, so that every stored record, a sentinel delete included,
    has a positive size. *)
Record StoredDocument := {
  stored_parentPath : ResourcePath;
  stored_readTime : option DbTimestampKey;
  stored_document : MutableDocument
}.

Definition storedSize (r : StoredDocument) : Z :=
  2 + Z.of_nat (String.length (canonicalString (key (stored_document r))))
    + Z.of_nat (size (data (stored_document r))).

Definition storedSerializer : LocalSerializer StoredDocument :=
  {| db_readTime := stored_readTime;
     db_parentPath := stored_parentPath;
     toDbRemoteDocument := λ document,
       {| stored_parentPath := popLast (key document);
          stored_readTime := Some (toDbTimestampKey (readTime document));
          stored_document := document |};
     fromDbRemoteDocument := stored_document;
     dbDocumentSize := λ doc,
       match doc with
       | None => 0
       | Some r => storedSize r
       end |}.

(** The helpers of the unit tests: [doc], [deletedDoc] and [version], which
    reads its argument as microseconds. *)
Definition testVersion (v : Z) : SnapshotVersion :=
  {| seconds := v / 1000000; nanoseconds := (v mod 1000000) * 1000 |}.

Definition doc (path : DocumentKey) (v : Z) (fields : gmap string FieldValue)
    (rt : Z) : MutableDocument :=
  {| key := path;
     documentType := FOUND_DOCUMENT;
     version := testVersion v;
     readTime := testVersion rt;
     data := fields;
     hasLocalMutations := false;
     hasCommittedMutations := false |}.

Definition deletedDoc (path : DocumentKey) (v : Z) (rt : Z) : MutableDocument :=
  {| key := path;
     documentType := NO_DOCUMENT;
     version := testVersion v;
     readTime := testVersion rt;
     data := ∅;
     hasLocalMutations := false;
     hasCommittedMutations := false |}.

Definition DOC_DATA : gmap string FieldValue :=
  {[ "a" := IntegerValue 1; "b" := IntegerValue 2 ]}.

Definition emptyTransaction {DbRemoteDocument} : PersistenceTransaction DbRemoteDocument :=
  {| remoteDocuments := ∅;
     remoteDocumentGlobal := Some {| byteSize := 0 |};
     collectionParentIndex := [] |}.

(** What the test cache does for [addEntries]: one change buffer per call,
    every key read through it before it is staged. *)
Definition commit {DbRemoteDocument} (serializer : LocalSerializer DbRemoteDocument)
    (tracking : bool) (staged : list (DocumentKey * option MutableDocument))
    (removalReadTime : SnapshotVersion)
    (transaction : PersistenceTransaction DbRemoteDocument)
    : Result (PersistenceTransaction DbRemoteDocument) :=
  let buffer :=
    foldl (λ buffer kd,
             let buffer := (buffer_getEntry serializer buffer transaction kd.1).1 in
             match kd.2 with
             | Some document => buffer_addEntry buffer document
             | None => buffer_removeEntry buffer kd.1 removalReadTime
             end)
          (newChangeBuffer (Some tracking)) staged in
  buffer_apply serializer buffer transaction.

(** * Properties *)

(** ** Cursors *)

Section CursorFacts.
Context `{IdbKey IK} {V : Type}.
Implicit Types (keyPath : list string → V → option IK).
Implicit Types (store : gmap (list string) V).
Implicit Types (records : list (IK * (list string * V))).

#[local] Instance cursor_le_total : Total (@cursor_le IK _ V).
Proof. intros e1 e2. apply key_leb_total. Qed.

#[local] Instance cursor_le_trans : Transitive (@cursor_le IK _ V).
Proof. intros e1 e2 e3. apply key_leb_trans. Qed.

Lemma elem_of_cursor_records keyPath store ik k v :
  (ik, (k, v)) ∈ cursor_records keyPath store ↔
  store !! k = Some v ∧ keyPath k v = Some ik.
Proof.
  unfold cursor_records. rewrite merge_sort_Permutation, list_elem_of_omap.
  split.
  - intros [[k' v'] [Hin Hkp]]. apply elem_of_map_to_list in Hin. simpl in Hkp.
    destruct (keyPath k' v') eqn:E; simplify_eq/=. done.
  - intros [Hs Hkp]. exists (k, v). split; [by apply elem_of_map_to_list|].
    simpl. by rewrite Hkp.
Qed.

Lemma cursor_records_sorted keyPath store :
  StronglySorted cursor_le (cursor_records keyPath store).
Proof. apply StronglySorted_merge_sort; apply _. Qed.

Lemma cursor_records_NoDup keyPath store :
  NoDup ((λ e, e.2.1) <$> cursor_records keyPath store).
Proof.
  unfold cursor_records. rewrite merge_sort_Permutation.
  pose proof (NoDup_fst_map_to_list store) as Hnd.
  induction (map_to_list store) as [|[k v] l IH]; simpl; [constructor|].
  apply NoDup_cons in Hnd as [Hk Hnd].
  destruct (keyPath k v) as [ik|]; simpl; [|by auto].
  apply NoDup_cons. split; [|by auto].
  intros Hin. apply Hk. apply list_elem_of_fmap in Hin as [[ik' [k' v']] [-> Hin]].
  apply list_elem_of_omap in Hin as [[k'' v''] [Hin Hkp]]. simpl in *.
  destruct (keyPath k'' v''); simplify_eq/=.
  apply list_elem_of_fmap. by exists (k', v').
Qed.

Lemma StronglySorted_filter_cursor (P : IK * (list string * V) → Prop)
    `{∀ e, Decision (P e)} records :
  StronglySorted cursor_le records → StronglySorted cursor_le (filter P records).
Proof.
  induction 1 as [|e l Hl IH Hall]; [constructor|].
  rewrite filter_cons. destruct (decide (P e)); [|done].
  constructor; [done|]. apply Forall_forall. intros e' [_ Hin]%list_elem_of_filter.
  rewrite Forall_forall in Hall. by apply Hall.
Qed.

(** A walk whose callback neither fails nor skips visits the records in
    order, up to the first one at which the callback is done. *)
Lemma cursor_walk_scan {S : Type}
    (callback : list string → V → S → Result (S * IterationControl IK))
    (wanted : IK * (list string * V) → bool)
    (update : S → IK * (list string * V) → S) records :
  (∀ ik k v s, (ik, (k, v)) ∈ records → wanted (ik, (k, v)) = true →
     callback k v s = Ok (update s (ik, (k, v)), ControlContinue)) →
  (∀ ik k v s, (ik, (k, v)) ∈ records → wanted (ik, (k, v)) = false →
     callback k v s = Ok (s, ControlContinue) ∨
     (callback k v s = Ok (s, ControlDone) ∧
      ∀ l1 l2, records = l1 ++ (ik, (k, v)) :: l2 →
        Forall (λ e, wanted e = false) l2)) →
  ∀ s, cursor_walk None records callback s
       = Ok (foldl update s (filter (λ e, wanted e = true) records)).
Proof.
  intros Hwanted Hother.
  assert (∀ l1 l2, records = l1 ++ l2 → ∀ s,
    cursor_walk None l2 callback s
    = Ok (foldl update s (filter (λ e, wanted e = true) l2))) as Hgen.
  { intros l1 l2. revert l1. induction l2 as [|[ik [k v]] l2 IH]; intros l1 Heq s.
    - done.
    - assert ((ik, (k, v)) ∈ records) as Hin.
      { rewrite Heq. apply elem_of_app. right. by apply elem_of_cons; left. }
      simpl. rewrite filter_cons. destruct (wanted (ik, (k, v))) eqn:Hw.
      + rewrite (Hwanted ik k v s Hin Hw). rewrite decide_True by done. simpl.
        apply (IH (l1 ++ [(ik, (k, v))])). by rewrite <- app_assoc.
      + rewrite decide_False by done.
        destruct (Hother ik k v s Hin Hw) as [->|[-> Hrest]].
        * apply (IH (l1 ++ [(ik, (k, v))])). by rewrite <- app_assoc.
        * specialize (Hrest l1 l2 Heq).
          replace (filter (λ e, wanted e = true) l2) with (@nil (IK * (list string * V))); [done|].
          symmetry. clear -Hrest. induction Hrest as [|e l He Hl IHl]; [done|].
          rewrite filter_cons, decide_False by congruence. done. }
  intros s. by apply (Hgen []).
Qed.
End CursorFacts.

(** Folding insertions over records with distinct keys. *)
Lemma foldl_insert_lookup_notin {E V : Type} (f : E → list string * V)
    (l : list E) (m : gmap (list string) V) (k : list string) :
  k ∉ (λ e, (f e).1) <$> l →
  foldl (λ m e, <[(f e).1 := (f e).2]> m) m l !! k = m !! k.
Proof.
  revert m. induction l as [|e l IH]; intros m Hk; [done|]. simpl.
  rewrite fmap_cons, not_elem_of_cons in Hk. destruct Hk as [Hne Hk].
  rewrite IH by done. by rewrite lookup_insert_ne.
Qed.

Lemma foldl_insert_lookup_in {E V : Type} (f : E → list string * V)
    (l : list E) (m : gmap (list string) V) (e : E) :
  NoDup ((λ e, (f e).1) <$> l) → e ∈ l →
  foldl (λ m e, <[(f e).1 := (f e).2]> m) m l !! (f e).1 = Some (f e).2.
Proof.
  revert m. induction l as [|e' l IH]; intros m Hnd Hin; [by apply elem_of_nil in Hin|].
  rewrite fmap_cons in Hnd. apply NoDup_cons in Hnd as [Hk Hnd]. simpl.
  apply elem_of_cons in Hin as [->|Hin].
  - rewrite foldl_insert_lookup_notin by done. by rewrite lookup_insert_eq.
  - by apply IH.
Qed.

Lemma key_compare_pair `{IdbKey A, IdbKey B} (a a' : A) (b b' : B) :
  key_compare (a, b) (a', b')
  = match key_compare a a' with Eq => key_compare b b' | c => c end.
Proof. done. Qed.

Lemma key_leb_pair_fst `{IdbKey A, IdbKey B} (a a' : A) (b b' : B) :
  key_leb (a, b) (a', b') = true → key_leb a a' = true.
Proof.
  unfold key_leb. rewrite key_compare_pair. by destruct (key_compare a a').
Qed.

Lemma key_ltb_pair_fst `{IdbKey A, IdbKey B} (a a' : A) (b b' : B) :
  key_ltb (a, b) (a', b') = true → key_leb a a' = true.
Proof.
  unfold key_ltb, key_leb. rewrite key_compare_pair. by destruct (key_compare a a').
Qed.

Lemma key_ltb_pair `{IdbKey A, IdbKey B} (a a' : A) (b b' : B) :
  key_ltb (a, b) (a', b') = true ↔
  key_ltb a a' = true ∨ (a = a' ∧ key_ltb b b' = true).
Proof.
  unfold key_ltb. rewrite key_compare_pair.
  destruct (key_compare a a') eqn:E.
  - apply key_compare_eq in E. split; [by auto|]. by intros [?|[_ ?]].
  - split; auto.
  - split; [done|]. intros [?|[-> ?]]; [done|]. by rewrite key_compare_refl in E.
Qed.

Lemma last_cons_default {A} (x d : A) (l : list A) :
  List.last (x :: l) d = List.last l x.
Proof.
  revert x d. induction l as [|y l IH]; intros x d; [done|].
  change (List.last (x :: y :: l) d) with (List.last (y :: l) d).
  by rewrite !IH.
Qed.

Lemma last_app_cons {A} (pre l : list A) (x d : A) :
  List.last (pre ++ x :: l) d = List.last l x.
Proof.
  revert d. induction pre as [|y pre IH]; intros d; simpl app.
  - apply last_cons_default.
  - rewrite last_cons_default. apply IH.
Qed.

(** ** Paths *)

Lemma isPrefixOf_spec (p other : ResourcePath) :
  isPrefixOf p other = true ↔ ∃ rest, other = p ++ rest.
Proof.
  revert other. induction p as [|s p IH]; intros other; simpl.
  - split; [eauto|done].
  - destruct other as [|t other].
    + split; [done|]. by intros [rest ?].
    + destruct (decide (s = t)) as [->|Hne].
      * rewrite IH. split; intros [rest Hr]; exists rest; simplify_eq/=; done.
      * split; [done|]. intros [rest ?]. simplify_eq/=.
Qed.

Lemma popLast_snoc (p : ResourcePath) (s : string) : popLast (p ++ [s]) = p.
Proof. unfold popLast. apply removelast_last. Qed.

Lemma length_popLast (p : ResourcePath) : length (popLast p) = pred (length p).
Proof.
  unfold popLast. induction p as [|s p IH]; [done|].
  simpl. destruct p; [done|]. simpl in *. by rewrite IH.
Qed.

(** The immediate children of a collection are the keys whose parent path
    is the collection. *)
Lemma immediate_child_popLast (collection k : ResourcePath) :
  (length k = length collection + 1)%nat ∧ isPrefixOf collection k = true
  ↔ popLast k = collection ∧ k ≠ [].
Proof.
  split.
  - intros [Hlen [rest ->]%isPrefixOf_spec]. rewrite length_app in Hlen.
    destruct rest as [|s [|??]]; simpl in Hlen; try lia.
    split; [apply popLast_snoc|]. by destruct collection.
  - intros [<- Hne]. destruct (exists_last Hne) as [p [s ->]].
    rewrite popLast_snoc. split; [rewrite length_app; simpl; lia|].
    apply isPrefixOf_spec. eauto.
Qed.

Lemma key_compare_cons (s t : string) (p q : list string) :
  key_compare (s :: p) (t :: q)
  = match key_compare s t with Eq => key_compare p q | c => c end.
Proof. simpl. by destruct (String.compare s t). Qed.

(** In key order the keys below a collection are contiguous, starting at
    the collection itself: once a scan from the collection has moved past
    them, it does not meet another. *)
Lemma isPrefixOf_past (collection k k' : list string) :
  key_leb collection k = true → isPrefixOf collection k = false →
  key_leb k k' = true → isPrefixOf collection k' = false.
Proof.
  revert k k'. induction collection as [|y c IH]; intros k k'; [done|].
  destruct k as [|x k]; [done|]. unfold key_leb at 1 2.
  destruct k' as [|x' k']; [done|].
  rewrite !key_compare_cons. simpl isPrefixOf.
  destruct (decide (y = x)) as [->|Hyx].
  - rewrite key_compare_refl. intros Hck Hpre.
    destruct (key_compare x x') eqn:Hxx'.
    + apply key_compare_eq in Hxx' as <-. rewrite decide_True by done.
      intros Hkk'. apply (IH k k'); unfold key_leb; done.
    + intros _. destruct (decide (x = x')) as [<-|]; [|done].
      by rewrite key_compare_refl in Hxx'.
    + done.
  - destruct (key_compare y x) eqn:Hcyx.
    + by apply key_compare_eq in Hcyx.
    + intros _ _. destruct (key_compare x x') eqn:Hxx'; [| |done].
      * apply key_compare_eq in Hxx' as <-. by rewrite decide_False.
      * intros _. destruct (decide (y = x')) as [->|]; [|done].
        pose proof (key_compare_trans _ _ _ _ Hcyx Hxx') as Hc.
        by rewrite key_compare_refl in Hc.
    + done.
Qed.

(** ** Sorted key sets *)

Definition key_lt : relation DocumentKey := λ l r, key_ltb l r = true.

#[local] Instance key_le_total : Total key_le.
Proof. intros l r. apply key_leb_total. Qed.

#[local] Instance key_le_trans : Transitive key_le.
Proof. intros x y z. apply key_leb_trans. Qed.

Lemma StronglySorted_le_lt (l : list DocumentKey) :
  NoDup l → StronglySorted key_le l → StronglySorted key_lt l.
Proof.
  intros Hnd Hs. induction Hs as [|k l Hl IH Hall]; [constructor|].
  apply NoDup_cons in Hnd as [Hk Hnd]. constructor; [by apply IH|].
  rewrite Forall_forall in *. intros k' Hin.
  specialize (Hall k' Hin). apply key_leb_cases in Hall.
  destruct Hall as [?| ->]; done.
Qed.

Lemma getIterator_sorted (documentKeys : gset DocumentKey) :
  StronglySorted key_lt (getIterator documentKeys).
Proof.
  unfold getIterator. apply StronglySorted_le_lt.
  - rewrite merge_sort_Permutation. apply NoDup_elements.
  - apply StronglySorted_merge_sort; apply _.
Qed.

Lemma elem_of_getIterator (documentKeys : gset DocumentKey) (k : DocumentKey) :
  k ∈ getIterator documentKeys ↔ k ∈ documentKeys.
Proof. unfold getIterator. by rewrite merge_sort_Permutation, elem_of_elements. Qed.

Lemma getIterator_NoDup (documentKeys : gset DocumentKey) :
  NoDup (getIterator documentKeys).
Proof. unfold getIterator. rewrite merge_sort_Permutation. apply NoDup_elements. Qed.

Lemma last_sorted_max (nk : DocumentKey) (rest : list DocumentKey) :
  StronglySorted key_lt (nk :: rest) →
  Forall (λ k, key_leb k (List.last rest nk) = true) (nk :: rest).
Proof.
  revert nk. induction rest as [|k rest IH]; intros nk Hs.
  - constructor; [apply key_leb_refl|constructor].
  - apply StronglySorted_inv in Hs as [Hs Hall].
    specialize (IH k Hs). rewrite last_cons_default.
    constructor; [|done].
    apply Forall_inv in Hall. apply Forall_inv in IH.
    apply key_ltb_leb, (key_ltb_leb_trans _ k); done.
Qed.

(** ** The merge walk of [forEachDbEntry] *)

Section ForEachDbEntry.
Context {DbRemoteDocument A : Type}.
Variable callback : DocumentKey → option DbRemoteDocument → A → A.
Variable store : gmap (list string) DbRemoteDocument.

(** What the walk has to compute: the callback on every key of the set,
    in order, with the record the store holds for it. *)
Definition lookup_each (keys : list DocumentKey) (acc : A) : A :=
  foldl (λ acc k, callback k (store !! k) acc) acc keys.

Lemma forEachDbEntry_rest_absent (nk : DocumentKey) (rest : list DocumentKey) (acc : A) :
  Forall (λ k, store !! k = None) (nk :: rest) →
  forEachDbEntry_rest callback (Some nk) rest acc = lookup_each (nk :: rest) acc.
Proof.
  revert nk acc. induction rest as [|k rest IH]; intros nk acc Hall.
  - apply Forall_inv in Hall. simpl. by rewrite Hall.
  - apply Forall_cons in Hall as [Hnk Hall]. simpl forEachDbEntry_rest.
    rewrite IH by done. unfold lookup_each. simpl. by rewrite Hnk.
Qed.

Lemma forEachDbEntry_missing_spec (potentialKey nk : DocumentKey)
    (rest : list DocumentKey) (acc : A) :
  StronglySorted key_lt (nk :: rest) →
  key_leb potentialKey (List.last rest nk) = true →
  Forall (λ k, key_ltb k potentialKey = true → store !! k = None) (nk :: rest) →
  ∃ pre nk' rest',
    nk :: rest = pre ++ nk' :: rest' ∧
    key_ltb nk' potentialKey = false ∧
    forEachDbEntry_missing callback potentialKey (Some nk) rest acc
    = Ok (Some nk', rest', lookup_each pre acc).
Proof.
  revert nk acc. induction rest as [|k rest IH]; intros nk acc Hs Hlast Habs.
  - simpl in *. destruct (key_ltb nk potentialKey) eqn:Hlt.
    + rewrite key_leb_ltb, Hlt in Hlast. done.
    + exists [], nk, []. done.
  - simpl. destruct (key_ltb nk potentialKey) eqn:Hlt.
    + apply StronglySorted_inv in Hs as [Hs _].
      apply Forall_cons in Habs as [Hnk Habs].
      rewrite last_cons_default in Hlast.
      destruct (IH k (callback nk None acc) Hs Hlast Habs)
        as (pre & nk' & rest' & Heq & Hge & Hrun).
      exists (nk :: pre), nk', rest'. split; [by rewrite Heq|]. split; [done|].
      rewrite Hrun. unfold lookup_each. simpl. by rewrite (Hnk Hlt).
    + exists [], nk, (k :: rest). done.
Qed.

Abbreviation walkState := (option DocumentKey * list DocumentKey * A)%type.

Definition finish (r : Result walkState) : Result A :=
  '(nextKey, keyIter, acc) ← r;
  mret (forEachDbEntry_rest callback nextKey keyIter acc).

Lemma sorted_keys_head_le (nk k : DocumentKey) (rest : list DocumentKey) :
  StronglySorted key_lt (nk :: rest) → k ∈ nk :: rest → key_leb nk k = true.
Proof.
  intros [Hs Hall]%StronglySorted_inv [->|Hin]%elem_of_cons.
  - apply key_leb_refl.
  - rewrite Forall_forall in Hall. by apply key_ltb_leb, Hall.
Qed.

Lemma forEachDbEntry_walk (records : list (list string * (list string * DbRemoteDocument))) :
  ∀ (nk : DocumentKey) (rest : list DocumentKey) (acc : A) (skipTo : option (list string)),
  StronglySorted key_lt (nk :: rest) →
  (skipTo = None ∨ skipTo = Some nk) →
  StronglySorted cursor_le records →
  Forall (λ e, e.1 = e.2.1 ∧ store !! e.2.1 = Some e.2.2
               ∧ key_leb e.1 (List.last rest nk) = true) records →
  (∀ k v, k ∈ nk :: rest → store !! k = Some v → (k, (k, v)) ∈ records) →
  finish (cursor_walk skipTo records (forEachDbEntry_step callback) (Some nk, rest, acc))
  = Ok (lookup_each (nk :: rest) acc).
Proof.
  induction records as [|[ik [k v]] records IH];
    intros nk rest acc skipTo Hkeys Hskip Hsorted Hrecs Hall.
  - simpl. f_equal. apply forEachDbEntry_rest_absent. apply Forall_forall.
    intros k Hk. destruct (store !! k) as [v|] eqn:E; [|done].
    by apply Hall, elem_of_nil in E.
  - apply Forall_cons in Hrecs as [(Hik & Hkv & Hmax) Hrecs]. simpl in Hik, Hkv, Hmax.
    subst ik. apply StronglySorted_inv in Hsorted as [Hsorted Hhead].
    (* a key of the set that is below the record is not in the store *)
    assert (∀ k', k' ∈ nk :: rest → key_ltb k' k = true → store !! k' = None)
      as Hpassed.
    { intros k' Hk' Hlt. destruct (store !! k') as [v'|] eqn:E; [|done].
      apply Hall in E; [|done]. apply elem_of_cons in E as [E|E].
      - simplify_eq. by rewrite key_ltb_irrefl in Hlt.
      - rewrite Forall_forall in Hhead. specialize (Hhead _ E).
        apply key_leb_pair_fst in Hhead. simpl in Hhead.
        rewrite key_leb_ltb, Hlt in Hhead. done. }
    (* a key of the set that is above the record is still ahead *)
    assert (∀ k' v', key_ltb k k' = true → store !! k' = Some v' →
              k' ∈ nk :: rest → (k', (k', v')) ∈ records) as Hahead.
    { intros k' v' Hlt E Hk'. apply Hall in E; [|done].
      apply elem_of_cons in E as [E|E]; [|done].
      simplify_eq. by rewrite key_ltb_irrefl in Hlt. }
    cbn [cursor_walk].
    destruct (match skipTo with Some target => key_ltb k target | None => false end)
      eqn:Hskipped.
    + (* the cursor passes the record on its way to the skip target *)
      destruct Hskip as [->| ->]; [done|].
      apply IH; auto.
      intros k' v' Hk' E. apply Hahead; [|done..].
      eapply key_ltb_leb_trans; [done|]. by eapply sorted_keys_head_le.
    + (* the callback runs *)
      destruct (forEachDbEntry_missing_spec k nk rest acc)
        as (pre & nk' & rest' & Heq & Hge & Hrun); [done..| |].
      { apply Forall_forall. intros k' Hk'. by apply Hpassed. }
      assert (StronglySorted key_lt (nk' :: rest')) as Hkeys'.
      { rewrite Heq in Hkeys. by apply StronglySorted_app_1_r in Hkeys. }
      assert (List.last rest' nk' = List.last rest nk) as Hlast.
      { rewrite <- (last_cons_default nk nk rest), Heq. by rewrite last_app_cons. }
      assert (∀ k', k' ∈ nk' :: rest' → k' ∈ nk :: rest) as Hsub.
      { intros k' Hk'. rewrite Heq. apply elem_of_app. by right. }
      unfold forEachDbEntry_step. rewrite Hrun. cbn [mbind result_mbind result_bind].
      destruct (key_eqb nk' k) eqn:Heqb.
      * apply key_eqb_eq in Heqb. subst nk'.
        assert (lookup_each (nk :: rest) acc
                = lookup_each rest' (callback k (Some v) (lookup_each pre acc))) as ->.
        { rewrite Heq. unfold lookup_each. rewrite foldl_app. simpl. by rewrite Hkv. }
        destruct rest' as [|k2 rest''].
        -- done.
        -- apply IH; auto.
           ++ by apply StronglySorted_inv in Hkeys' as [? _].
           ++ rewrite last_cons_default in Hlast. by rewrite Hlast.
           ++ intros k' v' Hk' E. apply Hahead; [|done|].
              ** apply StronglySorted_inv in Hkeys' as [Hs' Hall'].
                 rewrite Forall_forall in Hall'. by apply Hall'.
              ** apply Hsub. by apply elem_of_cons; right.
      * assert (lookup_each (nk :: rest) acc
                = lookup_each (nk' :: rest') (lookup_each pre acc)) as ->.
        { rewrite Heq. unfold lookup_each. by rewrite foldl_app. }
        apply IH; auto.
        -- by rewrite Hlast.
        -- intros k' v' Hk' E. apply Hahead; [|done|by apply Hsub].
           eapply key_ltb_leb_trans; [|by eapply sorted_keys_head_le].
           destruct (key_trichotomy k nk') as [?|[->|Hlt]]; [done|..].
           ++ rewrite (proj2 (key_eqb_eq nk' nk') eq_refl) in Heqb. done.
           ++ congruence.
Qed.
End ForEachDbEntry.

Section CacheReads.
Context {DbRemoteDocument : Type}.
Variable serializer : LocalSerializer DbRemoteDocument.

Abbreviation Txn := (PersistenceTransaction DbRemoteDocument).

(** [forEachDbEntry] never fails, and calls back once for every key of
    the set, in key order, with the record stored under the key or with
    [null]. *)
Lemma forEachDbEntry_spec {A : Type} (transaction : Txn)
    (documentKeys : gset DocumentKey)
    (callback : DocumentKey → option DbRemoteDocument → A → A) (acc : A) :
  forEachDbEntry transaction documentKeys callback acc
  = Ok (lookup_each callback (remoteDocuments transaction)
          (getIterator documentKeys) acc).
Proof.
  unfold forEachDbEntry.
  pose proof (getIterator_sorted documentKeys) as Hsorted.
  destruct (getIterator documentKeys) as [|first keyIter]; [done|].
  apply (forEachDbEntry_walk callback (remoteDocuments transaction)); auto.
  - apply StronglySorted_filter_cursor, cursor_records_sorted.
  - apply Forall_forall. intros [ik [k v]] [Hrange Hin]%list_elem_of_filter.
    apply elem_of_cursor_records in Hin as [Hkv Hik].
    unfold primaryKey in Hik. simplify_eq. simpl in *.
    split; [done|]. split; [done|].
    unfold IDBKeyRange_includes in Hrange. simpl in Hrange.
    unfold dbKey in Hrange. by apply andb_true_iff in Hrange as [_ ?].
  - intros k v Hk Hkv. apply list_elem_of_filter. split.
    + unfold IDBKeyRange_includes, dbKey. simpl. apply andb_true_iff. split.
      * by eapply sorted_keys_head_le.
      * pose proof (last_sorted_max first keyIter Hsorted) as Hmax.
        rewrite Forall_forall in Hmax. by apply Hmax.
    + by apply elem_of_cursor_records.
Qed.

(** [getEntries] agrees with [getEntry] on every key of the set and has
    no other entry. *)
Lemma getEntries_spec (transaction : Txn) (documentKeys : gset DocumentKey) :
  ∃ results, getEntries serializer transaction documentKeys = Ok results ∧
    ∀ k, results !! k
         = if decide (k ∈ documentKeys)
           then Some (getEntry serializer transaction k) else None.
Proof.
  unfold getEntries. rewrite forEachDbEntry_spec. eexists. split; [done|].
  intros k. unfold lookup_each.
  pose (f := λ k : DocumentKey,
          (k, maybeDecodeDocument serializer k (remoteDocuments transaction !! k))).
  change (foldl _ ∅ (getIterator documentKeys))
    with (foldl (λ (m : gmap DocumentKey MutableDocument) e, <[(f e).1 := (f e).2]> m)
            ∅ (getIterator documentKeys)).
  assert ((λ e, (f e).1) <$> getIterator documentKeys = getIterator documentKeys) as Hids.
  { clear. induction (getIterator documentKeys); [done|]. simpl. by f_equal. }
  destruct (decide (k ∈ documentKeys)) as [Hin|Hnotin].
  - apply (foldl_insert_lookup_in f _ ∅ k).
    + rewrite Hids. apply getIterator_NoDup.
    + by apply elem_of_getIterator.
  - rewrite foldl_insert_lookup_notin; [done|].
    rewrite Hids. by rewrite elem_of_getIterator.
Qed.

Lemma getSizedEntries_spec (transaction : Txn) (documentKeys : gset DocumentKey) :
  ∃ results sizeMap,
    getSizedEntries serializer transaction documentKeys = Ok (results, sizeMap) ∧
    getEntries serializer transaction documentKeys = Ok results ∧
    ∀ k, sizeMap !! k
         = if decide (k ∈ documentKeys)
           then Some (dbDocumentSize serializer (remoteDocuments transaction !! k))
           else None.
Proof.
  unfold getSizedEntries, getEntries. rewrite !forEachDbEntry_spec.
  unfold lookup_each.
  pose (g := λ k : DocumentKey,
          (k, dbDocumentSize serializer (remoteDocuments transaction !! k))).
  exists (foldl (λ acc k, <[k := maybeDecodeDocument serializer k
                                    (remoteDocuments transaction !! k)]> acc)
                ∅ (getIterator documentKeys)),
         (foldl (λ (m : gmap DocumentKey Z) e, <[(g e).1 := (g e).2]> m)
                ∅ (getIterator documentKeys)).
  split; [|split; [done|]].
  - f_equal. generalize (∅ : gmap DocumentKey MutableDocument).
    generalize (∅ : gmap DocumentKey Z).
    induction (getIterator documentKeys) as [|k l IH]; intros m1 m2; [done|].
    simpl. apply IH.
  - intros k.
    assert ((λ e, (g e).1) <$> getIterator documentKeys = getIterator documentKeys) as Hids.
    { clear. induction (getIterator documentKeys); [done|]. simpl. by f_equal. }
    destruct (decide (k ∈ documentKeys)) as [Hin|Hnotin].
    + apply (foldl_insert_lookup_in g _ ∅ k).
      * rewrite Hids. apply getIterator_NoDup.
      * by apply elem_of_getIterator.
    + rewrite foldl_insert_lookup_notin; [done|].
      rewrite Hids. by rewrite elem_of_getIterator.
Qed.
End CacheReads.

(** ** Scans of a collection *)

Lemma isPrefixOf_key_leb (collection k : list string) :
  isPrefixOf collection k = true → key_leb collection k = true.
Proof.
  revert k. induction collection as [|s c IH]; intros [|t k]; try done.
  simpl isPrefixOf. destruct (decide (s = t)) as [->|]; [|done].
  intros Hp. unfold key_leb. rewrite key_compare_cons, key_compare_refl.
  by apply IH.
Qed.

Lemma SnapshotVersion_isEqual_eq (a b : SnapshotVersion) :
  SnapshotVersion_isEqual a b = true ↔ a = b.
Proof.
  unfold SnapshotVersion_isEqual, SnapshotVersion_compareTo.
  destruct a as [s n], b as [s' n']; simpl. split.
  - destruct (Z.compare_spec s s'); try done.
    destruct (Z.compare_spec n n'); try done. by subst.
  - intros [= -> ->]. by rewrite !Z.compare_refl.
Qed.

Section Scans.
Context {DbRemoteDocument : Type}.
Variable serializer : LocalSerializer DbRemoteDocument.

Abbreviation Txn := (PersistenceTransaction DbRemoteDocument).

(** Every record decodes to a document with the key it is stored under. *)
Definition store_keyed (transaction : Txn) : Prop :=
  map_Forall (λ k r, key (fromDbRemoteDocument serializer r) = k)
             (remoteDocuments transaction).

(** Every record carries the parent path of the key it is stored under. *)
Definition store_indexed (transaction : Txn) : Prop :=
  map_Forall (λ k r, db_parentPath serializer r = popLast k)
             (remoteDocuments transaction).

Definition isImmediateChild (collection : ResourcePath) (k : DocumentKey) : bool :=
  (length k =? length collection + 1)%nat && isPrefixOf collection k.

(** One entry for every record stored under an immediate child of the
    collection, as [maybeDecodeDocument] reads it. *)
Definition immediateChildren (transaction : Txn) (collection : ResourcePath)
    : gmap DocumentKey MutableDocument :=
  map_imap (λ k r, if isImmediateChild collection k
                   then Some (maybeDecodeDocument serializer k (Some r))
                   else None)
           (remoteDocuments transaction).

Definition readAfter (sinceReadTime : SnapshotVersion) (r : DbRemoteDocument) : bool :=
  match db_readTime serializer r with
  | Some readTime => key_ltb (toDbTimestampKey sinceReadTime) readTime
  | None => false
  end.

(** The same, restricted to the records read after the given time. *)
Definition immediateChildrenSince (transaction : Txn) (collection : ResourcePath)
    (sinceReadTime : SnapshotVersion) : gmap DocumentKey MutableDocument :=
  map_imap (λ k r, if isImmediateChild collection k && readAfter sinceReadTime r
                   then Some (maybeDecodeDocument serializer k (Some r))
                   else None)
           (remoteDocuments transaction).

Lemma maybeDecodeDocument_key (k : DocumentKey) (r : DbRemoteDocument) :
  key (fromDbRemoteDocument serializer r) = k →
  key (maybeDecodeDocument serializer k (Some r)) = k.
Proof.
  intros Hk. unfold maybeDecodeDocument.
  by destruct (isSentinelRemoval (fromDbRemoteDocument serializer r)).
Qed.

Definition getAll_wanted {IK : Type} (collection : ResourcePath)
    (e : IK * (list string * DbRemoteDocument)) : bool :=
  (length e.2.1 =? length collection + 1)%nat
  && isPrefixOf collection (key (maybeDecodeDocument serializer e.2.1 (Some e.2.2))).

Definition getAll_update {IK : Type} (results : gmap DocumentKey MutableDocument)
    (e : IK * (list string * DbRemoteDocument)) : gmap DocumentKey MutableDocument :=
  let document := maybeDecodeDocument serializer e.2.1 (Some e.2.2) in
  <[key document := document]> results.

(** The cursor of [getAll] collects the wanted records, provided that
    none is left behind a record at which the callback is done. *)
Lemma getAll_walk `{IdbKey IK} (collection : ResourcePath)
    (records : list (IK * (list string * DbRemoteDocument))) :
  (∀ l1 e l2, records = l1 ++ e :: l2 →
     (length e.2.1 =? length collection + 1)%nat = true →
     getAll_wanted collection e = false →
     Forall (λ e', getAll_wanted collection e' = false) l2) →
  cursor_walk None records (getAll_callback serializer collection) ∅
  = Ok (foldl getAll_update ∅ (filter (λ e, getAll_wanted collection e = true) records)).
Proof.
  intros Hdone. apply cursor_walk_scan.
  - intros ik k v s _. unfold getAll_wanted, getAll_callback. cbn [fst snd].
    intros [-> ->]%andb_true_iff. done.
  - intros ik k v s _. unfold getAll_wanted, getAll_callback. cbn [fst snd].
    destruct (length k =? length collection + 1)%nat eqn:Hlen; cbn [negb andb];
      [|intros _; by left].
    intros Hw. rewrite Hw. right. split; [done|]. intros l1 l2 Heq.
    apply (Hdone l1 (ik, (k, v)) l2 Heq); [done|].
    unfold getAll_wanted. cbn [fst snd]. by rewrite Hlen, Hw.
Qed.

(** What the collected map holds, when the records of the cursor are the
    records of the store that satisfy [inRange]. *)
Lemma getAll_lookup {IK : Type} (transaction : Txn) (collection : ResourcePath)
    (records : list (IK * (list string * DbRemoteDocument)))
    (inRange : list string → DbRemoteDocument → bool) :
  store_keyed transaction →
  NoDup ((λ e, e.2.1) <$> records) →
  (∀ ik k v, (ik, (k, v)) ∈ records →
     remoteDocuments transaction !! k = Some v ∧ inRange k v = true) →
  (∀ k v, remoteDocuments transaction !! k = Some v → inRange k v = true →
     ∃ ik, (ik, (k, v)) ∈ records) →
  ∀ k, foldl getAll_update ∅
         (filter (λ e, getAll_wanted collection e = true) records) !! k
       = remoteDocuments transaction !! k ≫= λ v,
           if isImmediateChild collection k && inRange k v
           then Some (maybeDecodeDocument serializer k (Some v)) else None.
Proof.
  intros Hkeyed Hnd Hsound Hcomplete k.
  set (l := filter (λ e, getAll_wanted collection e = true) records).
  pose (f := λ e : IK * (list string * DbRemoteDocument),
          (key (maybeDecodeDocument serializer e.2.1 (Some e.2.2)),
           maybeDecodeDocument serializer e.2.1 (Some e.2.2))).
  change (foldl getAll_update ∅ l)
    with (foldl (λ (m : gmap DocumentKey MutableDocument) e, <[(f e).1 := (f e).2]> m) ∅ l).
  assert (∀ e, e ∈ records → (f e).1 = e.2.1) as Hf.
  { intros [ik [k' v']] Hin. simpl. apply maybeDecodeDocument_key.
    apply Hsound in Hin as [Hin _]. by apply (Hkeyed _ _ Hin). }
  assert ((λ e, (f e).1) <$> l = (λ e, e.2.1) <$> l) as Hkeys.
  { apply list_fmap_ext. intros i e Hin. apply Hf.
    apply list_elem_of_lookup_2 in Hin. by apply list_elem_of_filter in Hin as [_ ?]. }
  assert (NoDup ((λ e, e.2.1) <$> l)) as Hndl.
  { eapply sublist_NoDup; [exact Hnd|]. apply fmap_sublist, sublist_filter. }
  destruct (remoteDocuments transaction !! k) as [v|] eqn:Hkv; simpl.
  - destruct (isImmediateChild collection k && inRange k v) eqn:Hc.
    + apply andb_true_iff in Hc as [Hchild Hrange].
      destruct (Hcomplete k v Hkv Hrange) as [ik Hin].
      assert ((ik, (k, v)) ∈ l) as Hinl.
      { apply list_elem_of_filter. split; [|done].
        unfold getAll_wanted. cbn [fst snd].
        rewrite maybeDecodeDocument_key; [done|]. by apply (Hkeyed _ _ Hkv). }
      pose proof (foldl_insert_lookup_in f l ∅ (ik, (k, v))) as Hl.
      rewrite Hkeys in Hl. specialize (Hl Hndl Hinl).
      rewrite (Hf _ Hin) in Hl. exact Hl.
    + rewrite (foldl_insert_lookup_notin f); [done|]. rewrite Hkeys.
      intros Hin. apply list_elem_of_fmap in Hin as [[ik [k' v']] [-> Hin]].
      apply list_elem_of_filter in Hin as [Hw Hin]. cbn [fst snd] in *.
      destruct (Hsound _ _ _ Hin) as [Hkv' Hrange]. simplify_eq.
      unfold getAll_wanted in Hw. cbn [fst snd] in Hw.
      rewrite maybeDecodeDocument_key in Hw by by apply (Hkeyed _ _ Hkv).
      unfold isImmediateChild in Hc. rewrite Hw, Hrange in Hc. done.
  - rewrite (foldl_insert_lookup_notin f); [done|]. rewrite Hkeys.
    intros Hin. apply list_elem_of_fmap in Hin as [[ik [k' v']] [-> Hin]].
    apply list_elem_of_filter in Hin as [_ Hin]. simpl in *.
    destruct (Hsound _ _ _ Hin) as [Hkv' _]. congruence.
Qed.
End Scans.

Section GetAll.
Context {DbRemoteDocument : Type}.
Variable serializer : LocalSerializer DbRemoteDocument.

Abbreviation Txn := (PersistenceTransaction DbRemoteDocument).

Lemma getAll_wanted_keyed {IK : Type} (transaction : Txn) (collection : ResourcePath)
    (ik : IK) (k : list string) (v : DbRemoteDocument) :
  store_keyed serializer transaction →
  remoteDocuments transaction !! k = Some v →
  getAll_wanted serializer collection (ik, (k, v)) = isImmediateChild collection k.
Proof.
  intros Hkeyed Hkv. unfold getAll_wanted, isImmediateChild. cbn [fst snd].
  rewrite maybeDecodeDocument_key; [done|]. by apply (Hkeyed _ _ Hkv).
Qed.

(** With the minimum read time [getAll] is a prefix scan of the store. *)
Lemma getAll_prefix_scan (transaction : Txn) (collection : ResourcePath) :
  store_keyed serializer transaction →
  getAll serializer transaction collection SnapshotVersion_min
  = Ok (immediateChildren serializer transaction collection).
Proof.
  intros Hkeyed. unfold getAll.
  rewrite (proj2 (SnapshotVersion_isEqual_eq _ _) eq_refl).
  unfold SimpleDbStore_iterate.
  set (records := filter _ (cursor_records primaryKey (remoteDocuments transaction))).
  assert (∀ ik k v, (ik, (k, v)) ∈ records →
            ik = k ∧ remoteDocuments transaction !! k = Some v
            ∧ key_leb collection k = true) as Hsound.
  { intros ik k v [Hrange Hin]%list_elem_of_filter.
    apply elem_of_cursor_records in Hin as [Hkv Hik].
    unfold primaryKey in Hik. simplify_eq.
    unfold IDBKeyRange_includes in Hrange. simpl in Hrange.
    rewrite andb_true_r in Hrange. done. }
  rewrite getAll_walk.
  - f_equal. apply map_eq. intros k.
    rewrite (getAll_lookup serializer transaction collection records
               (λ k _, key_leb collection k)); try done.
    + unfold immediateChildren. rewrite map_lookup_imap.
      destruct (remoteDocuments transaction !! k) as [v|]; [simpl|done].
      destruct (isImmediateChild collection k) eqn:Hc; [|done].
      unfold isImmediateChild in Hc. apply andb_true_iff in Hc as [_ Hp].
      by rewrite (isPrefixOf_key_leb _ _ Hp).
    + eapply sublist_NoDup;
        [apply (cursor_records_NoDup primaryKey (remoteDocuments transaction))|].
      apply fmap_sublist, sublist_filter.
    + intros ik k' v' Hin. by apply Hsound in Hin as (_ & ? & ?).
    + intros k' v' Hkv Hrange. exists k'. apply list_elem_of_filter. split.
      * unfold IDBKeyRange_includes. simpl. by rewrite andb_true_r.
      * by apply elem_of_cursor_records.
  - intros l1 [ik [k v]] l2 Heq Hlen Hw.
    assert ((ik, (k, v)) ∈ records) as Hin.
    { rewrite Heq. apply elem_of_app. right. by apply elem_of_cons; left. }
    destruct (Hsound _ _ _ Hin) as (-> & Hkv & Hge).
    rewrite (getAll_wanted_keyed transaction) in Hw by done.
    unfold isImmediateChild in Hw. cbn [fst snd] in Hlen. rewrite Hlen in Hw.
    simpl in Hw.
    assert (StronglySorted cursor_le records) as Hsorted.
    { apply StronglySorted_filter_cursor, cursor_records_sorted. }
    rewrite Heq in Hsorted. apply StronglySorted_app_1_r in Hsorted.
    apply StronglySorted_inv in Hsorted as [_ Hafter].
    rewrite Forall_forall in *. intros [ik' [k' v']] Hin'.
    specialize (Hafter _ Hin'). apply key_leb_pair_fst in Hafter.
    assert ((ik', (k', v')) ∈ records) as Hin2.
    { rewrite Heq. apply elem_of_app. right. by apply elem_of_cons; right. }
    destruct (Hsound _ _ _ Hin2) as (-> & Hkv' & _).
    rewrite (getAll_wanted_keyed transaction) by done.
    unfold isImmediateChild. cbn [fst] in Hafter.
    rewrite (isPrefixOf_past collection k k'); [|done..]. apply andb_false_r.
Qed.

(** With any other read time it is a scan of the collection index from
    the read time on, the read time itself left out. *)
Lemma getAll_index_scan (transaction : Txn) (collection : ResourcePath)
    (sinceReadTime : SnapshotVersion) :
  store_keyed serializer transaction →
  store_indexed serializer transaction →
  SnapshotVersion_isEqual sinceReadTime SnapshotVersion_min = false →
  getAll serializer transaction collection sinceReadTime
  = Ok (immediateChildrenSince serializer transaction collection sinceReadTime).
Proof.
  intros Hkeyed Hindexed Hsince. unfold getAll. rewrite Hsince.
  unfold SimpleDbStore_iterate.
  set (records := filter _ (cursor_records
                    (DbRemoteDocumentCollectionReadTimeIndex serializer)
                    (remoteDocuments transaction))).
  pose (inRange := λ (_ : list string) (v : DbRemoteDocument),
          match db_readTime serializer v with
          | Some rt => key_ltb (collection, toDbTimestampKey sinceReadTime)
                               (db_parentPath serializer v, rt)
          | None => false
          end).
  assert (∀ ik k v, (ik, (k, v)) ∈ records →
            remoteDocuments transaction !! k = Some v ∧
            ∃ rt, db_readTime serializer v = Some rt ∧ ik = (popLast k, rt) ∧
                  key_ltb (collection, toDbTimestampKey sinceReadTime) ik = true)
    as Hsound.
  { intros ik k v [Hrange Hin]%list_elem_of_filter.
    apply elem_of_cursor_records in Hin as [Hkv Hik].
    unfold DbRemoteDocumentCollectionReadTimeIndex in Hik.
    destruct (db_readTime serializer v) as [rt|] eqn:Hrt; simplify_eq/=.
    split; [done|]. exists rt. rewrite <- (Hindexed _ _ Hkv).
    unfold IDBKeyRange_includes in Hrange. simpl in Hrange.
    rewrite andb_true_r in Hrange. done. }
  rewrite getAll_walk.
  - f_equal. apply map_eq. intros k.
    rewrite (getAll_lookup serializer transaction collection records inRange);
      try done.
    + unfold immediateChildrenSince. rewrite map_lookup_imap.
      destruct (remoteDocuments transaction !! k) as [v|] eqn:Hkv; [simpl|done].
      destruct (isImmediateChild collection k) eqn:Hc; [|done]. simpl.
      unfold isImmediateChild in Hc. apply andb_true_iff in Hc as [Hlen Hp].
      apply Nat.eqb_eq in Hlen.
      destruct (proj1 (immediate_child_popLast collection k) (conj Hlen Hp)) as [Hpop _].
      unfold inRange, readAfter. rewrite (Hindexed _ _ Hkv), Hpop.
      destruct (db_readTime serializer v) as [rt|]; [|done].
      assert (key_ltb (collection, toDbTimestampKey sinceReadTime) (collection, rt)
              = key_ltb (toDbTimestampKey sinceReadTime) rt) as ->; [|done].
      unfold key_ltb at 1. by rewrite key_compare_pair, key_compare_refl.
    + eapply sublist_NoDup;
        [apply (cursor_records_NoDup
                  (DbRemoteDocumentCollectionReadTimeIndex serializer)
                  (remoteDocuments transaction))|].
      apply fmap_sublist, sublist_filter.
    + intros ik k' v' Hin. apply Hsound in Hin as (Hkv & rt & Hrt & -> & Hlt).
      split; [done|]. unfold inRange. by rewrite Hrt, (Hindexed _ _ Hkv).
    + intros k' v' Hkv Hrange. unfold inRange in Hrange.
      destruct (db_readTime serializer v') as [rt|] eqn:Hrt; [|done].
      exists (db_parentPath serializer v', rt). apply list_elem_of_filter. split.
      * unfold IDBKeyRange_includes. simpl. by rewrite andb_true_r.
      * apply elem_of_cursor_records. split; [done|].
        unfold DbRemoteDocumentCollectionReadTimeIndex. by rewrite Hrt.
  - intros l1 [ik [k v]] l2 Heq Hlen Hw.
    assert ((ik, (k, v)) ∈ records) as Hin.
    { rewrite Heq. apply elem_of_app. right. by apply elem_of_cons; left. }
    destruct (Hsound _ _ _ Hin) as (Hkv & rt & Hrt & -> & Hlt).
    rewrite (getAll_wanted_keyed transaction) in Hw by done.
    unfold isImmediateChild in Hw. cbn [fst snd] in Hlen. rewrite Hlen in Hw.
    simpl in Hw. apply Nat.eqb_eq in Hlen.
    (* the parent of the record is past the collection *)
    assert (key_ltb collection (popLast k) = true) as Hpast.
    { apply key_ltb_pair in Hlt as [?|[Hpop _]]; [done|].
      assert (k ≠ []) as Hne by (intros ->; simpl in Hlen; lia).
      destruct (proj2 (immediate_child_popLast collection k)) as [_ Hp]; [done|].
      congruence. }
    assert (StronglySorted cursor_le records) as Hsorted.
    { apply StronglySorted_filter_cursor, cursor_records_sorted. }
    rewrite Heq in Hsorted. apply StronglySorted_app_1_r in Hsorted.
    apply StronglySorted_inv in Hsorted as [_ Hafter].
    rewrite Forall_forall in *. intros [ik' [k' v']] Hin'.
    specialize (Hafter _ Hin'). apply key_leb_pair_fst in Hafter.
    assert ((ik', (k', v')) ∈ records) as Hin2.
    { rewrite Heq. apply elem_of_app. right. by apply elem_of_cons; right. }
    destruct (Hsound _ _ _ Hin2) as (Hkv' & rt' & Hrt' & -> & _).
    cbn [fst] in Hafter. apply key_leb_pair_fst in Hafter.
    rewrite (getAll_wanted_keyed transaction) by done.
    destruct (isImmediateChild collection k') eqn:Hc; [|done].
    unfold isImmediateChild in Hc. apply andb_true_iff in Hc as [Hlen' Hp'].
    apply Nat.eqb_eq in Hlen'.
    destruct (proj1 (immediate_child_popLast collection k') (conj Hlen' Hp')) as [Hpop _].
    rewrite Hpop in Hafter.
    pose proof (key_ltb_leb_trans _ _ _ Hpast Hafter) as Hcc.
    by rewrite key_ltb_irrefl in Hcc.
Qed.
End GetAll.

(** ** The change feed *)

Lemma fromDbTimestampKey_toDbTimestampKey (v : SnapshotVersion) :
  fromDbTimestampKey (toDbTimestampKey v) = v.
Proof. by destruct v. Qed.

Lemma toDbTimestampKey_fromDbTimestampKey (k : Z * Z) :
  toDbTimestampKey (fromDbTimestampKey k) = k.
Proof. by destruct k. Qed.

(** The order of the keys of the read time index is the order of the
    versions. *)
Lemma key_compare_toDbTimestampKey (a b : SnapshotVersion) :
  key_compare (toDbTimestampKey a) (toDbTimestampKey b) = SnapshotVersion_compareTo a b.
Proof. done. Qed.

Lemma StronglySorted_weaken {A} (R1 R2 : relation A) (l : list A) :
  (∀ x y, R1 x y → R2 x y) → StronglySorted R1 l → StronglySorted R2 l.
Proof.
  intros Himpl. induction 1 as [|x l Hl IH Hall]; constructor; [done|].
  eapply Forall_impl; [exact Hall|]. intros y. apply Himpl.
Qed.

Section ChangeFeed.
Context {DbRemoteDocument : Type}.
Variable serializer : LocalSerializer DbRemoteDocument.

Abbreviation Txn := (PersistenceTransaction DbRemoteDocument).
Abbreviation FeedRecord := (DbTimestampKey * (list string * DbRemoteDocument))%type.

(** The records the cursor of the change feed visits, in its order. *)
Definition changeFeed_visits (transaction : Txn) (sinceReadTime : SnapshotVersion)
    : list FeedRecord :=
  filter (λ e, IDBKeyRange_includes
                 (IDBKeyRange_lowerBound (toDbTimestampKey sinceReadTime) true) e.1 = true)
         (cursor_records (DbRemoteDocumentReadTimeIndex serializer)
                         (remoteDocuments transaction)).

(** The documents stored with a read time after the given one, sentinel
    deletes included, each as the serializer decodes it. *)
Definition changedSince (transaction : Txn) (sinceReadTime : SnapshotVersion)
    : gmap DocumentKey MutableDocument :=
  map_imap (λ _ r, if readAfter serializer sinceReadTime r
                   then Some (fromDbRemoteDocument serializer r) else None)
           (remoteDocuments transaction).

Definition changeFeed_update
    (st : gmap DocumentKey MutableDocument * DbTimestampKey) (e : FeedRecord)
    : gmap DocumentKey MutableDocument * DbTimestampKey :=
  (<[key (fromDbRemoteDocument serializer e.2.2) := fromDbRemoteDocument serializer e.2.2]> st.1,
   e.1).

Lemma elem_of_changeFeed_visits (transaction : Txn) (sinceReadTime : SnapshotVersion)
    (rt : DbTimestampKey) (k : list string) (v : DbRemoteDocument) :
  (rt, (k, v)) ∈ changeFeed_visits transaction sinceReadTime ↔
  remoteDocuments transaction !! k = Some v ∧ db_readTime serializer v = Some rt
  ∧ key_ltb (toDbTimestampKey sinceReadTime) rt = true.
Proof.
  unfold changeFeed_visits. rewrite list_elem_of_filter, elem_of_cursor_records.
  unfold IDBKeyRange_includes, DbRemoteDocumentReadTimeIndex. simpl.
  rewrite andb_true_r. split.
  - by intros [? [? ?]].
  - by intros (? & ? & ?).
Qed.

Lemma changeFeed_visits_sorted (transaction : Txn) (sinceReadTime : SnapshotVersion) :
  StronglySorted (λ e1 e2 : FeedRecord, key_leb e1.1 e2.1 = true)
                 (changeFeed_visits transaction sinceReadTime).
Proof.
  unfold changeFeed_visits.
  eapply (StronglySorted_weaken cursor_le).
  - intros [rt [k v]] [rt' [k' v']] Hle. by apply key_leb_pair_fst in Hle.
  - apply StronglySorted_filter_cursor, cursor_records_sorted.
Qed.

Lemma changeFeed_walk (transaction : Txn) (sinceReadTime : SnapshotVersion) :
  SimpleDbStore_iterate (DbRemoteDocumentReadTimeIndex serializer)
    (Some (IDBKeyRange_lowerBound (toDbTimestampKey sinceReadTime) true))
    (remoteDocuments transaction) (getNewDocumentChanges_callback serializer)
    (∅, toDbTimestampKey sinceReadTime)
  = Ok (foldl changeFeed_update (∅, toDbTimestampKey sinceReadTime)
          (changeFeed_visits transaction sinceReadTime)).
Proof.
  unfold SimpleDbStore_iterate. fold (changeFeed_visits transaction sinceReadTime).
  rewrite (cursor_walk_scan _ (λ _, true) changeFeed_update).
  - f_equal. f_equal. induction (changeFeed_visits _ _) as [|e l IH]; [done|].
    rewrite filter_cons, decide_True by done. by f_equal.
  - intros rt k v [m lastReadTime] Hin _.
    apply elem_of_changeFeed_visits in Hin as (_ & Hrt & _).
    unfold getNewDocumentChanges_callback. by rewrite Hrt.
  - done.
Qed.

Lemma changeFeed_fold_docs (l : list FeedRecord)
    (st : gmap DocumentKey MutableDocument * DbTimestampKey) :
  (foldl changeFeed_update st l).1
  = foldl (λ (m : gmap DocumentKey MutableDocument) (e : FeedRecord),
             <[key (fromDbRemoteDocument serializer e.2.2)
               := fromDbRemoteDocument serializer e.2.2]> m) st.1 l.
Proof. revert st. induction l as [|e l IH]; intros st; [done|]. simpl. by rewrite IH. Qed.

(** The last read time of a walk in read time order is the largest. *)
Lemma changeFeed_fold_last (l : list FeedRecord)
    (m : gmap DocumentKey MutableDocument) (start : DbTimestampKey) :
  StronglySorted (λ e1 e2 : FeedRecord, key_leb e1.1 e2.1 = true) l →
  Forall (λ e, key_leb start e.1 = true) l →
  let last := (foldl changeFeed_update (m, start) l).2 in
  key_leb start last = true ∧
  Forall (λ e, key_leb e.1 last = true) l ∧
  (l = [] ∧ last = start ∨ ∃ e, e ∈ l ∧ e.1 = last).
Proof.
  revert m start. induction l as [|e l IH]; intros m start Hsorted Hstart.
  - simpl. split; [apply key_leb_refl|]. split; [constructor|]. by left.
  - apply StronglySorted_inv in Hsorted as [Hsorted Hhead].
    apply Forall_cons in Hstart as [Hse Hstart]. simpl.
    destruct (IH (<[key (fromDbRemoteDocument serializer e.2.2)
                    := fromDbRemoteDocument serializer e.2.2]> m) e.1 Hsorted Hhead)
      as (Hle & Hall & Hatt).
    split; [by eapply key_leb_trans|]. split; [by constructor|].
    right. destruct Hatt as [[-> Hl]|[e' [Hin He']]].
    + exists e. split; [by apply elem_of_cons; left|done].
    + exists e'. split; [by apply elem_of_cons; right|done].
Qed.

(** The change feed: every document stored with a read time after the
    bound, under its own key, and the largest read time met (the bound
    itself when there is none). *)
Lemma getNewDocumentChanges_spec (transaction : Txn) (sinceReadTime : SnapshotVersion) :
  store_keyed serializer transaction →
  ∃ readTime,
    remoteDocumentCacheGetNewDocumentChanges serializer transaction sinceReadTime
    = Ok (changedSince transaction sinceReadTime, readTime) ∧
    key_leb (toDbTimestampKey sinceReadTime) (toDbTimestampKey readTime) = true ∧
    (∀ k r, remoteDocuments transaction !! k = Some r →
       readAfter serializer sinceReadTime r = true →
       ∃ rt, db_readTime serializer r = Some rt
             ∧ key_leb rt (toDbTimestampKey readTime) = true) ∧
    (readTime = sinceReadTime ∧ changedSince transaction sinceReadTime = ∅
     ∨ ∃ k r, remoteDocuments transaction !! k = Some r ∧
              readAfter serializer sinceReadTime r = true ∧
              db_readTime serializer r = Some (toDbTimestampKey readTime)).
Proof.
  intros Hkeyed. unfold remoteDocumentCacheGetNewDocumentChanges.
  rewrite changeFeed_walk.
  set (visits := changeFeed_visits transaction sinceReadTime).
  set (start := toDbTimestampKey sinceReadTime).
  destruct (foldl changeFeed_update (∅, start) visits) as [changedDocs last] eqn:Hfold.
  cbn [mbind result_mbind result_bind mret result_ret].
  exists (fromDbTimestampKey last). rewrite toDbTimestampKey_fromDbTimestampKey.
  assert (changedDocs = changedSince transaction sinceReadTime) as ->.
  { apply map_eq. intros k.
    pose proof (changeFeed_fold_docs visits (∅, start)) as Hdocs.
    rewrite Hfold in Hdocs. simpl in Hdocs. rewrite Hdocs.
    pose (f := λ e : FeedRecord,
            (key (fromDbRemoteDocument serializer e.2.2),
             fromDbRemoteDocument serializer e.2.2)).
    change (foldl _ ∅ visits)
      with (foldl (λ (m : gmap DocumentKey MutableDocument) e,
                     <[(f e).1 := (f e).2]> m) ∅ visits).
    assert ((λ e, (f e).1) <$> visits = (λ e : FeedRecord, e.2.1) <$> visits) as Hkeys.
    { apply list_fmap_ext. intros i [rt [k' v']] Hin.
      apply list_elem_of_lookup_2, elem_of_changeFeed_visits in Hin as (Hkv & _).
      simpl. by apply (Hkeyed _ _ Hkv). }
    assert (NoDup ((λ e : FeedRecord, e.2.1) <$> visits)) as Hnd.
    { eapply sublist_NoDup;
        [apply (cursor_records_NoDup (DbRemoteDocumentReadTimeIndex serializer)
                  (remoteDocuments transaction))|].
      apply fmap_sublist, sublist_filter. }
    unfold changedSince. rewrite map_lookup_imap.
    destruct (remoteDocuments transaction !! k) as [v|] eqn:Hkv; simpl.
    - unfold readAfter. destruct (db_readTime serializer v) as [rt|] eqn:Hrt.
      + destruct (key_ltb (toDbTimestampKey sinceReadTime) rt) eqn:Hlt.
        * assert ((rt, (k, v)) ∈ visits) as Hin by by apply elem_of_changeFeed_visits.
          pose proof (foldl_insert_lookup_in f visits ∅ (rt, (k, v))) as Hl.
          rewrite Hkeys in Hl. specialize (Hl Hnd Hin). simpl in Hl.
          by rewrite (Hkeyed _ _ Hkv) in Hl.
        * rewrite (foldl_insert_lookup_notin f); [done|]. rewrite Hkeys.
          intros Hin. apply list_elem_of_fmap in Hin as [[rt' [k' v']] [-> Hin]].
          apply elem_of_changeFeed_visits in Hin as (Hkv' & Hrt' & Hlt').
          simpl in *. congruence.
      + rewrite (foldl_insert_lookup_notin f); [done|]. rewrite Hkeys.
        intros Hin. apply list_elem_of_fmap in Hin as [[rt' [k' v']] [-> Hin]].
        apply elem_of_changeFeed_visits in Hin as (Hkv' & Hrt' & Hlt').
        simpl in *. congruence.
    - rewrite (foldl_insert_lookup_notin f); [done|]. rewrite Hkeys.
      intros Hin. apply list_elem_of_fmap in Hin as [[rt' [k' v']] [-> Hin]].
      apply elem_of_changeFeed_visits in Hin as (Hkv' & _). simpl in *. congruence. }
  split; [done|].
  destruct (changeFeed_fold_last visits ∅ start) as (Hle & Hall & Hatt).
  { apply changeFeed_visits_sorted. }
  { apply Forall_forall. intros [rt [k v]] Hin.
    apply elem_of_changeFeed_visits in Hin as (_ & _ & Hlt). by apply key_ltb_leb. }
  rewrite Hfold in Hle, Hall, Hatt. simpl in Hle, Hall, Hatt.
  split; [done|]. split.
  - intros k r Hkv Hafter. unfold readAfter in Hafter.
    destruct (db_readTime serializer r) as [rt|] eqn:Hrt; [|done].
    exists rt. split; [done|]. rewrite Forall_forall in Hall.
    apply (Hall (rt, (k, r))). by apply elem_of_changeFeed_visits.
  - destruct Hatt as [[Hnil ->]|[[rt [k v]] [Hin Hlast]]].
    + left. split; [apply fromDbTimestampKey_toDbTimestampKey|].
      apply map_eq. intros k. rewrite lookup_empty.
      unfold changedSince. rewrite map_lookup_imap.
      destruct (remoteDocuments transaction !! k) as [v|] eqn:Hkv; [simpl|done].
      unfold readAfter. destruct (db_readTime serializer v) as [rt|] eqn:Hrt; [|done].
      destruct (key_ltb (toDbTimestampKey sinceReadTime) rt) eqn:Hlt; [|done].
      assert ((rt, (k, v)) ∈ visits) as Hin by by apply elem_of_changeFeed_visits.
      rewrite Hnil in Hin. by apply elem_of_nil in Hin.
    + right. apply elem_of_changeFeed_visits in Hin as (Hkv & Hrt & Hlt).
      simpl in Hlast. subst last. exists k, v. split; [done|].
      unfold readAfter. rewrite Hrt. done.
Qed.
End ChangeFeed.

(** ** Applying a change buffer *)

Definition sumZ (l : list Z) : Z := foldr Z.add 0 l.

Definition notReadMessage (key : DocumentKey) : string :=
  "Cannot modify a document that wasn't read (for " +:+ canonicalString key +:+ ")".

Definition zeroReadTimeMessage : string :=
  "Cannot add a document with a read time of zero".

Definition missingMetadataMessage : string := "Missing document cache metadata".

Section ApplyChanges.
Context {DbRemoteDocument : Type}.
Variable serializer : LocalSerializer DbRemoteDocument.

Abbreviation Txn := (PersistenceTransaction DbRemoteDocument).
Abbreviation Buffer := IndexedDbRemoteDocumentChangeBuffer.
Abbreviation Staged := (DocumentKey * MutableDocument)%type.

(** The record a staged change leaves under its key, if any. *)
Definition staged_record (buffer : Buffer) (documentChange : MutableDocument)
    : option DbRemoteDocument :=
  if isValidDocument documentChange
  then Some (toDbRemoteDocument serializer documentChange)
  else if trackRemovals buffer
       then Some (toDbRemoteDocument serializer
                    (convertToNoDocument documentChange SnapshotVersion_min))
       else None.

Definition staged_promise (buffer : Buffer) (kd : Staged)
    : PersistencePromise DbRemoteDocument :=
  match staged_record buffer kd.2 with
  | Some doc => Promise_addEntry kd.1 doc
  | None => Promise_removeEntry kd.1
  end.

(** What a staged change adds to [sizeDelta]. *)
Definition staged_delta (buffer : Buffer) (kd : Staged) : Z :=
  (if isValidDocument kd.2
   then dbDocumentSize serializer (Some (toDbRemoteDocument serializer kd.2))
   else 0)
  - default 0 (documentSizes buffer !! kd.1).

Definition staged_parents (l : list Staged) (parents : list ResourcePath)
    : list ResourcePath :=
  foldl (λ parents kd, if isValidDocument kd.2
                       then SortedSet_add (popLast kd.1) parents else parents)
        parents l.

(** The two assertions of the loop hold for a staged change. *)
Definition entry_ok (buffer : Buffer) (kd : Staged) : Prop :=
  is_Some (documentSizes buffer !! kd.1) ∧
  (isValidDocument kd.2 = true →
   SnapshotVersion_isEqual (readTime kd.2) SnapshotVersion_min = false).

#[local] Instance entry_ok_dec buffer kd : Decision (entry_ok buffer kd).
Proof. unfold entry_ok. apply _. Defined.

Lemma applyChanges_entry_ok (buffer : Buffer) (st : ApplyState DbRemoteDocument)
    (kd : Staged) :
  entry_ok buffer kd →
  applyChanges_entry serializer buffer st kd.1 kd.2
  = Ok {| sizeDelta := sizeDelta st + staged_delta buffer kd;
          collectionParents := staged_parents [kd] (collectionParents st);
          promises := promises st ++ [staged_promise buffer kd] |}.
Proof.
  intros [[previousSize Hsize] Hrt]. destruct kd as [k d]. simpl in *.
  unfold applyChanges_entry, staged_delta, staged_promise, staged_record,
    staged_parents. simpl. rewrite Hsize. simpl.
  destruct (isValidDocument d).
  - rewrite Hrt by done. done.
  - destruct (trackRemovals buffer); do 2 f_equal; lia.
Qed.

Lemma applyChanges_entry_failed (buffer : Buffer) (st : ApplyState DbRemoteDocument)
    (kd : Staged) :
  ¬ entry_ok buffer kd →
  applyChanges_entry serializer buffer st kd.1 kd.2
  = AssertionFailed
      (match documentSizes buffer !! kd.1 with
       | None => notReadMessage kd.1
       | Some _ => zeroReadTimeMessage
       end).
Proof.
  intros Hnot. destruct kd as [k d]. unfold entry_ok in Hnot. simpl in *.
  unfold applyChanges_entry.
  destruct (documentSizes buffer !! k) as [previousSize|] eqn:Hsize; [|done].
  destruct (isValidDocument d) eqn:Hvalid.
  - destruct (SnapshotVersion_isEqual (readTime d) SnapshotVersion_min) eqn:Hrt;
      [done|]. exfalso. apply Hnot. eauto.
  - exfalso. apply Hnot. split; [eauto|done].
Qed.

Lemma applyChanges_forEach_ok (buffer : Buffer) (l : list Staged)
    (st : ApplyState DbRemoteDocument) :
  Forall (entry_ok buffer) l →
  applyChanges_forEach serializer buffer l st
  = Ok {| sizeDelta := sizeDelta st + sumZ (staged_delta buffer <$> l);
          collectionParents := staged_parents l (collectionParents st);
          promises := promises st ++ (staged_promise buffer <$> l) |}.
Proof.
  revert st. induction l as [|[k d] l IH]; intros st Hall.
  - simpl. rewrite Z.add_0_r, app_nil_r. by destruct st.
  - apply Forall_cons in Hall as [Hkd Hall]. cbn [applyChanges_forEach].
    pose proof (applyChanges_entry_ok buffer st (k, d) Hkd) as E.
    cbn [fst snd] in E. rewrite E.
    cbn [mbind result_mbind result_bind]. rewrite (IH _ Hall). simpl.
    f_equal. rewrite <- app_assoc. f_equal. symmetry. apply Z.add_assoc.
Qed.

(** The loop fails at the first staged change that breaks an assertion,
    with the message of that assertion. *)
Lemma applyChanges_forEach_failed (buffer : Buffer) (l1 l2 : list Staged)
    (kd : Staged) (st : ApplyState DbRemoteDocument) :
  Forall (entry_ok buffer) l1 → ¬ entry_ok buffer kd →
  applyChanges_forEach serializer buffer (l1 ++ kd :: l2) st
  = AssertionFailed
      (match documentSizes buffer !! kd.1 with
       | None => notReadMessage kd.1
       | Some _ => zeroReadTimeMessage
       end).
Proof.
  revert st. induction l1 as [|[k d] l1 IH]; intros st Hall Hnot.
  - destruct kd as [k d]. cbn [app applyChanges_forEach].
    pose proof (applyChanges_entry_failed buffer st (k, d) Hnot) as E.
    cbn [fst snd] in E. by rewrite E.
  - apply Forall_cons in Hall as [Hkd Hall]. cbn [app applyChanges_forEach].
    pose proof (applyChanges_entry_ok buffer st (k, d) Hkd) as E.
    cbn [fst snd] in E. rewrite E.
    cbn [mbind result_mbind result_bind]. by apply IH.
Qed.

Lemma Forall_or_first_failure (buffer : Buffer) (l : list Staged) :
  Forall (entry_ok buffer) l ∨
  ∃ l1 kd l2, l = l1 ++ kd :: l2 ∧ Forall (entry_ok buffer) l1 ∧ ¬ entry_ok buffer kd.
Proof.
  induction l as [|kd l IH]; [by left|].
  destruct (decide (entry_ok buffer kd)) as [Hok|Hnot].
  - destruct IH as [Hall|(l1 & kd' & l2 & -> & Hl1 & Hnot)].
    + left. by constructor.
    + right. exists (kd :: l1), kd', l2. split; [done|]. split; [by constructor|done].
  - right. exists [], kd, l. done.
Qed.

(** [applyChanges] gets past its loop exactly when the assertions hold
    for every staged change. *)
Lemma applyChanges_promises_Ok (buffer : Buffer) :
  Forall (entry_ok buffer) (map_to_list (changes buffer)) →
  applyChanges_promises serializer buffer
  = Ok ((staged_promise buffer <$> map_to_list (changes buffer))
        ++ (Promise_addToCollectionParentIndex
              <$> staged_parents (map_to_list (changes buffer)) [])
        ++ [Promise_updateMetadata
              (sumZ (staged_delta buffer <$> map_to_list (changes buffer)))]).
Proof.
  intros Hall. unfold applyChanges_promises.
  by rewrite (applyChanges_forEach_ok buffer _ _ Hall).
Qed.

Lemma applyChanges_promises_Ok_inv (buffer : Buffer)
    (ps : list (PersistencePromise DbRemoteDocument)) :
  applyChanges_promises serializer buffer = Ok ps →
  Forall (entry_ok buffer) (map_to_list (changes buffer)).
Proof.
  intros Hps.
  destruct (Forall_or_first_failure buffer (map_to_list (changes buffer)))
    as [Hall|(l1 & kd & l2 & Heq & Hl1 & Hnot)]; [done|].
  unfold applyChanges_promises in Hps.
  rewrite Heq, (applyChanges_forEach_failed buffer l1 l2 kd _ Hl1 Hnot) in Hps.
  done.
Qed.
End ApplyChanges.

Section Commit.
Context {DbRemoteDocument : Type}.
Variable serializer : LocalSerializer DbRemoteDocument.

Abbreviation Txn := (PersistenceTransaction DbRemoteDocument).
Abbreviation Buffer := IndexedDbRemoteDocumentChangeBuffer.
Abbreviation Staged := (DocumentKey * MutableDocument)%type.

Lemma waitFor_app (ps1 ps2 : list (PersistencePromise DbRemoteDocument)) (txn : Txn) :
  PersistencePromise_waitFor (ps1 ++ ps2) txn
  = PersistencePromise_waitFor ps1 txn ≫= PersistencePromise_waitFor ps2.
Proof.
  revert txn. induction ps1 as [|p ps1 IH]; intros txn; [done|]. simpl.
  destruct (PersistencePromise_run p txn) as [txn'|msg]; [|done].
  cbn [mbind result_mbind result_bind]. apply IH.
Qed.

(** The store after the document writes of a commit. *)
Definition staged_write (buffer : Buffer)
    (store : gmap (list string) DbRemoteDocument) (kd : Staged)
    : gmap (list string) DbRemoteDocument :=
  match staged_record serializer buffer kd.2 with
  | Some doc => <[kd.1 := doc]> store
  | None => delete kd.1 store
  end.

Lemma staged_promise_run (buffer : Buffer) (kd : Staged) (txn : Txn) :
  PersistencePromise_run (staged_promise serializer buffer kd) txn
  = Ok {| remoteDocuments := staged_write buffer (remoteDocuments txn) kd;
          remoteDocumentGlobal := remoteDocumentGlobal txn;
          collectionParentIndex := collectionParentIndex txn |}.
Proof.
  unfold staged_promise, staged_write.
  by destruct (staged_record serializer buffer kd.2).
Qed.

Lemma waitFor_writes (buffer : Buffer) (l : list Staged) (txn : Txn) :
  PersistencePromise_waitFor (staged_promise serializer buffer <$> l) txn
  = Ok {| remoteDocuments := foldl (staged_write buffer) (remoteDocuments txn) l;
          remoteDocumentGlobal := remoteDocumentGlobal txn;
          collectionParentIndex := collectionParentIndex txn |}.
Proof.
  revert txn. induction l as [|kd l IH]; intros txn; [by destruct txn|].
  rewrite fmap_cons. cbn [PersistencePromise_waitFor].
  rewrite staged_promise_run. cbn [mbind result_mbind result_bind].
  by rewrite IH.
Qed.

Lemma waitFor_notifications (parents : list ResourcePath) (txn : Txn) :
  PersistencePromise_waitFor (Promise_addToCollectionParentIndex <$> parents) txn
  = Ok {| remoteDocuments := remoteDocuments txn;
          remoteDocumentGlobal := remoteDocumentGlobal txn;
          collectionParentIndex := collectionParentIndex txn ++ parents |}.
Proof.
  revert txn. induction parents as [|p parents IH]; intros txn.
  - simpl. rewrite app_nil_r. by destruct txn.
  - rewrite fmap_cons. cbn [PersistencePromise_waitFor PersistencePromise_run
      mbind result_mbind result_bind]. rewrite IH. simpl.
    by rewrite <- app_assoc.
Qed.

(** A commit that gets past its assertions: the document writes, then the
    notifications, then the one update of the size counter. *)
Lemma applyChanges_Ok (buffer : Buffer) (txn : Txn) (metadata : DbRemoteDocumentGlobal) :
  Forall (entry_ok buffer) (map_to_list (changes buffer)) →
  remoteDocumentGlobal txn = Some metadata →
  applyChanges serializer buffer txn
  = Ok {| remoteDocuments :=
            foldl (staged_write buffer) (remoteDocuments txn)
                  (map_to_list (changes buffer));
          remoteDocumentGlobal :=
            Some {| byteSize :=
                      byteSize metadata
                      + sumZ (staged_delta serializer buffer
                                <$> map_to_list (changes buffer)) |};
          collectionParentIndex :=
            collectionParentIndex txn
            ++ staged_parents (map_to_list (changes buffer)) [] |}.
Proof.
  intros Hall Hmeta. unfold applyChanges.
  rewrite (applyChanges_promises_Ok serializer buffer Hall).
  cbn [mbind result_mbind result_bind].
  rewrite waitFor_app, waitFor_writes. cbn [mbind result_mbind result_bind].
  rewrite waitFor_app, waitFor_notifications. cbn [mbind result_mbind result_bind].
  cbn [PersistencePromise_waitFor PersistencePromise_run].
  unfold updateMetadata, getMetadata. simpl. rewrite Hmeta. done.
Qed.

Lemma applyChanges_Ok_inv (buffer : Buffer) (txn txn' : Txn) :
  applyChanges serializer buffer txn = Ok txn' →
  Forall (entry_ok buffer) (map_to_list (changes buffer)) ∧
  ∃ metadata, remoteDocumentGlobal txn = Some metadata.
Proof.
  intros Happly. unfold applyChanges in Happly.
  destruct (applyChanges_promises serializer buffer) as [ps|msg] eqn:Hps; [|done].
  pose proof (applyChanges_promises_Ok_inv serializer buffer ps Hps) as Hall.
  split; [done|].
  rewrite (applyChanges_promises_Ok serializer buffer Hall) in Hps.
  simplify_eq. cbn [mbind result_mbind result_bind] in Happly.
  rewrite waitFor_app, waitFor_writes in Happly.
  cbn [mbind result_mbind result_bind] in Happly.
  rewrite waitFor_app, waitFor_notifications in Happly.
  cbn [mbind result_mbind result_bind PersistencePromise_waitFor
       PersistencePromise_run] in Happly.
  unfold updateMetadata, getMetadata in Happly. simpl in Happly.
  destruct (remoteDocumentGlobal txn) as [metadata|]; [eauto|done].
Qed.

(** The store after the writes: a staged key holds what its change
    leaves, every other key is untouched. *)
Lemma staged_writes_lookup (buffer : Buffer) (l : list Staged)
    (store : gmap (list string) DbRemoteDocument) (k : list string) :
  NoDup l.*1 →
  foldl (staged_write buffer) store l !! k
  = match list_to_map (M := gmap DocumentKey MutableDocument) l !! k with
    | Some d => staged_record serializer buffer d
    | None => store !! k
    end.
Proof.
  revert store. induction l as [|[k' d] l IH]; intros store Hnd; [done|].
  rewrite fmap_cons in Hnd. apply NoDup_cons in Hnd as [Hk' Hnd].
  cbn [foldl list_to_map foldr]. rewrite IH by done.
  destruct (decide (k = k')) as [->|Hne].
  - rewrite lookup_insert_eq.
    rewrite (not_elem_of_list_to_map_1 _ k') by done.
    unfold staged_write. cbn [fst snd].
    destruct (staged_record serializer buffer d).
    + by rewrite lookup_insert_eq.
    + by rewrite lookup_delete_eq.
  - rewrite lookup_insert_ne by done.
    destruct (list_to_map l !! k) eqn:E; [done|].
    unfold staged_write. cbn [fst snd].
    destruct (staged_record serializer buffer d).
    + by rewrite lookup_insert_ne.
    + by rewrite lookup_delete_ne.
Qed.

Lemma applyChanges_store (buffer : Buffer) (txn txn' : Txn) (k : list string) :
  applyChanges serializer buffer txn = Ok txn' →
  remoteDocuments txn' !! k
  = match changes buffer !! k with
    | Some documentChange => staged_record serializer buffer documentChange
    | None => remoteDocuments txn !! k
    end.
Proof.
  intros Happly.
  destruct (applyChanges_Ok_inv buffer txn txn' Happly) as [Hall [metadata Hmeta]].
  rewrite (applyChanges_Ok buffer txn metadata Hall Hmeta) in Happly.
  simplify_eq. simpl.
  rewrite staged_writes_lookup by apply NoDup_fst_map_to_list.
  by rewrite list_to_map_to_list.
Qed.
End Commit.

(** ** The set of touched collection parents *)

(** A segment of a resource path is not empty and holds no slash: paths
    are built by splitting at slashes. *)
Fixpoint hasSlash (s : string) : bool :=
  match s with
  | EmptyString => false
  | String c s' => if Ascii.eqb c "/"%char then true else hasSlash s'
  end.

Definition validSegment (s : string) : Prop :=
  s ≠ EmptyString ∧ hasSlash s = false.

#[global] Instance validSegment_dec (s : string) : Decision (validSegment s).
Proof. unfold validSegment. apply _. Defined.

Lemma append_slash_inj (a b r s : string) :
  hasSlash a = false → hasSlash b = false →
  a +:+ "/" +:+ r = b +:+ "/" +:+ s → a = b ∧ r = s.
Proof.
  revert b. induction a as [|c a IH]; intros [|c' b] Ha Hb Heq; simpl in *.
  - by simplify_eq.
  - by simplify_eq.
  - by simplify_eq.
  - injection Heq as -> Heq.
    destruct (Ascii.eqb c' "/"); [done|].
    destruct (IH b Ha Hb Heq) as [-> ->]. done.
Qed.

Lemma append_slash_hasSlash (b s : string) : hasSlash (b +:+ "/" +:+ s) = true.
Proof.
  induction b as [|c b IH]; simpl; [done|]. by destruct (Ascii.eqb c "/").
Qed.

Lemma canonicalString_cons2 (x y : string) (p : list string) :
  canonicalString (x :: y :: p) = x +:+ "/" +:+ canonicalString (y :: p).
Proof. done. Qed.

Lemma canonicalString_singleton (x : string) : canonicalString [x] = x.
Proof. done. Qed.

Lemma append_empty_inv (a b : string) : a +:+ b = EmptyString → a = EmptyString.
Proof. by destruct a. Qed.

Lemma canonicalString_inj (p q : ResourcePath) :
  Forall validSegment p → Forall validSegment q →
  canonicalString p = canonicalString q → p = q.
Proof.
  revert q. induction p as [|x p IH]; intros q Hp Hq Heq.
  - destruct q as [|y [|y' q]]; [done|..].
    + apply Forall_inv in Hq as [Hne _]. rewrite canonicalString_singleton in Heq.
      by symmetry in Heq.
    + apply Forall_inv in Hq as [Hne _]. rewrite canonicalString_cons2 in Heq.
      symmetry in Heq. by apply append_empty_inv in Heq.
  - apply Forall_cons in Hp as [[Hx Hxs] Hp].
    destruct q as [|y q].
    + destruct p as [|x' p].
      * by rewrite canonicalString_singleton in Heq.
      * rewrite canonicalString_cons2 in Heq. by apply append_empty_inv in Heq.
    + apply Forall_cons in Hq as [[Hy Hys] Hq].
      destruct p as [|x' p], q as [|y' q].
      * rewrite !canonicalString_singleton in Heq. by subst.
      * rewrite canonicalString_cons2, canonicalString_singleton in Heq. subst x.
        by rewrite append_slash_hasSlash in Hxs.
      * rewrite canonicalString_cons2, canonicalString_singleton in Heq. subst y.
        by rewrite append_slash_hasSlash in Hys.
      * rewrite !canonicalString_cons2 in Heq.
        apply append_slash_inj in Heq as [-> Heq]; [|done..].
        f_equal. by apply IH.
Qed.

Lemma Forall_popLast (P : string → Prop) (p : ResourcePath) :
  Forall P p → Forall P (popLast p).
Proof.
  unfold popLast. induction 1 as [|s p Hs Hp IH]; [constructor|].
  simpl. destruct p; [constructor|]. by constructor.
Qed.

Definition canonical_lt : relation ResourcePath :=
  λ l r, primitiveComparator (canonicalString l) (canonicalString r) = Lt.

Lemma canonical_lt_ne (l r : ResourcePath) :
  canonical_lt l r → canonicalString l ≠ canonicalString r.
Proof.
  unfold canonical_lt, primitiveComparator. intros Hlt Heq.
  by rewrite Heq, string_compare_refl in Hlt.
Qed.

Lemma canonical_lt_trans (x y z : ResourcePath) :
  canonical_lt x y → canonical_lt y z → canonical_lt x z.
Proof. unfold canonical_lt, primitiveComparator. apply string_compare_trans. Qed.

Lemma elem_of_SortedSet_add (elem : ResourcePath) (s : list ResourcePath) :
  StronglySorted canonical_lt s →
  ∀ p, p ∈ SortedSet_add elem s ↔
       p = elem ∨ (p ∈ s ∧ canonicalString p ≠ canonicalString elem).
Proof.
  induction 1 as [|x s Hs IH Hx]; intros p; simpl.
  - rewrite list_elem_of_singleton. split; [auto|]. intros [?|[[]%elem_of_nil _]]; done.
  - rewrite Forall_forall in Hx.
    destruct (primitiveComparator (canonicalString elem) (canonicalString x)) eqn:Hc.
    + apply String.compare_eq_iff in Hc.
      rewrite !elem_of_cons. split.
      * intros [->|Hin]; [by left|]. right. split; [by right|].
        rewrite Hc. apply not_eq_sym, canonical_lt_ne. by apply Hx.
      * intros [->|[[->|Hin] Hne]]; [by left|done|by right].
    + rewrite !elem_of_cons. split.
      * intros [->|[->|Hin]]; [by left|..]; right.
        -- split; [by left|]. apply not_eq_sym. by apply canonical_lt_ne.
        -- split; [by right|]. apply not_eq_sym, canonical_lt_ne.
           eapply canonical_lt_trans; [exact Hc|]. by apply Hx.
      * intros [->|[[->|Hin] _]]; auto.
    + rewrite elem_of_cons, IH, elem_of_cons. split.
      * intros [->|[->|[Hin Hne]]]; [|by left|].
        -- right. split; [by left|]. intros Heq.
           unfold primitiveComparator in Hc. by rewrite Heq, string_compare_refl in Hc.
        -- right. split; [by right|done].
      * intros [->|[[->|Hin] Hne]]; [right; by left|by left|].
        right; right. done.
Qed.

Lemma SortedSet_add_sorted (elem : ResourcePath) (s : list ResourcePath) :
  StronglySorted canonical_lt s → StronglySorted canonical_lt (SortedSet_add elem s).
Proof.
  induction 1 as [|x s Hs IH Hx]; simpl.
  - repeat constructor.
  - destruct (primitiveComparator (canonicalString elem) (canonicalString x)) eqn:Hc.
    + apply String.compare_eq_iff in Hc. constructor; [done|].
      eapply Forall_impl; [exact Hx|]. intros y. unfold canonical_lt. by rewrite Hc.
    + constructor; [by constructor|]. constructor; [done|].
      eapply Forall_impl; [exact Hx|]. intros y. by apply canonical_lt_trans.
    + constructor; [done|]. apply Forall_forall. intros p Hin.
      apply (elem_of_SortedSet_add _ _ Hs) in Hin as [->|[Hin _]].
      * unfold canonical_lt, primitiveComparator in *.
        rewrite string_compare_antisym, Hc. done.
      * rewrite Forall_forall in Hx. by apply Hx.
Qed.

Lemma StronglySorted_canonical_NoDup (s : list ResourcePath) :
  StronglySorted canonical_lt s → NoDup s.
Proof.
  induction 1 as [|x s Hs IH Hx]; [constructor|].
  apply NoDup_cons. split; [|done]. intros Hin.
  rewrite Forall_forall in Hx. specialize (Hx _ Hin).
  by apply canonical_lt_ne in Hx.
Qed.

Lemma staged_parents_cons (kd : DocumentKey * MutableDocument)
    (l : list (DocumentKey * MutableDocument)) (s : list ResourcePath) :
  staged_parents (kd :: l) s
  = staged_parents l (if isValidDocument kd.2
                      then SortedSet_add (popLast kd.1) s else s).
Proof. done. Qed.

(** The set [applyChanges] has collected after its loop. *)
Lemma staged_parents_sorted (l : list (DocumentKey * MutableDocument))
    (s : list ResourcePath) :
  StronglySorted canonical_lt s → StronglySorted canonical_lt (staged_parents l s).
Proof.
  revert s. induction l as [|[k d] l IH]; intros s Hs; [done|].
  rewrite staged_parents_cons. cbn [fst snd].
  apply IH. destruct (isValidDocument d); [|done]. by apply SortedSet_add_sorted.
Qed.

Lemma elem_of_staged_parents (l : list (DocumentKey * MutableDocument))
    (s : list ResourcePath) :
  StronglySorted canonical_lt s →
  Forall (Forall validSegment) s →
  Forall (λ kd, Forall validSegment kd.1) l →
  ∀ p, p ∈ staged_parents l s ↔
       p ∈ s ∨ ∃ kd, kd ∈ l ∧ isValidDocument kd.2 = true ∧ p = popLast kd.1.
Proof.
  revert s. induction l as [|[k d] l IH]; intros s Hs Hwf Hl p.
  - simpl. split; [auto|]. intros [?|(kd & []%elem_of_nil & _)]; done.
  - apply Forall_cons in Hl as [Hk Hl]. simpl in Hk.
    rewrite staged_parents_cons. cbn [fst snd].
    destruct (isValidDocument d) eqn:Hvalid.
    + assert (Forall validSegment (popLast k)) as Hpk by by apply Forall_popLast.
      rewrite IH; [|by apply SortedSet_add_sorted| |done].
      * rewrite (elem_of_SortedSet_add _ _ Hs). split.
        -- intros [[->|[Hin _]]|(kd & Hin & Hv & ->)].
           ++ right. exists (k, d). split; [by apply elem_of_cons; left|done].
           ++ by left.
           ++ right. exists kd. split; [by apply elem_of_cons; right|done].
        -- intros [Hin|(kd & [->|Hin]%elem_of_cons & Hv & ->)].
           ++ destruct (decide (p = popLast k)) as [->|Hne]; [left; by left|].
              left. right. split; [done|]. intros Heq. apply Hne.
              apply canonicalString_inj; [|done..].
              rewrite Forall_forall in Hwf. by apply Hwf.
           ++ left. by left.
           ++ right. by exists kd.
      * apply Forall_forall. intros q Hq.
        apply (elem_of_SortedSet_add _ _ Hs) in Hq as [->|[Hq _]]; [done|].
        rewrite Forall_forall in Hwf. by apply Hwf.
    + rewrite IH by done. split.
      * intros [?|(kd & Hin & Hv & ->)]; [by left|].
        right. exists kd. split; [by apply elem_of_cons; right|done].
      * intros [?|(kd & [->|Hin]%elem_of_cons & Hv & ->)]; [by left|..].
        -- simpl in Hv. congruence.
        -- right. by exists kd.
Qed.

(** ** Reading through a change buffer *)

(** The calls a transaction makes on its change buffer before [apply]. *)
Inductive BufferCall :=
| Call_getEntry (documentKey : DocumentKey)
| Call_getEntries (documentKeys : gset DocumentKey)
| Call_addEntry (document : MutableDocument)
| Call_removeEntry (key : DocumentKey) (readTime : SnapshotVersion).

(** Every key is read through the buffer before it is staged. *)
Fixpoint readBeforeStaged (read : gset DocumentKey) (calls : list BufferCall) : bool :=
  match calls with
  | [] => true
  | Call_getEntry documentKey :: calls' =>
      readBeforeStaged ({[documentKey]} ∪ read) calls'
  | Call_getEntries documentKeys :: calls' =>
      readBeforeStaged (documentKeys ∪ read) calls'
  | Call_addEntry document :: calls' =>
      bool_decide (key document ∈ read) && readBeforeStaged read calls'
  | Call_removeEntry key _ :: calls' =>
      bool_decide (key ∈ read) && readBeforeStaged read calls'
  end.

Section BufferReads.
Context {DbRemoteDocument : Type}.
Variable serializer : LocalSerializer DbRemoteDocument.

Abbreviation Txn := (PersistenceTransaction DbRemoteDocument).
Abbreviation Buffer := IndexedDbRemoteDocumentChangeBuffer.

Definition buffer_call (transaction : Txn) (buffer : Buffer) (call : BufferCall)
    : Result Buffer :=
  match call with
  | Call_getEntry documentKey =>
      Ok (buffer_getEntry serializer buffer transaction documentKey).1
  | Call_getEntries documentKeys =>
      '(buffer', _) ← buffer_getEntries serializer buffer transaction documentKeys;
      mret buffer'
  | Call_addEntry document => Ok (buffer_addEntry buffer document)
  | Call_removeEntry key readTime => Ok (buffer_removeEntry buffer key readTime)
  end.

Fixpoint buffer_calls (transaction : Txn) (buffer : Buffer) (calls : list BufferCall)
    : Result Buffer :=
  match calls with
  | [] => Ok buffer
  | call :: calls' =>
      buffer' ← buffer_call transaction buffer call;
      buffer_calls transaction buffer' calls'
  end.

(** The size of the record the store holds under a key before the
    commit; zero is the size of no record. *)
Definition previousSize (transaction : Txn) (k : DocumentKey) : Z :=
  dbDocumentSize serializer (remoteDocuments transaction !! k).

Lemma getFromCache_sizes (buffer : Buffer) (transaction : Txn) (documentKey : DocumentKey) :
  let buffer' := (getFromCache serializer buffer transaction documentKey).1 in
  changes buffer' = changes buffer ∧
  trackRemovals buffer' = trackRemovals buffer ∧
  documentSizes buffer'
  = <[documentKey := previousSize transaction documentKey]> (documentSizes buffer).
Proof. done. Qed.

Lemma map_fold_insert_lookup (sizeMap base : gmap DocumentKey Z) (k : DocumentKey) :
  map_fold (λ documentKey size sizes, <[documentKey := size]> sizes) base sizeMap !! k
  = match sizeMap !! k with Some size => Some size | None => base !! k end.
Proof.
  revert k.
  apply (map_fold_weak_ind
           (λ r (m : gmap DocumentKey Z),
              ∀ k, r !! k = match m !! k with Some s => Some s | None => base !! k end)).
  - intros k. by rewrite lookup_empty.
  - intros i x m r Hi IH k. destruct (decide (i = k)) as [->|Hne].
    + by rewrite !lookup_insert_eq.
    + rewrite !lookup_insert_ne by done. apply IH.
Qed.

Lemma getAllFromCache_sizes (buffer : Buffer) (transaction : Txn)
    (documentKeys : gset DocumentKey) :
  ∃ buffer' documents,
    getAllFromCache serializer buffer transaction documentKeys = Ok (buffer', documents) ∧
    changes buffer' = changes buffer ∧
    trackRemovals buffer' = trackRemovals buffer ∧
    ∀ k, documentSizes buffer' !! k
         = if decide (k ∈ documentKeys)
           then Some (previousSize transaction k)
           else documentSizes buffer !! k.
Proof.
  destruct (getSizedEntries_spec serializer transaction documentKeys)
    as (results & sizeMap & Hsized & _ & Hsizes).
  unfold getAllFromCache. rewrite Hsized. cbn [mbind result_mbind result_bind].
  eexists _, _. split; [done|]. split; [done|]. split; [done|].
  intros k. cbn [documentSizes]. rewrite map_fold_insert_lookup, Hsizes.
  by destruct (decide (k ∈ documentKeys)).
Qed.

(** What a buffer knows after some calls: every key read so far has its
    previous size on record, every recorded size is the previous size of
    its key, and only keys read so far are staged. *)
Definition buffer_tracks (transaction : Txn) (read : gset DocumentKey) (buffer : Buffer)
    : Prop :=
  (∀ k, k ∈ read → documentSizes buffer !! k = Some (previousSize transaction k)) ∧
  (∀ k s, documentSizes buffer !! k = Some s → s = previousSize transaction k) ∧
  (∀ k, is_Some (changes buffer !! k) → k ∈ read).

Lemma buffer_calls_track (transaction : Txn) (calls : list BufferCall)
    (read : gset DocumentKey) (buffer : Buffer) :
  buffer_tracks transaction read buffer →
  readBeforeStaged read calls = true →
  ∃ buffer' read',
    buffer_calls transaction buffer calls = Ok buffer' ∧
    trackRemovals buffer' = trackRemovals buffer ∧
    buffer_tracks transaction read' buffer'.
Proof.
  revert read buffer. induction calls as [|call calls IH];
    intros read buffer (Hread & Hcur & Hstaged) Hcalls.
  - exists buffer, read. done.
  - destruct call as [documentKey|documentKeys|document|key' readTime'];
      cbn [readBeforeStaged] in Hcalls; cbn [buffer_calls buffer_call].
    + (* getEntry *)
      unfold buffer_getEntry.
      destruct (changes buffer !! documentKey) as [bufferedEntry|] eqn:Hchange;
        cbn [fst mbind result_mbind result_bind].
      * apply (IH ({[documentKey]} ∪ read)); [|done].
        assert (documentKey ∈ read) by (apply Hstaged; eauto).
        split; [|split; [done|]].
        -- intros k [->%elem_of_singleton|Hk]%elem_of_union; by apply Hread.
        -- intros k Hk. apply elem_of_union. right. by apply Hstaged.
      * destruct (IH ({[documentKey]} ∪ read)
                    (getFromCache serializer buffer transaction documentKey).1)
          as (buffer' & read' & Hrun & Htr & Htracks); [|done|by eauto].
        unfold buffer_tracks, getFromCache, getSizedEntry.
        cbn [fst snd documentSizes changes]. fold (previousSize transaction documentKey).
        split; [|split].
        -- intros k Hk. destruct (decide (documentKey = k)) as [->|Hne].
           ++ by rewrite lookup_insert_eq.
           ++ rewrite lookup_insert_ne by done. apply Hread.
              apply elem_of_union in Hk as [Hk%elem_of_singleton|Hk]; done.
        -- intros k s. destruct (decide (documentKey = k)) as [->|Hne].
           ++ rewrite lookup_insert_eq. by intros [= <-].
           ++ rewrite lookup_insert_ne by done. apply Hcur.
        -- intros k Hk. apply elem_of_union. right. by apply Hstaged.
    + (* getEntries *)
      unfold buffer_getEntries.
      destruct (getAllFromCache_sizes buffer transaction
                  (filter (λ k, changes buffer !! k = None) documentKeys))
        as (buffer1 & documents & Hall & Hch & Htr & Hsizes).
      rewrite Hall. cbn [mbind result_mbind result_bind mret result_ret].
      destruct (IH (documentKeys ∪ read) buffer1)
        as (buffer' & read' & Hrun & Htr' & Htracks); [|done|].
      * split; [|split].
        -- intros k Hk. rewrite Hsizes.
           destruct (decide (k ∈ filter _ documentKeys)) as [|Hnot]; [done|].
           apply Hread. apply elem_of_union in Hk as [Hk|Hk]; [|done].
           apply Hstaged. rewrite elem_of_filter in Hnot.
           destruct (changes buffer !! k) eqn:E; [eauto|]. exfalso. auto.
        -- intros k s. rewrite Hsizes.
           destruct (decide (k ∈ filter _ documentKeys)); [by intros [= <-]|].
           apply Hcur.
        -- intros k Hk. rewrite Hch in Hk. apply elem_of_union. right.
           by apply Hstaged.
      * exists buffer', read'. split; [done|]. split; [congruence|done].
    + (* addEntry *)
      apply andb_true_iff in Hcalls as [Hin%bool_decide_eq_true Hcalls].
      cbn [mbind result_mbind result_bind].
      destruct (IH read (buffer_addEntry buffer document))
        as (buffer' & read' & Hrun & Htr & Htracks); [|done|by eauto].
      split; [done|]. split; [done|].
      intros k. cbn [buffer_addEntry changes].
      destruct (decide (key document = k)) as [<-|Hne]; [done|].
      rewrite lookup_insert_ne by done. apply Hstaged.
    + (* removeEntry *)
      apply andb_true_iff in Hcalls as [Hin%bool_decide_eq_true Hcalls].
      cbn [mbind result_mbind result_bind].
      destruct (IH read (buffer_removeEntry buffer key' readTime'))
        as (buffer' & read' & Hrun & Htr & Htracks); [|done|by eauto].
      split; [done|]. split; [done|].
      intros k. cbn [buffer_removeEntry changes].
      destruct (decide (key' = k)) as [<-|Hne]; [done|].
      rewrite lookup_insert_ne by done. apply Hstaged.
Qed.
End BufferReads.

Section CommitOutcome.
Context {DbRemoteDocument : Type}.
Variable serializer : LocalSerializer DbRemoteDocument.

Abbreviation Txn := (PersistenceTransaction DbRemoteDocument).
Abbreviation Buffer := IndexedDbRemoteDocumentChangeBuffer.

Lemma elem_of_staged (buffer : Buffer) (k : DocumentKey) (d : MutableDocument) :
  (k, d) ∈ map_to_list (changes buffer) ↔ changes buffer !! k = Some d.
Proof. apply elem_of_map_to_list. Qed.

(** The ways a commit can fail: at the first staged change that breaks
    an assertion of the loop, or, past the loop, for want of the metadata
    record. *)
Lemma applyChanges_failure (buffer : Buffer) (txn : Txn) (msg : string) :
  applyChanges serializer buffer txn = AssertionFailed msg →
  (∃ k d, changes buffer !! k = Some d ∧ ¬ entry_ok buffer (k, d) ∧
          msg = match documentSizes buffer !! k with
                | None => notReadMessage k
                | Some _ => zeroReadTimeMessage
                end) ∨
  (Forall (entry_ok buffer) (map_to_list (changes buffer)) ∧
   remoteDocumentGlobal txn = None ∧ msg = missingMetadataMessage).
Proof.
  intros Hfail.
  destruct (Forall_or_first_failure buffer (map_to_list (changes buffer)))
    as [Hall|(l1 & [k d] & l2 & Heq & Hl1 & Hnot)].
  - right. split; [done|].
    destruct (remoteDocumentGlobal txn) as [metadata|] eqn:Hmeta.
    + by rewrite (applyChanges_Ok serializer buffer txn metadata Hall Hmeta) in Hfail.
    + split; [done|]. unfold applyChanges in Hfail.
      rewrite (applyChanges_promises_Ok serializer buffer Hall) in Hfail.
      cbn [mbind result_mbind result_bind] in Hfail.
      rewrite waitFor_app, waitFor_writes in Hfail.
      cbn [mbind result_mbind result_bind] in Hfail.
      rewrite waitFor_app, waitFor_notifications in Hfail.
      cbn [mbind result_mbind result_bind PersistencePromise_waitFor
           PersistencePromise_run] in Hfail.
      unfold updateMetadata, getMetadata in Hfail. simpl in Hfail.
      rewrite Hmeta in Hfail. simpl in Hfail. by injection Hfail as <-.
  - left. exists k, d. split; [|split; [done|]].
    + apply elem_of_staged. rewrite Heq. apply elem_of_app. right.
      by apply elem_of_cons; left.
    + unfold applyChanges, applyChanges_promises in Hfail.
      rewrite Heq, (applyChanges_forEach_failed serializer buffer l1 l2 _ _ Hl1 Hnot)
        in Hfail.
      cbn [mbind result_mbind result_bind fst] in Hfail. by injection Hfail as <-.
Qed.

Lemma applyChanges_fails_on (buffer : Buffer) (txn : Txn)
    (k : DocumentKey) (d : MutableDocument) :
  changes buffer !! k = Some d → ¬ entry_ok buffer (k, d) →
  ∃ msg, applyChanges serializer buffer txn = AssertionFailed msg.
Proof.
  intros Hkd Hnot.
  destruct (applyChanges serializer buffer txn) as [txn'|msg] eqn:Happly; [|eauto].
  apply applyChanges_Ok_inv in Happly as [Hall _].
  rewrite Forall_forall in Hall. exfalso. apply Hnot, Hall. by apply elem_of_staged.
Qed.
End CommitOutcome.

(** ** Fixtures

    The documents and transactions the statements below are tried on. *)

Definition key_a1 : DocumentKey := ["a"; "1"].
Definition key_b1 : DocumentKey := ["b"; "1"].
Definition key_b2 : DocumentKey := ["b"; "2"].
Definition key_b1z1 : DocumentKey := ["b"; "1"; "z"; "1"].
Definition key_c1 : DocumentKey := ["c"; "1"].

Definition unwrap {DbRemoteDocument} (r : Result (PersistenceTransaction DbRemoteDocument))
    : PersistenceTransaction DbRemoteDocument :=
  match r with Ok transaction => transaction | AssertionFailed _ => emptyTransaction end.

(** A buffer that has read two keys and stages a document for one and a
    removal for the other. *)
Definition buffer_b (tracking : bool) : IndexedDbRemoteDocumentChangeBuffer :=
  let buffer := newChangeBuffer (Some tracking) in
  let buffer := (buffer_getEntry storedSerializer buffer emptyTransaction key_b1).1 in
  let buffer := buffer_addEntry buffer (doc key_b1 42 DOC_DATA 1) in
  let buffer := (buffer_getEntry storedSerializer buffer emptyTransaction key_b2).1 in
  buffer_removeEntry buffer key_b2 (testVersion 4).

Definition txn_b (tracking : bool) : PersistenceTransaction StoredDocument :=
  Eval vm_compute in
    unwrap (applyChanges storedSerializer (buffer_b tracking) emptyTransaction).

(** The store of the test 'can get all documents from collection', with a
    removal of b/2 that was tracked. *)
Definition txn_collections : PersistenceTransaction StoredDocument :=
  Eval vm_compute in
    unwrap (
      txn ← commit storedSerializer false
              [(key_a1, Some (doc key_a1 42 DOC_DATA 1));
               (key_b1, Some (doc key_b1 42 DOC_DATA 2));
               (key_b1z1, Some (doc key_b1z1 42 DOC_DATA 3));
               (key_b2, Some (doc key_b2 42 DOC_DATA 4));
               (key_c1, Some (doc key_c1 42 DOC_DATA 5))]
              SnapshotVersion_min emptyTransaction;
      commit storedSerializer true [(key_b2, None)] (testVersion 6) txn).

(** * The claims *)

Section Claims.
Context {DbRemoteDocument : Type}.
Variable serializer : LocalSerializer DbRemoteDocument.

Abbreviation Txn := (PersistenceTransaction DbRemoteDocument).
Abbreviation Buffer := IndexedDbRemoteDocumentChangeBuffer.

(** C6.  When a change buffer is applied and a staged key holds an
    invalid (deleted) document: a buffer created with [trackRemovals]
    leaves under that key the record of the document converted to a
    no-document at the minimum version, which is a sentinel removal; a
    buffer created without it leaves no record under that key. *)
Theorem removal_leaves_sentinel_or_nothing (buffer : Buffer) (txn txn' : Txn)
    (k : DocumentKey) (documentChange : MutableDocument) :
  applyChanges serializer buffer txn = Ok txn' →
  changes buffer !! k = Some documentChange →
  isValidDocument documentChange = false →
  (trackRemovals buffer = true →
     remoteDocuments txn' !! dbKey k
     = Some (toDbRemoteDocument serializer
               (convertToNoDocument documentChange SnapshotVersion_min))
     ∧ isSentinelRemoval (convertToNoDocument documentChange SnapshotVersion_min) = true)
  ∧ (trackRemovals buffer = false → remoteDocuments txn' !! dbKey k = None).
Proof.
  intros Happly Hchange Hinvalid.
  rewrite (applyChanges_store serializer buffer txn txn' _ Happly).
  unfold dbKey. rewrite Hchange. unfold staged_record. rewrite Hinvalid.
  split; intros ->; done.
Qed.

(** C10.  A valid document staged with the minimum read time makes
    [applyChanges] fail: the commit ends in a failed assertion, and when
    every staged key was read through the buffer the assertion is 'Cannot
    add a document with a read time of zero'.  No transaction comes back,
    so the document is not committed. *)
Theorem zero_read_time_is_rejected (buffer : Buffer) (txn : Txn)
    (k : DocumentKey) (documentChange : MutableDocument) :
  changes buffer !! k = Some documentChange →
  isValidDocument documentChange = true →
  readTime documentChange = SnapshotVersion_min →
  ∃ msg,
    applyChanges serializer buffer txn = AssertionFailed msg ∧
    ((∀ k', is_Some (changes buffer !! k') → is_Some (documentSizes buffer !! k')) →
     msg = zeroReadTimeMessage).
Proof.
  intros Hchange Hvalid Hrt.
  assert (¬ entry_ok buffer (k, documentChange)) as Hnot.
  { intros [_ Hok]. specialize (Hok Hvalid). simpl in Hok. by rewrite Hrt in Hok. }
  destruct (applyChanges_fails_on serializer buffer txn k documentChange Hchange Hnot)
    as [msg Hfail].
  exists msg. split; [done|]. intros Hread.
  apply applyChanges_failure in Hfail
    as [(k' & d' & Hkd' & _ & ->)|(Hall & _)].
  - destruct (Hread k') as [s ->]; [eauto|done].
  - rewrite Forall_forall in Hall. exfalso. apply Hnot, Hall.
    by apply elem_of_staged.
Qed.

(** C8.  If a buffer holds a staged write for a key it has no previous
    size for, [applyChanges] ends in a failed assertion.  Conversely, a
    buffer whose keys were all read through [getEntry] or [getEntries]
    before they were staged has, for every staged key, exactly the size
    the store held for it on record (reading a key again can only record
    the same size), and its commit cannot fail for a key that was not
    read: it succeeds, or fails on a read time of zero or on missing
    metadata. *)
Theorem unread_write_fails_and_reads_are_recorded :
  (∀ (buffer : Buffer) (txn : Txn) (k : DocumentKey) (documentChange : MutableDocument),
     changes buffer !! k = Some documentChange →
     documentSizes buffer !! k = None →
     ∃ msg, applyChanges serializer buffer txn = AssertionFailed msg ∧
            (msg = zeroReadTimeMessage ∨
             ∃ k', is_Some (changes buffer !! k') ∧ documentSizes buffer !! k' = None
                   ∧ msg = notReadMessage k')) ∧
  (∀ (txn : Txn) (options : option bool) (calls : list BufferCall),
     readBeforeStaged ∅ calls = true →
     ∃ buffer,
       buffer_calls serializer txn (newChangeBuffer options) calls = Ok buffer ∧
       (∀ k, is_Some (changes buffer !! k) →
             documentSizes buffer !! k = Some (previousSize serializer txn k)) ∧
       (∀ k s, documentSizes buffer !! k = Some s → s = previousSize serializer txn k) ∧
       (∀ msg, applyChanges serializer buffer txn = AssertionFailed msg →
               msg = zeroReadTimeMessage ∨ msg = missingMetadataMessage)).
Proof.
  split.
  - intros buffer txn k documentChange Hchange Hsize.
    assert (¬ entry_ok buffer (k, documentChange)) as Hnot.
    { intros [[s Hs] _]. simpl in Hs. congruence. }
    destruct (applyChanges_fails_on serializer buffer txn k documentChange Hchange Hnot)
      as [msg Hfail].
    exists msg. split; [done|].
    apply applyChanges_failure in Hfail
      as [(k' & d' & Hkd' & _ & ->)|(Hall & _)].
    + destruct (documentSizes buffer !! k') eqn:Hs; [by left|].
      right. exists k'. eauto.
    + rewrite Forall_forall in Hall. exfalso. apply Hnot, Hall.
      by apply elem_of_staged.
  - intros txn options calls Hcalls.
    destruct (buffer_calls_track serializer txn calls ∅ (newChangeBuffer options))
      as (buffer & read & Hrun & _ & Hread & Hcur & Hstaged); [|done|].
    { split; [|split].
      - intros k Hk. by apply elem_of_empty in Hk.
      - intros k s. cbn [newChangeBuffer documentSizes]. by rewrite lookup_empty.
      - intros k [d Hd]. cbn [newChangeBuffer changes] in Hd.
        by rewrite lookup_empty in Hd. }
    exists buffer. split; [done|]. split; [by auto|]. split; [done|].
    intros msg Hfail.
    apply applyChanges_failure in Hfail
      as [(k' & d' & Hkd' & _ & ->)|(_ & _ & ->)]; [|by right].
    rewrite (Hread k'); [by left|]. apply Hstaged. eauto.
Qed.

(** C9.  Within one successful [applyChanges] the index manager is
    handed each collection parent once: the paths it is handed have no
    duplicates and are exactly the parent paths (the key without its last
    segment) of the staged valid documents, and all of them are handed
    over after the document writes of every staged key and before the
    one update of the metadata. *)
Theorem each_parent_is_notified_once (buffer : Buffer) (txn txn' : Txn) :
  applyChanges serializer buffer txn = Ok txn' →
  (∀ k d, changes buffer !! k = Some d → Forall validSegment k) →
  ∃ notified writes delta,
    collectionParentIndex txn' = collectionParentIndex txn ++ notified ∧
    NoDup notified ∧
    (∀ p, p ∈ notified ↔
          ∃ k d, changes buffer !! k = Some d ∧ isValidDocument d = true
                 ∧ p = popLast k) ∧
    applyChanges_promises serializer buffer
    = Ok (writes ++ (Promise_addToCollectionParentIndex <$> notified)
                 ++ [Promise_updateMetadata delta]) ∧
    writes = (staged_promise serializer buffer <$> map_to_list (changes buffer)).
Proof.
  intros Happly Hsegments.
  destruct (applyChanges_Ok_inv serializer buffer txn txn' Happly)
    as [Hall [metadata Hmeta]].
  rewrite (applyChanges_Ok serializer buffer txn metadata Hall Hmeta) in Happly.
  injection Happly as <-.
  exists (staged_parents (map_to_list (changes buffer)) []),
         (staged_promise serializer buffer <$> map_to_list (changes buffer)),
         (sumZ (staged_delta serializer buffer <$> map_to_list (changes buffer))).
  split; [done|].
  assert (StronglySorted canonical_lt
            (staged_parents (map_to_list (changes buffer)) [])) as Hsorted.
  { apply staged_parents_sorted. constructor. }
  split; [by apply StronglySorted_canonical_NoDup|].
  split; [|split; [by apply applyChanges_promises_Ok|done]].
  intros p. rewrite elem_of_staged_parents; [|constructor|constructor|].
  - split.
    + intros [[]%elem_of_nil|([k d] & Hin & Hvalid & ->)].
      exists k, d. split; [by apply elem_of_staged|done].
    + intros (k & d & Hkd & Hvalid & ->). right. exists (k, d).
      split; [by apply elem_of_staged|done].
  - apply Forall_forall. intros [k d] Hin. simpl.
    apply (Hsegments k d). by apply elem_of_staged.
Qed.
End Claims.

(** The removal staged in the fixture buffer. *)
Definition removal_b2 : MutableDocument :=
setReadTime (newInvalidDocument key_b2) (testVersion 4).

Lemma removal_leaves_sentinel_or_nothing_tracked :
  (trackRemovals (buffer_b true) = true →
     remoteDocuments (txn_b true) !! dbKey key_b2
     = Some (toDbRemoteDocument storedSerializer
               (convertToNoDocument removal_b2 SnapshotVersion_min))
     ∧ isSentinelRemoval (convertToNoDocument removal_b2 SnapshotVersion_min) = true)
  ∧ (trackRemovals (buffer_b true) = false →
     remoteDocuments (txn_b true) !! dbKey key_b2 = None).
Proof.
  apply (removal_leaves_sentinel_or_nothing storedSerializer
           (buffer_b true) emptyTransaction (txn_b true) key_b2 removal_b2);
    vm_compute; reflexivity.
Defined.

(** A buffer that stages a valid document left at the minimum read time. *)
Definition buffer_zero : IndexedDbRemoteDocumentChangeBuffer :=
let buffer := newChangeBuffer None in
let buffer := (buffer_getEntry storedSerializer buffer emptyTransaction key_a1).1 in
buffer_addEntry buffer (doc key_a1 1 DOC_DATA 0).

Lemma zero_read_time_is_rejected_witness :
  ∃ msg,
    applyChanges storedSerializer buffer_zero emptyTransaction = AssertionFailed msg ∧
    ((∀ k', is_Some (changes buffer_zero !! k') → is_Some (documentSizes buffer_zero !! k')) →
     msg = zeroReadTimeMessage).
Proof.
  apply (zero_read_time_is_rejected storedSerializer buffer_zero emptyTransaction
           key_a1 (doc key_a1 1 DOC_DATA 0));
    vm_compute; reflexivity.
Defined.

Lemma each_parent_is_notified_once_witness :
  ∃ notified writes delta,
    collectionParentIndex (txn_b true)
    = collectionParentIndex (@emptyTransaction StoredDocument) ++ notified ∧
    NoDup notified ∧
    (∀ p, p ∈ notified ↔
          ∃ k d, changes (buffer_b true) !! k = Some d ∧ isValidDocument d = true
                 ∧ p = popLast k) ∧
    applyChanges_promises storedSerializer (buffer_b true)
    = Ok (writes ++ (Promise_addToCollectionParentIndex <$> notified)
                 ++ [Promise_updateMetadata delta]) ∧
    writes = (staged_promise storedSerializer (buffer_b true)
                <$> map_to_list (changes (buffer_b true))).
Proof.
  apply (each_parent_is_notified_once storedSerializer (buffer_b true)
           emptyTransaction (txn_b true)).
  - vm_compute; reflexivity.
  - apply (bool_decide_unpack (map_Forall (λ k _, Forall validSegment k)
                                          (changes (buffer_b true)))).
    vm_compute; exact I.
Defined.

Lemma cursor_walk_invariant `{IdbKey IK} {V S : Type} (I : S → Prop)
    (callback : list string → V → S → Result (S * IterationControl IK))
    (records : list (IK * (list string * V))) :
  (∀ k v s, I s → ∃ s' c, callback k v s = Ok (s', c) ∧ I s') →
  ∀ skipTo s, I s → ∃ s', cursor_walk skipTo records callback s = Ok s' ∧ I s'.
Proof.
  intros Hcb. induction records as [|[ik [k v]] records IH]; intros skipTo s Hs.
  - exists s. done.
  - cbn [cursor_walk].
    destruct (match skipTo with Some target => key_ltb ik target | None => false end).
    + by apply IH.
    + destruct (Hcb k v s Hs) as (s' & c & -> & Hs').
      destruct c; [by apply IH|by apply IH|by exists s'].
Qed.

Section ReadClaims.
Context {DbRemoteDocument : Type}.
Variable serializer : LocalSerializer DbRemoteDocument.

Abbreviation Txn := (PersistenceTransaction DbRemoteDocument).

Lemma maybeDecodeDocument_not_sentinel (k : DocumentKey) (o : option DbRemoteDocument) :
  isSentinelRemoval (maybeDecodeDocument serializer k o) = false.
Proof.
  unfold maybeDecodeDocument. destruct o as [r|]; [|done].
  by destruct (isSentinelRemoval (fromDbRemoteDocument serializer r)) eqn:E.
Qed.

Lemma getAll_total (txn : Txn) (collection : ResourcePath) (sinceReadTime : SnapshotVersion) :
  ∃ results, getAll serializer txn collection sinceReadTime = Ok results ∧
    ∀ k d, results !! k = Some d → isSentinelRemoval d = false.
Proof.
  unfold getAll, SimpleDbStore_iterate.
  destruct (SnapshotVersion_isEqual sinceReadTime SnapshotVersion_min);
    apply (cursor_walk_invariant
             (λ m : gmap DocumentKey MutableDocument,
                ∀ k d, m !! k = Some d → isSentinelRemoval d = false)).
  all: try (intros k d; by rewrite lookup_empty).
  all: intros k v s Hs; unfold getAll_callback;
    destruct (negb _); [by eauto|];
    destruct (isPrefixOf _ _); [|by eauto];
    eexists _, _; split; [done|];
    intros k' d'; destruct (decide (key (maybeDecodeDocument serializer k (Some v)) = k'))
      as [<-|Hne];
    [rewrite lookup_insert_eq; intros [= <-];
     apply (maybeDecodeDocument_not_sentinel k (Some v))
    |rewrite lookup_insert_ne by done; apply Hs].
Qed.

(** C3.  [getEntry] always returns a document: for a key the store does
    not hold, and for a key whose record decodes to a sentinel tombstone (a
    no-document at the minimum version), it is the invalid document of that
    key.  No document returned by [getEntry], [getEntries] or [getAll] is a
    sentinel tombstone, and each of the three always returns; the change
    feed returns the record of a sentinel tombstone as it decodes. *)
Theorem reads_never_surface_sentinels :
  (∀ (txn : Txn) k, remoteDocuments txn !! dbKey k = None →
     getEntry serializer txn k = newInvalidDocument k) ∧
  (∀ (txn : Txn) k r, remoteDocuments txn !! dbKey k = Some r →
     isSentinelRemoval (fromDbRemoteDocument serializer r) = true →
     getEntry serializer txn k = newInvalidDocument k) ∧
  (∀ k, isValidDocument (newInvalidDocument k) = false ∧ key (newInvalidDocument k) = k) ∧
  (∀ (txn : Txn) k, isSentinelRemoval (getEntry serializer txn k) = false) ∧
  (∀ (txn : Txn) documentKeys, ∃ results,
     getEntries serializer txn documentKeys = Ok results ∧
     ∀ k d, results !! k = Some d →
       k ∈ documentKeys ∧ d = getEntry serializer txn k ∧ isSentinelRemoval d = false) ∧
  (∀ (txn : Txn) collection sinceReadTime, ∃ results,
     getAll serializer txn collection sinceReadTime = Ok results ∧
     ∀ k d, results !! k = Some d → isSentinelRemoval d = false) ∧
  (∀ (txn : Txn) sinceReadTime k r,
     store_keyed serializer txn →
     remoteDocuments txn !! dbKey k = Some r →
     readAfter serializer sinceReadTime r = true →
     ∃ changedDocs readTime,
       remoteDocumentCacheGetNewDocumentChanges serializer txn sinceReadTime
       = Ok (changedDocs, readTime) ∧
       changedDocs !! k = Some (fromDbRemoteDocument serializer r)).
Proof.
  split; [|split; [|split; [|split; [|split; [|split]]]]].
  - intros txn k Hk. unfold getEntry. by rewrite Hk.
  - intros txn k r Hk Hsentinel. unfold getEntry. rewrite Hk. simpl.
    by rewrite Hsentinel.
  - done.
  - intros txn k. apply maybeDecodeDocument_not_sentinel.
  - intros txn documentKeys.
    destruct (getEntries_spec serializer txn documentKeys) as (results & Hrun & Hlookup).
    exists results. split; [done|]. intros k d. rewrite Hlookup.
    destruct (decide (k ∈ documentKeys)); [|done]. intros [= <-].
    split; [done|]. split; [done|]. apply maybeDecodeDocument_not_sentinel.
  - apply getAll_total.
  - intros txn sinceReadTime k r Hkeyed Hk Hafter.
    destruct (getNewDocumentChanges_spec serializer txn sinceReadTime Hkeyed)
      as (readTime & Hrun & _).
    eexists _, readTime. split; [done|].
    unfold changedSince. rewrite map_lookup_imap. unfold dbKey in Hk.
    rewrite Hk. simpl. by rewrite Hafter.
Qed.
End ReadClaims.

(** ** More fixtures *)

Definition key_bold : DocumentKey := ["b"; "old"].
Definition key_bcurrent : DocumentKey := ["b"; "current"].
Definition key_bnew : DocumentKey := ["b"; "new"].

(** The store of the test 'can get all documents since read time'. *)
Definition txn_readTimes : PersistenceTransaction StoredDocument :=
Eval vm_compute in
  unwrap (
    txn ← commit storedSerializer false [(key_bold, Some (doc key_bold 1 DOC_DATA 11))]
            SnapshotVersion_min emptyTransaction;
    txn ← commit storedSerializer false
            [(key_bcurrent, Some (doc key_bcurrent 2 DOC_DATA 12))]
            SnapshotVersion_min txn;
    commit storedSerializer false [(key_bnew, Some (doc key_bnew 3 DOC_DATA 13))]
      SnapshotVersion_min txn).

(** Two documents whose key order is the reverse of their read time order. *)
Definition txn_feed : PersistenceTransaction StoredDocument :=
Eval vm_compute in
  unwrap (
    txn ← commit storedSerializer false [(key_b1, Some (doc key_b1 1 DOC_DATA 1))]
            SnapshotVersion_min emptyTransaction;
    commit storedSerializer false [(key_a1, Some (doc key_a1 2 DOC_DATA 2))]
      SnapshotVersion_min txn).

Section ScanClaims.
Context {DbRemoteDocument : Type}.
Variable serializer : LocalSerializer DbRemoteDocument.

Abbreviation Txn := (PersistenceTransaction DbRemoteDocument).

Lemma immediateChildren_lookup (txn : Txn) (collection : ResourcePath) (k : DocumentKey) :
  immediateChildren serializer txn collection !! k
  = remoteDocuments txn !! k ≫= λ r,
      if isImmediateChild collection k
      then Some (maybeDecodeDocument serializer k (Some r)) else None.
Proof. unfold immediateChildren. by rewrite map_lookup_imap. Qed.

(** C4, as amended.  With the minimum read time [getAll] returns one entry
    for every record stored under an immediate child of the collection
    (a key one segment longer than the collection and prefixed by it), and
    no other entry: the entry is the stored document, or the invalid
    document of the key when the record is a sentinel tombstone.  So the
    valid documents it returns are exactly the cached valid documents that
    are immediate children, and no key of a subcollection or outside the
    collection is returned. *)
Theorem getAll_returns_immediate_children (txn : Txn) (collection : ResourcePath) :
  store_keyed serializer txn →
  getAll serializer txn collection SnapshotVersion_min
  = Ok (immediateChildren serializer txn collection) ∧
  (∀ k d, immediateChildren serializer txn collection !! k = Some d →
     length k = (length collection + 1)%nat ∧ isPrefixOf collection k = true ∧ key d = k) ∧
  (∀ k d, immediateChildren serializer txn collection !! k = Some d
          ∧ isValidDocument d = true ↔
     ∃ r, remoteDocuments txn !! k = Some r ∧ isImmediateChild collection k = true ∧
          d = fromDbRemoteDocument serializer r ∧ isSentinelRemoval d = false ∧
          isValidDocument d = true) ∧
  (∀ k r, remoteDocuments txn !! k = Some r → isImmediateChild collection k = true →
     isSentinelRemoval (fromDbRemoteDocument serializer r) = true →
     immediateChildren serializer txn collection !! k = Some (newInvalidDocument k)).
Proof.
  intros Hkeyed. split; [by apply getAll_prefix_scan|]. split; [|split].
  - intros k d. rewrite immediateChildren_lookup.
    destruct (remoteDocuments txn !! k) as [r|] eqn:Hk; [simpl|done].
    destruct (isImmediateChild collection k) eqn:Hc; [|done]. intros [= <-].
    unfold isImmediateChild in Hc. apply andb_true_iff in Hc as [Hlen Hp].
    apply Nat.eqb_eq in Hlen. split; [done|]. split; [done|].
    apply maybeDecodeDocument_key. by apply (Hkeyed _ _ Hk).
  - intros k d. rewrite immediateChildren_lookup. split.
    + intros [Hd Hvalid].
      destruct (remoteDocuments txn !! k) as [r|] eqn:Hk; [simpl in Hd|done].
      destruct (isImmediateChild collection k) eqn:Hc; [|done].
      injection Hd as <-. exists r. unfold maybeDecodeDocument in *.
      destruct (isSentinelRemoval (fromDbRemoteDocument serializer r)) eqn:Hs;
        simpl in *; [done|]. done.
    + intros (r & Hk & Hc & -> & Hs & Hvalid). rewrite Hk. simpl. rewrite Hc.
      unfold maybeDecodeDocument. by rewrite Hs.
  - intros k r Hk Hc Hs. rewrite immediateChildren_lookup, Hk. simpl. rewrite Hc.
    unfold maybeDecodeDocument. by rewrite Hs.
Qed.

Lemma immediateChildrenSince_lookup (txn : Txn) (collection : ResourcePath)
    (sinceReadTime : SnapshotVersion) (k : DocumentKey) :
  immediateChildrenSince serializer txn collection sinceReadTime !! k
  = remoteDocuments txn !! k ≫= λ r,
      if isImmediateChild collection k && readAfter serializer sinceReadTime r
      then Some (maybeDecodeDocument serializer k (Some r)) else None.
Proof. unfold immediateChildrenSince. by rewrite map_lookup_imap. Qed.

(** C5, as amended.  With a read time other than the minimum, [getAll]
    scans the (collection, read time) index and returns the records of the
    immediate children of the collection whose stored read time is
    strictly after the given one; a record read exactly at it is left
    out.  The selection looks at the stored read time only, not at the
    version of the document. *)
Theorem getAll_since_returns_later_reads (txn : Txn) (collection : ResourcePath)
    (sinceReadTime : SnapshotVersion) :
  store_keyed serializer txn →
  store_indexed serializer txn →
  SnapshotVersion_isEqual sinceReadTime SnapshotVersion_min = false →
  getAll serializer txn collection sinceReadTime
  = SimpleDbStore_iterate (DbRemoteDocumentCollectionReadTimeIndex serializer)
      (Some (IDBKeyRange_lowerBound (collection, toDbTimestampKey sinceReadTime) true))
      (remoteDocuments txn) (getAll_callback serializer collection) ∅ ∧
  getAll serializer txn collection sinceReadTime
  = Ok (immediateChildrenSince serializer txn collection sinceReadTime) ∧
  (∀ k d, immediateChildrenSince serializer txn collection sinceReadTime !! k = Some d ↔
     ∃ r rt, remoteDocuments txn !! k = Some r ∧
             isImmediateChild collection k = true ∧
             db_readTime serializer r = Some rt ∧
             key_ltb (toDbTimestampKey sinceReadTime) rt = true ∧
             d = maybeDecodeDocument serializer k (Some r)).
Proof.
  intros Hkeyed Hindexed Hsince. split; [|split].
  - unfold getAll. by rewrite Hsince.
  - by apply getAll_index_scan.
  - intros k d. rewrite immediateChildrenSince_lookup. unfold readAfter. split.
    + destruct (remoteDocuments txn !! k) as [r|] eqn:Hk; [simpl|done].
      destruct (isImmediateChild collection k) eqn:Hc; [simpl|done].
      destruct (db_readTime serializer r) as [rt|] eqn:Hrt; [|done].
      destruct (key_ltb (toDbTimestampKey sinceReadTime) rt) eqn:Hlt; [|done].
      intros [= <-]. by exists r, rt.
    + intros (r & rt & Hk & Hc & Hrt & Hlt & ->). rewrite Hk. simpl.
      by rewrite Hc, Hrt, Hlt.
Qed.

(** C2, as amended.  The change feed returns, in a map keyed by document
    key, every document stored with a read time strictly after the bound,
    sentinel tombstones included, each as the serializer decodes it.  Its
    cursor visits these records in the order of their read times, so the
    checkpoint it returns is the largest read time among them, and the
    bound itself when there is none.  Read again from the checkpoint, the
    same store yields nothing, and any store yields just the documents with
    a strictly greater read time, all of them. *)
Theorem change_feed_checkpoints (txn : Txn) (sinceReadTime : SnapshotVersion) :
  store_keyed serializer txn →
  ∃ checkpoint,
    remoteDocumentCacheGetNewDocumentChanges serializer txn sinceReadTime
    = Ok (changedSince serializer txn sinceReadTime, checkpoint) ∧
    (∀ k d, changedSince serializer txn sinceReadTime !! k = Some d ↔
       ∃ r, remoteDocuments txn !! k = Some r ∧
            readAfter serializer sinceReadTime r = true ∧
            d = fromDbRemoteDocument serializer r) ∧
    StronglySorted (λ e1 e2 : DbTimestampKey * (list string * DbRemoteDocument),
                      key_leb e1.1 e2.1 = true)
                   (changeFeed_visits serializer txn sinceReadTime) ∧
    key_leb (toDbTimestampKey sinceReadTime) (toDbTimestampKey checkpoint) = true ∧
    (∀ k r, remoteDocuments txn !! k = Some r →
       readAfter serializer sinceReadTime r = true →
       ∃ rt, db_readTime serializer r = Some rt
             ∧ key_leb rt (toDbTimestampKey checkpoint) = true) ∧
    (checkpoint = sinceReadTime ∧ changedSince serializer txn sinceReadTime = ∅
     ∨ ∃ k r, remoteDocuments txn !! k = Some r ∧
              readAfter serializer sinceReadTime r = true ∧
              db_readTime serializer r = Some (toDbTimestampKey checkpoint)) ∧
    remoteDocumentCacheGetNewDocumentChanges serializer txn checkpoint
    = Ok (∅, checkpoint) ∧
    (∀ txn' : Txn, store_keyed serializer txn' →
       ∃ checkpoint',
         remoteDocumentCacheGetNewDocumentChanges serializer txn' checkpoint
         = Ok (changedSince serializer txn' checkpoint, checkpoint') ∧
         ∀ k d, changedSince serializer txn' checkpoint !! k = Some d ↔
           ∃ r rt, remoteDocuments txn' !! k = Some r ∧
                   db_readTime serializer r = Some rt ∧
                   key_ltb (toDbTimestampKey checkpoint) rt = true ∧
                   d = fromDbRemoteDocument serializer r).
Proof.
  intros Hkeyed.
  destruct (getNewDocumentChanges_spec serializer txn sinceReadTime Hkeyed)
    as (checkpoint & Hrun & Hle & Hmax & Hattained).
  assert (∀ (t : Txn) since k d,
            changedSince serializer t since !! k = Some d ↔
            ∃ r, remoteDocuments t !! k = Some r ∧
                 readAfter serializer since r = true ∧
                 d = fromDbRemoteDocument serializer r) as Hlookup.
  { intros t since k d. unfold changedSince. rewrite map_lookup_imap. split.
    - destruct (remoteDocuments t !! k) as [r|]; [simpl|done].
      destruct (readAfter serializer since r) eqn:Ha; [|done].
      intros [= <-]. by exists r.
    - intros (r & -> & Ha & ->). simpl. by rewrite Ha. }
  exists checkpoint. split; [done|]. split; [by apply Hlookup|].
  split; [by apply changeFeed_visits_sorted|]. split; [done|]. split; [done|].
  split; [done|]. split.
  - destruct (getNewDocumentChanges_spec serializer txn checkpoint Hkeyed)
      as (checkpoint2 & Hrun2 & Hle2 & Hmax2 & [[-> Hempty]|(k & r & Hk & Hafter & Hrt)]).
    + by rewrite Hrun2, Hempty.
    + exfalso. unfold readAfter in Hafter. rewrite Hrt in Hafter.
      destruct (Hmax k r Hk) as (rt & Hrt' & Hle').
      * unfold readAfter. rewrite Hrt.
        by apply (key_leb_ltb_trans _ (toDbTimestampKey checkpoint)).
      * simplify_eq. rewrite key_leb_ltb, Hafter in Hle'. done.
  - intros txn' Hkeyed'.
    destruct (getNewDocumentChanges_spec serializer txn' checkpoint Hkeyed')
      as (checkpoint' & Hrun' & _).
    exists checkpoint'. split; [done|]. intros k d. rewrite Hlookup.
    unfold readAfter. split.
    + intros (r & Hk & Hafter & ->).
      destruct (db_readTime serializer r) as [rt|] eqn:Hrt; [|done].
      by exists r, rt.
    + intros (r & rt & Hk & Hrt & Hlt & ->). exists r. by rewrite Hrt.
Qed.
End ScanClaims.

(** The claim C4 as it is stated fails where a removal was tracked: b/2 was
    removed, its record is a sentinel tombstone, and [getAll] returns an
    entry for it, an invalid document, beside the valid document b/1. *)
Lemma getAll_returns_placeholder_for_tombstone :
  ∃ results,
    getAll storedSerializer txn_collections ["b"] SnapshotVersion_min = Ok results ∧
    results !! key_b2 = Some (newInvalidDocument key_b2) ∧
    isValidDocument (newInvalidDocument key_b2) = false ∧
    results !! key_b1 = Some (doc key_b1 42 DOC_DATA 2) ∧
    results !! key_b1z1 = None ∧
    size results = 2%nat.
Proof. eexists. vm_compute. repeat split; reflexivity. Qed.

Lemma getAll_returns_immediate_children_witness :
  getAll storedSerializer txn_collections ["b"] SnapshotVersion_min
  = Ok (immediateChildren storedSerializer txn_collections ["b"]) ∧
  (∀ k d, immediateChildren storedSerializer txn_collections ["b"] !! k = Some d →
     length k = (length ["b"] + 1)%nat ∧ isPrefixOf ["b"] k = true ∧ key d = k) ∧
  (∀ k d, immediateChildren storedSerializer txn_collections ["b"] !! k = Some d
          ∧ isValidDocument d = true ↔
     ∃ r, remoteDocuments txn_collections !! k = Some r ∧ isImmediateChild ["b"] k = true ∧
          d = fromDbRemoteDocument storedSerializer r ∧ isSentinelRemoval d = false ∧
          isValidDocument d = true) ∧
  (∀ k r, remoteDocuments txn_collections !! k = Some r → isImmediateChild ["b"] k = true →
     isSentinelRemoval (fromDbRemoteDocument storedSerializer r) = true →
     immediateChildren storedSerializer txn_collections ["b"] !! k
     = Some (newInvalidDocument k)).
Proof.
  apply (getAll_returns_immediate_children storedSerializer txn_collections ["b"]).
  apply (bool_decide_unpack (store_keyed storedSerializer txn_collections)).
  vm_compute; exact I.
Defined.

(** The claim C5 as it is stated fails for a document read exactly at the
    bound: b/current was read at 12, and [getAll] since 12 returns b/new
    alone. *)
Lemma getAll_since_leaves_out_the_bound :
  ∃ results r,
    getAll storedSerializer txn_readTimes ["b"] (testVersion 12) = Ok results ∧
    remoteDocuments txn_readTimes !! key_bcurrent = Some r ∧
    isImmediateChild ["b"] key_bcurrent = true ∧
    db_readTime storedSerializer r = Some (toDbTimestampKey (testVersion 12)) ∧
    results !! key_bcurrent = None ∧
    results !! key_bnew = Some (doc key_bnew 3 DOC_DATA 13) ∧
    size results = 1%nat.
Proof. eexists _, _. vm_compute. repeat split; reflexivity. Qed.

Lemma getAll_since_returns_later_reads_witness :
  getAll storedSerializer txn_readTimes ["b"] (testVersion 12)
  = SimpleDbStore_iterate (DbRemoteDocumentCollectionReadTimeIndex storedSerializer)
      (Some (IDBKeyRange_lowerBound (["b"], toDbTimestampKey (testVersion 12)) true))
      (remoteDocuments txn_readTimes) (getAll_callback storedSerializer ["b"]) ∅ ∧
  getAll storedSerializer txn_readTimes ["b"] (testVersion 12)
  = Ok (immediateChildrenSince storedSerializer txn_readTimes ["b"] (testVersion 12)) ∧
  (∀ k d, immediateChildrenSince storedSerializer txn_readTimes ["b"] (testVersion 12) !! k
          = Some d ↔
     ∃ r rt, remoteDocuments txn_readTimes !! k = Some r ∧
             isImmediateChild ["b"] k = true ∧
             db_readTime storedSerializer r = Some rt ∧
             key_ltb (toDbTimestampKey (testVersion 12)) rt = true ∧
             d = maybeDecodeDocument storedSerializer k (Some r)).
Proof.
  apply (getAll_since_returns_later_reads storedSerializer txn_readTimes ["b"]
           (testVersion 12)).
  - apply (bool_decide_unpack (store_keyed storedSerializer txn_readTimes)).
    vm_compute; exact I.
  - apply (bool_decide_unpack (store_indexed storedSerializer txn_readTimes)).
    vm_compute; exact I.
  - vm_compute; reflexivity.
Defined.

(** The claim C2 as it is stated fails on the order of what is returned:
    a/1 was read after b/1, and the returned map lists a/1 first, so the
    read times of its entries are not in ascending order. *)
Lemma change_feed_returns_key_order :
  ∃ changedDocs checkpoint,
    remoteDocumentCacheGetNewDocumentChanges storedSerializer txn_feed SnapshotVersion_min
    = Ok (changedDocs, checkpoint) ∧
    (λ e, e.1) <$> MutableDocumentMap_entries changedDocs = [key_a1; key_b1] ∧
    (λ e, readTime e.2) <$> MutableDocumentMap_entries changedDocs
    = [testVersion 2; testVersion 1] ∧
    SnapshotVersion_compareTo (testVersion 2) (testVersion 1) = Gt ∧
    checkpoint = testVersion 2.
Proof. eexists _, _. vm_compute. repeat split; reflexivity. Qed.

Lemma change_feed_checkpoints_witness :
  ∃ checkpoint,
    remoteDocumentCacheGetNewDocumentChanges storedSerializer txn_feed (testVersion 1)
    = Ok (changedSince storedSerializer txn_feed (testVersion 1), checkpoint) ∧
    (∀ k d, changedSince storedSerializer txn_feed (testVersion 1) !! k = Some d ↔
       ∃ r, remoteDocuments txn_feed !! k = Some r ∧
            readAfter storedSerializer (testVersion 1) r = true ∧
            d = fromDbRemoteDocument storedSerializer r) ∧
    StronglySorted (λ e1 e2 : DbTimestampKey * (list string * StoredDocument),
                      key_leb e1.1 e2.1 = true)
                   (changeFeed_visits storedSerializer txn_feed (testVersion 1)) ∧
    key_leb (toDbTimestampKey (testVersion 1)) (toDbTimestampKey checkpoint) = true ∧
    (∀ k r, remoteDocuments txn_feed !! k = Some r →
       readAfter storedSerializer (testVersion 1) r = true →
       ∃ rt, db_readTime storedSerializer r = Some rt
             ∧ key_leb rt (toDbTimestampKey checkpoint) = true) ∧
    (checkpoint = testVersion 1 ∧ changedSince storedSerializer txn_feed (testVersion 1) = ∅
     ∨ ∃ k r, remoteDocuments txn_feed !! k = Some r ∧
              readAfter storedSerializer (testVersion 1) r = true ∧
              db_readTime storedSerializer r = Some (toDbTimestampKey checkpoint)) ∧
    remoteDocumentCacheGetNewDocumentChanges storedSerializer txn_feed checkpoint
    = Ok (∅, checkpoint) ∧
    (∀ txn' : PersistenceTransaction StoredDocument, store_keyed storedSerializer txn' →
       ∃ checkpoint',
         remoteDocumentCacheGetNewDocumentChanges storedSerializer txn' checkpoint
         = Ok (changedSince storedSerializer txn' checkpoint, checkpoint') ∧
         ∀ k d, changedSince storedSerializer txn' checkpoint !! k = Some d ↔
           ∃ r rt, remoteDocuments txn' !! k = Some r ∧
                   db_readTime storedSerializer r = Some rt ∧
                   key_ltb (toDbTimestampKey checkpoint) rt = true ∧
                   d = fromDbRemoteDocument storedSerializer r).
Proof.
  apply (change_feed_checkpoints storedSerializer txn_feed (testVersion 1)).
  apply (bool_decide_unpack (store_keyed storedSerializer txn_feed)).
  vm_compute; exact I.
Defined.

(** ** Documents as objects

    A [MutableDocument] is mutable in place, so what a caller holds is a
    reference to an object.  The heap is the list of the document objects
    built so far and a reference is a position in it.  The store is
    another matter: it holds records, the on-disk representations the
    serializer encodes, and no reference into the heap.  The cache itself
    has two fields, its serializer and its index manager, and keeps no
    document.  So the state a read works on is the store and the heap. *)

Abbreviation Heap := (list MutableDocument).

Definition heap_new (heap : Heap) (d : MutableDocument) : nat * Heap :=
  (length heap, heap ++ [d]).

(** An in-place mutation of the object behind a reference, such as
    [document.data.set(field, value)]. *)
Definition heap_mutate (f : MutableDocument → MutableDocument) (ref : nat) (heap : Heap)
    : Heap :=
  alter f ref heap.

Definition data_set (field : string) (value : FieldValue) (d : MutableDocument)
    : MutableDocument :=
  {| key := key d;
     documentType := documentType d;
     version := version d;
     readTime := readTime d;
     data := <[field := value]> (data d);
     hasLocalMutations := hasLocalMutations d;
     hasCommittedMutations := hasCommittedMutations d |}.

(** The state of the object behind a reference. *)
Definition heap_read (heap : Heap) (ref : nat) : MutableDocument :=
  default (newInvalidDocument []) (heap !! ref).

(** Two walks of a cursor over the same records, with callbacks that take
    the same decisions on related states, end in related states. *)
Lemma cursor_walk_sim `{IdbKey IK} {V S1 S2 : Type} (R : S1 → S2 → Prop)
    (callback1 : list string → V → S1 → Result (S1 * IterationControl IK))
    (callback2 : list string → V → S2 → Result (S2 * IterationControl IK))
    (records : list (IK * (list string * V))) :
  (∀ k v s1 s2, R s1 s2 →
     ∃ s1' s2' c, callback1 k v s1 = Ok (s1', c) ∧ callback2 k v s2 = Ok (s2', c)
                  ∧ R s1' s2') →
  ∀ skipTo s1 s2, R s1 s2 →
    ∃ s1' s2', cursor_walk skipTo records callback1 s1 = Ok s1' ∧
               cursor_walk skipTo records callback2 s2 = Ok s2' ∧ R s1' s2'.
Proof.
  intros Hcb. induction records as [|[ik [k v]] records IH]; intros skipTo s1 s2 Hs.
  - by exists s1, s2.
  - cbn [cursor_walk].
    destruct (match skipTo with Some target => key_ltb ik target | None => false end).
    + by apply IH.
    + destruct (Hcb k v s1 s2 Hs) as (s1' & s2' & c & -> & -> & Hs').
      destruct c; [by apply IH|by apply IH|by exists s1', s2'].
Qed.

Section Objects.
Context {DbRemoteDocument : Type}.
Variable serializer : LocalSerializer DbRemoteDocument.

Abbreviation Txn := (PersistenceTransaction DbRemoteDocument).

(** Modelled from the spec: [fromDbRemoteDocument] as the constructor it
    is (local/local_serializer.ts is not among the sources), "decode(on-disk
    representation) → document": every call builds a document object of
    its own from the record. *)
Definition fromDbRemoteDocument_object (dbRemoteDoc : DbRemoteDocument) (heap : Heap)
    : nat * Heap :=
  heap_new heap (fromDbRemoteDocument serializer dbRemoteDoc).

(** Modelled from the spec: [MutableDocument.newInvalidDocument]
    (model/document.ts is not among the sources) builds a new document
    object, "a document is mutable in place". *)
Definition newInvalidDocument_object (documentKey : DocumentKey) (heap : Heap)
    : nat * Heap :=
  heap_new heap (newInvalidDocument documentKey).

(** [maybeDecodeDocument], returning the object it returns: the one
    [fromDbRemoteDocument] has built, or, for a sentinel removal and for no
    record, the one [newInvalidDocument] builds. *)
Definition maybeDecodeDocument_object (documentKey : DocumentKey)
    (dbRemoteDoc : option DbRemoteDocument) (heap : Heap) : nat * Heap :=
  match dbRemoteDoc with
  | Some dbRemoteDoc =>
      let '(doc, heap) := fromDbRemoteDocument_object dbRemoteDoc heap in
      if negb (isSentinelRemoval (heap_read heap doc)) then (doc, heap)
      else newInvalidDocument_object documentKey heap
  | None => newInvalidDocument_object documentKey heap
  end.

Definition getEntry_object (txn : Txn) (heap : Heap) (documentKey : DocumentKey)
    : nat * Heap :=
  maybeDecodeDocument_object documentKey (remoteDocuments txn !! dbKey documentKey) heap.

(** [getEntries]: the returned map holds the objects the callback got
    from [maybeDecodeDocument]. *)
Definition getEntries_object (txn : Txn) (heap : Heap) (documentKeys : gset DocumentKey)
    : Result (gmap DocumentKey nat * Heap) :=
  forEachDbEntry txn documentKeys
    (λ key dbRemoteDoc (st : gmap DocumentKey nat * Heap),
       let '(doc, heap) := maybeDecodeDocument_object key dbRemoteDoc st.2 in
       (<[key := doc]> st.1, heap))
    (∅, heap).

Definition getAll_callback_object {IK : Type} (collection : ResourcePath)
    (rawKey : list string) (dbRemoteDoc : DbRemoteDocument)
    (st : gmap DocumentKey nat * Heap)
    : Result (gmap DocumentKey nat * Heap * IterationControl IK) :=
  let immediateChildrenPathLength := (length collection + 1)%nat in
  if negb (length rawKey =? immediateChildrenPathLength)%nat then
    Ok (st, ControlContinue)
  else
    let '(document, heap) := maybeDecodeDocument_object rawKey (Some dbRemoteDoc) st.2 in
    if isPrefixOf collection (key (heap_read heap document)) then
      Ok ((<[key (heap_read heap document) := document]> st.1, heap), ControlContinue)
    else
      Ok ((st.1, heap), ControlDone).

Definition getAll_object (txn : Txn) (heap : Heap) (collection : ResourcePath)
    (sinceReadTime : SnapshotVersion) : Result (gmap DocumentKey nat * Heap) :=
  if SnapshotVersion_isEqual sinceReadTime SnapshotVersion_min then
    let startKey := collection in
    SimpleDbStore_iterate primaryKey
      (Some (IDBKeyRange_lowerBound startKey false))
      (remoteDocuments txn) (getAll_callback_object collection) (∅, heap)
  else
    let collectionKey := collection in
    let readTimeKey := toDbTimestampKey sinceReadTime in
    SimpleDbStore_iterate (DbRemoteDocumentCollectionReadTimeIndex serializer)
      (Some (IDBKeyRange_lowerBound (collectionKey, readTimeKey) true))
      (remoteDocuments txn) (getAll_callback_object collection) (∅, heap).

(** The object [maybeDecodeDocument] returns did not exist before the
    call, holds the document the call decodes, and the call has changed no
    object that existed. *)
Lemma maybeDecodeDocument_object_spec (documentKey : DocumentKey)
    (dbRemoteDoc : option DbRemoteDocument) (heap : Heap) :
  ∃ ref new,
    maybeDecodeDocument_object documentKey dbRemoteDoc heap = (ref, heap ++ new) ∧
    (length heap ≤ ref)%nat ∧
    (heap ++ new) !! ref = Some (maybeDecodeDocument serializer documentKey dbRemoteDoc).
Proof.
  unfold maybeDecodeDocument_object, maybeDecodeDocument.
  destruct dbRemoteDoc as [r|].
  - unfold fromDbRemoteDocument_object, heap_new, heap_read.
    rewrite lookup_app_r, Nat.sub_diag by lia. cbn [lookup list_lookup default from_option].
    unfold id.
    destruct (isSentinelRemoval (fromDbRemoteDocument serializer r)); cbn [negb].
    + unfold newInvalidDocument_object, heap_new.
      exists (length (heap ++ [fromDbRemoteDocument serializer r])),
        [fromDbRemoteDocument serializer r; newInvalidDocument documentKey].
      split; [by rewrite <- app_assoc|]. rewrite length_app. split; [lia|].
      rewrite lookup_app_r by lia. cbn [length].
      by replace (length heap + 1 - length heap)%nat with 1%nat by lia.
    + exists (length heap), [fromDbRemoteDocument serializer r].
      split; [done|]. split; [lia|]. by rewrite lookup_app_r, Nat.sub_diag by lia.
  - unfold newInvalidDocument_object, heap_new.
    exists (length heap), [newInvalidDocument documentKey].
    split; [done|]. split; [lia|]. by rewrite lookup_app_r, Nat.sub_diag by lia.
Qed.

Lemma heap_lookup_extend (heap new : Heap) (ref : nat) (d : MutableDocument) :
  heap !! ref = Some d → (heap ++ new) !! ref = Some d.
Proof. intros Href. rewrite lookup_app_l; [done|]. by apply lookup_lt_Some in Href. Qed.

(** The objects of the map [getEntries] returns: one per requested key,
    none of them an object that existed before the call, each holding what
    [getEntry] returns for its key. *)
Lemma getEntries_object_fold (txn : Txn) (heap : Heap) (keys : list DocumentKey)
    (refs : gmap DocumentKey nat) (new : Heap) :
  (∀ k ref, refs !! k = Some ref →
     (length heap ≤ ref)%nat ∧ (heap ++ new) !! ref = Some (getEntry serializer txn k)) →
  ∃ refs' new',
    foldl (λ (st : gmap DocumentKey nat * Heap) k,
             let '(doc, heap) :=
               maybeDecodeDocument_object k (remoteDocuments txn !! k) st.2 in
             (<[k := doc]> st.1, heap))
          (refs, heap ++ new) keys
    = (refs', heap ++ new') ∧
    (∀ k ref, refs' !! k = Some ref →
       (length heap ≤ ref)%nat ∧ (heap ++ new') !! ref = Some (getEntry serializer txn k)) ∧
    (∀ k, is_Some (refs' !! k) ↔ is_Some (refs !! k) ∨ k ∈ keys).
Proof.
  revert refs new. induction keys as [|k0 keys IH]; intros refs new Hrefs.
  - exists refs, new. split; [done|]. split; [done|].
    intros k. split; [by left|]. intros [Hk|Hk]; [done|]. by apply elem_of_nil in Hk.
  - cbn [foldl snd fst].
    destruct (maybeDecodeDocument_object_spec k0 (remoteDocuments txn !! k0) (heap ++ new))
      as (ref0 & new0 & -> & Hle & Hobj).
    rewrite <- app_assoc in Hobj |- *. rewrite length_app in Hle.
    destruct (IH (<[k0 := ref0]> refs) (new ++ new0)) as (refs' & new' & Hrun & Hinv & Hdom).
    { intros k ref. destruct (decide (k0 = k)) as [<-|Hne].
      - rewrite lookup_insert_eq. intros [= <-]. split; [lia|done].
      - rewrite lookup_insert_ne by done. intros Hk.
        destruct (Hrefs k ref Hk) as [Hge Hold]. split; [done|].
        rewrite app_assoc. by apply heap_lookup_extend. }
    exists refs', new'. split; [done|]. split; [done|].
    intros k. rewrite Hdom, elem_of_cons. destruct (decide (k0 = k)) as [<-|Hne].
    + rewrite lookup_insert_eq. split; [eauto|]. intros _. left. eauto.
    + rewrite lookup_insert_ne by done. split.
      * intros [Hk|Hk]; [by left|by right; right].
      * intros [Hk|[Hk|Hk]]; [by left|by subst k|by right].
Qed.

Lemma getEntries_object_spec (txn : Txn) (heap : Heap) (documentKeys : gset DocumentKey) :
  ∃ refs new,
    getEntries_object txn heap documentKeys = Ok (refs, heap ++ new) ∧
    (∀ k, k ∈ documentKeys →
       ∃ ref, refs !! k = Some ref ∧ (length heap ≤ ref)%nat ∧
              (heap ++ new) !! ref = Some (getEntry serializer txn k)) ∧
    (∀ k, k ∉ documentKeys → refs !! k = None).
Proof.
  unfold getEntries_object. rewrite forEachDbEntry_spec. unfold lookup_each.
  destruct (getEntries_object_fold txn heap (getIterator documentKeys) ∅ [])
    as (refs & new & Hrun & Hinv & Hdom).
  { intros k ref. by rewrite lookup_empty. }
  rewrite app_nil_r in Hrun. exists refs, new. split; [by rewrite <- Hrun|].
  split.
  - intros k Hk. destruct (proj2 (Hdom k)) as [ref Href].
    { right. by apply elem_of_getIterator. }
    exists ref. split; [done|]. by apply Hinv.
  - intros k Hk. destruct (refs !! k) as [ref|] eqn:Href; [|done].
    destruct (proj1 (Hdom k)) as [Hin|Hin]; [by eauto| |].
    + rewrite lookup_empty in Hin. by destruct Hin.
    + by apply elem_of_getIterator in Hin.
Qed.

(** The map of objects that [getAll] returns, against the map of
    documents: the same keys, under each key an object the call has
    built, holding the document. *)
Definition objects_of (heap : Heap) (st : gmap DocumentKey nat * Heap)
    (results : gmap DocumentKey MutableDocument) : Prop :=
  (∃ new, st.2 = heap ++ new) ∧
  ∀ k, match results !! k with
       | Some d => ∃ ref, st.1 !! k = Some ref ∧ (length heap ≤ ref)%nat ∧
                          st.2 !! ref = Some d
       | None => st.1 !! k = None
       end.

Lemma getAll_callback_objects {IK : Type} (heap : Heap) (collection : ResourcePath)
    (rawKey : list string) (dbRemoteDoc : DbRemoteDocument)
    (st : gmap DocumentKey nat * Heap) (results : gmap DocumentKey MutableDocument) :
  objects_of heap st results →
  ∃ st' results' (c : IterationControl IK),
    getAll_callback_object collection rawKey dbRemoteDoc st = Ok (st', c) ∧
    getAll_callback serializer collection rawKey dbRemoteDoc results = Ok (results', c) ∧
    objects_of heap st' results'.
Proof.
  intros [[new Hheap] Hobjs]. unfold getAll_callback_object, getAll_callback.
  destruct (negb (length rawKey =? length collection + 1)%nat).
  { eexists _, _, _. split; [done|]. split; [done|]. split; [by exists new|done]. }
  destruct (maybeDecodeDocument_object_spec rawKey (Some dbRemoteDoc) st.2)
    as (ref0 & new0 & -> & Hle & Hobj).
  unfold heap_read. rewrite Hobj. cbn [default from_option]. unfold id.
  set (document := maybeDecodeDocument serializer rawKey (Some dbRemoteDoc)) in *.
  assert (∃ new', st.2 ++ new0 = heap ++ new') as Hext.
  { exists (new ++ new0). by rewrite Hheap, <- app_assoc. }
  assert (length heap ≤ length st.2)%nat as Hlen.
  { rewrite Hheap, length_app. lia. }
  destruct (isPrefixOf collection (key document)).
  - eexists _, _, _. split; [done|]. split; [done|]. split; [done|].
    intros k. cbn [fst snd]. destruct (decide (key document = k)) as [<-|Hne].
    + rewrite !lookup_insert_eq. exists ref0. split; [done|]. split; [lia|done].
    + rewrite !lookup_insert_ne by done. specialize (Hobjs k).
      destruct (results !! k) as [d|]; [|done].
      destruct Hobjs as (ref & Href & Hge & Hd). exists ref.
      split; [done|]. split; [done|]. by apply heap_lookup_extend.
  - eexists _, _, _. split; [done|]. split; [done|]. split; [done|].
    intros k. cbn [fst snd]. specialize (Hobjs k).
    destruct (results !! k) as [d|]; [|done].
    destruct Hobjs as (ref & Href & Hge & Hd). exists ref.
    split; [done|]. split; [done|]. by apply heap_lookup_extend.
Qed.

Lemma getAll_object_spec (txn : Txn) (heap : Heap) (collection : ResourcePath)
    (sinceReadTime : SnapshotVersion) :
  ∃ results refs new,
    getAll serializer txn collection sinceReadTime = Ok results ∧
    getAll_object txn heap collection sinceReadTime = Ok (refs, heap ++ new) ∧
    ∀ k, match results !! k with
         | Some d => ∃ ref, refs !! k = Some ref ∧ (length heap ≤ ref)%nat ∧
                            (heap ++ new) !! ref = Some d
         | None => refs !! k = None
         end.
Proof.
  assert (objects_of heap (∅, heap) ∅) as Hinit.
  { split; [exists []; by rewrite app_nil_r|]. intros k. by rewrite !lookup_empty. }
  unfold getAll, getAll_object, SimpleDbStore_iterate.
  destruct (SnapshotVersion_isEqual sinceReadTime SnapshotVersion_min).
  all: match goal with
       | |- context [cursor_walk None ?records (getAll_callback_object _) _] =>
           destruct (cursor_walk_sim (objects_of heap)
                       (getAll_callback_object collection)
                       (getAll_callback serializer collection) records
                       (getAll_callback_objects heap collection) None _ _ Hinit)
             as ([refs heap'] & results & Hrun1 & Hrun2 & [[new Hheap] Hobjs])
       end.
  all: cbn [fst snd] in Hheap, Hobjs; subst heap';
    exists results, refs, new; split; [done|]; split; [done|]; done.
Qed.

(** The serializer decodes what it encodes. *)
Definition serializer_round_trip : Prop :=
  ∀ d, isValidDocument d = true →
       fromDbRemoteDocument serializer (toDbRemoteDocument serializer d) = d.

(** The serializer fills in the two properties the indexes read. *)
Definition serializer_indexes : Prop :=
  ∀ d, db_parentPath serializer (toDbRemoteDocument serializer d) = popLast (key d) ∧
       db_readTime serializer (toDbRemoteDocument serializer d)
       = Some (toDbTimestampKey (readTime d)).

(** Every staged change is staged under the key of its document, as
    [addEntry] and [removeEntry] do. *)
Definition changes_keyed (buffer : IndexedDbRemoteDocumentChangeBuffer) : Prop :=
  map_Forall (λ k d, key d = k) (changes buffer).

Lemma staged_record_origin (buffer : IndexedDbRemoteDocumentChangeBuffer)
    (d : MutableDocument) (r : DbRemoteDocument) :
  staged_record serializer buffer d = Some r →
  ∃ d', r = toDbRemoteDocument serializer d' ∧ isValidDocument d' = true ∧
        key d' = key d ∧
        (d' = d ∨ d' = convertToNoDocument d SnapshotVersion_min).
Proof.
  unfold staged_record. destruct (isValidDocument d) eqn:Hvalid.
  - intros [= <-]. exists d. auto.
  - destruct (trackRemovals buffer); [|done]. intros [= <-].
    exists (convertToNoDocument d SnapshotVersion_min). auto.
Qed.

(** A commit keeps every record under the key its document has. *)
Lemma applyChanges_keeps_store_keyed
    (buffer : IndexedDbRemoteDocumentChangeBuffer) (txn txn' : Txn) :
  serializer_round_trip → changes_keyed buffer →
  store_keyed serializer txn →
  applyChanges serializer buffer txn = Ok txn' →
  store_keyed serializer txn'.
Proof.
  intros Hrt Hchanges Hkeyed Happly k r Hk.
  rewrite (applyChanges_store serializer buffer txn txn' k Happly) in Hk.
  destruct (changes buffer !! k) as [d|] eqn:Hd; [|by apply (Hkeyed _ _ Hk)].
  apply staged_record_origin in Hk as (d' & -> & Hvalid & Hkey & _).
  rewrite (Hrt d' Hvalid), Hkey. by apply (Hchanges _ _ Hd).
Qed.

(** A commit keeps every record under the parent path of its key. *)
Lemma applyChanges_keeps_store_indexed
    (buffer : IndexedDbRemoteDocumentChangeBuffer) (txn txn' : Txn) :
  serializer_indexes → changes_keyed buffer →
  store_indexed serializer txn →
  applyChanges serializer buffer txn = Ok txn' →
  store_indexed serializer txn'.
Proof.
  intros Hix Hchanges Hindexed Happly k r Hk.
  rewrite (applyChanges_store serializer buffer txn txn' k Happly) in Hk.
  destruct (changes buffer !! k) as [d|] eqn:Hd; [|by apply (Hindexed _ _ Hk)].
  apply staged_record_origin in Hk as (d' & -> & Hvalid & Hkey & _).
  destruct (Hix d') as [-> _]. rewrite Hkey. by rewrite (Hchanges _ _ Hd).
Qed.
End Objects.

Section RoundTrip.
Context {DbRemoteDocument : Type}.
Variable serializer : LocalSerializer DbRemoteDocument.

Abbreviation Txn := (PersistenceTransaction DbRemoteDocument).

(** What [getEntry] returns for a key after a commit that staged a valid
    document for it. *)
Lemma committed_document_getEntry
    (buffer : IndexedDbRemoteDocumentChangeBuffer) (txn txn' : Txn)
    (k : DocumentKey) (d : MutableDocument) :
  fromDbRemoteDocument serializer (toDbRemoteDocument serializer d) = d →
  applyChanges serializer buffer txn = Ok txn' →
  changes buffer !! k = Some d →
  isValidDocument d = true →
  isSentinelRemoval d = false →
  getEntry serializer txn' k = d.
Proof.
  intros Hrt Happly Hchange Hvalid Hsentinel. unfold getEntry, dbKey.
  rewrite (applyChanges_store serializer buffer txn txn' k Happly), Hchange.
  unfold staged_record. rewrite Hvalid. unfold maybeDecodeDocument.
  rewrite Hrt. by rewrite Hsentinel.
Qed.

(** C7, as amended.  A valid document that is not of the sentinel form (a
    no-document at the minimum version), committed through a change buffer,
    reads back equal to the original through [getEntry], [getEntries] and
    [getAll], when the serializer decodes this document from its encoding.
    The documents a read returns are objects the read has built: a read
    looks at the store only, it returns none of the objects that existed
    before it and changes none of them.  So whatever a caller does to a
    document it has been given, the next read returns another object that
    holds the document as it was committed. *)
Theorem added_document_reads_back_as_a_copy
    (buffer : IndexedDbRemoteDocumentChangeBuffer) (txn txn' : Txn)
    (k : DocumentKey) (d : MutableDocument) :
  fromDbRemoteDocument serializer (toDbRemoteDocument serializer d) = d →
  applyChanges serializer buffer txn = Ok txn' →
  changes buffer !! k = Some d →
  key d = k →
  isValidDocument d = true →
  isSentinelRemoval d = false →
  getEntry serializer txn' k = d ∧
  (∀ documentKeys, k ∈ documentKeys →
     ∃ results, getEntries serializer txn' documentKeys = Ok results ∧
                results !! k = Some d) ∧
  (store_keyed serializer txn' → k ≠ [] →
     ∃ results, getAll serializer txn' (popLast k) SnapshotVersion_min = Ok results ∧
                results !! k = Some d) ∧
  (∀ (heap : Heap) (f : MutableDocument → MutableDocument),
     let first := getEntry_object serializer txn' heap k in
     let second := getEntry_object serializer txn' (heap_mutate f first.1 first.2) k in
     (length heap ≤ first.1)%nat ∧
     first.2 !! first.1 = Some d ∧
     second.1 ≠ first.1 ∧
     second.2 !! second.1 = Some d ∧
     second.2 !! first.1 = Some (f d) ∧
     (∀ ref, ref < length heap → second.2 !! ref = heap !! ref)%nat) ∧
  (∀ (heap : Heap) documentKeys,
     ∃ refs heap',
       getEntries_object serializer txn' heap documentKeys = Ok (refs, heap') ∧
       (∀ ref, ref < length heap → heap' !! ref = heap !! ref)%nat ∧
       (∀ k', k' ∈ documentKeys →
          ∃ ref, refs !! k' = Some ref ∧ (length heap ≤ ref)%nat ∧
                 heap' !! ref = Some (getEntry serializer txn' k'))) ∧
  (∀ (heap : Heap) collection sinceReadTime,
     ∃ results refs heap',
       getAll serializer txn' collection sinceReadTime = Ok results ∧
       getAll_object serializer txn' heap collection sinceReadTime = Ok (refs, heap') ∧
       (∀ ref, ref < length heap → heap' !! ref = heap !! ref)%nat ∧
       (∀ k' d', results !! k' = Some d' →
          ∃ ref, refs !! k' = Some ref ∧ (length heap ≤ ref)%nat ∧
                 heap' !! ref = Some d')).
Proof.
  intros Hrt Happly Hchange Hkey Hvalid Hsentinel.
  pose proof (committed_document_getEntry buffer txn txn' k d
                Hrt Happly Hchange Hvalid Hsentinel) as Hread.
  split; [done|]. split; [|split; [|split; [|split]]].
  - intros documentKeys Hin.
    destruct (getEntries_spec serializer txn' documentKeys) as (results & Hrun & Hlookup).
    exists results. split; [done|]. rewrite Hlookup, decide_True by done.
    by rewrite Hread.
  - intros Hkeyed Hne. eexists. split; [by apply getAll_prefix_scan|].
    unfold immediateChildren. rewrite map_lookup_imap.
    unfold getEntry, dbKey in Hread.
    destruct (remoteDocuments txn' !! k) as [r|] eqn:Hk.
    + unfold mbind, option_bind.
      assert (isImmediateChild (popLast k) k = true) as ->.
      { unfold isImmediateChild.
        destruct (proj2 (immediate_child_popLast (popLast k) k)) as [Hlen Hp]; [done|].
        rewrite Hp, andb_true_r. by apply Nat.eqb_eq. }
      by rewrite Hread.
    + simpl in Hread. subst d. done.
  - intros heap f. unfold getEntry_object, heap_mutate.
    destruct (maybeDecodeDocument_object_spec serializer k
                (remoteDocuments txn' !! dbKey k) heap)
      as (ref1 & new1 & -> & Hle1 & Hobj1).
    cbn [fst snd].
    destruct (maybeDecodeDocument_object_spec serializer k
                (remoteDocuments txn' !! dbKey k) (alter f ref1 (heap ++ new1)))
      as (ref2 & new2 & -> & Hle2 & Hobj2).
    cbn [fst snd]. fold (getEntry serializer txn' k) in Hobj1, Hobj2.
    rewrite Hread in Hobj1, Hobj2. rewrite length_alter in Hle2.
    pose proof (lookup_lt_Some _ _ _ Hobj1) as Hlt1.
    split; [done|]. split; [done|]. split; [lia|]. split; [done|]. split.
    + rewrite lookup_app_l by (rewrite length_alter; lia).
      by rewrite list_lookup_alter_eq, Hobj1.
    + intros ref Href. rewrite length_app in Hlt1.
      rewrite lookup_app_l by (rewrite length_alter, length_app; lia).
      rewrite list_lookup_alter_ne by lia. by rewrite lookup_app_l.
  - intros heap documentKeys.
    destruct (getEntries_object_spec serializer txn' heap documentKeys)
      as (refs & new & Hrun & Hin & _).
    exists refs, (heap ++ new). split; [done|]. split; [|done].
    intros ref Href. by rewrite lookup_app_l.
  - intros heap collection sinceReadTime.
    destruct (getAll_object_spec serializer txn' heap collection sinceReadTime)
      as (results & refs & new & Hrun & Hrun' & Hobjs).
    exists results, refs, (heap ++ new). split; [done|]. split; [done|]. split.
    + intros ref Href. by rewrite lookup_app_l.
    + intros k' d' Hk'. specialize (Hobjs k'). by rewrite Hk' in Hobjs.
Qed.

(** The last write wins: a valid document that is not of the sentinel
    form replaces whatever the store held under its key, be it nothing,
    another document or a sentinel record.  After the commit [getEntry],
    [getEntries] and [getAll] on its collection return it as it was
    staged, when the serializer decodes this document from its encoding. *)
Theorem committed_document_replaces_the_entry
    (buffer : IndexedDbRemoteDocumentChangeBuffer) (txn txn' : Txn)
    (k : DocumentKey) (d : MutableDocument) :
  fromDbRemoteDocument serializer (toDbRemoteDocument serializer d) = d →
  applyChanges serializer buffer txn = Ok txn' →
  changes buffer !! k = Some d →
  key d = k →
  k ≠ [] →
  isValidDocument d = true →
  isSentinelRemoval d = false →
  store_keyed serializer txn' →
  getEntry serializer txn' k = d ∧
  (∀ documentKeys, k ∈ documentKeys →
     ∃ results, getEntries serializer txn' documentKeys = Ok results ∧
                results !! k = Some d) ∧
  (∃ results, getAll serializer txn' (popLast k) SnapshotVersion_min = Ok results ∧
              results !! k = Some d).
Proof.
  intros Hrt Happly Hchange Hkey Hne Hvalid Hsentinel Hkeyed.
  pose proof (committed_document_getEntry buffer txn txn' k d
                Hrt Happly Hchange Hvalid Hsentinel) as Hread.
  split; [done|]. split.
  - intros documentKeys Hin.
    destruct (getEntries_spec serializer txn' documentKeys) as (results & Hrun & Hlookup).
    exists results. split; [done|]. rewrite Hlookup, decide_True by done.
    by rewrite Hread.
  - eexists. split; [by apply getAll_prefix_scan|].
    rewrite immediateChildren_lookup. unfold getEntry, dbKey in Hread.
    destruct (remoteDocuments txn' !! k) as [r|] eqn:Hk.
    + cbn [mbind option_bind].
      assert (isImmediateChild (popLast k) k = true) as ->.
      { unfold isImmediateChild.
        destruct (proj2 (immediate_child_popLast (popLast k) k)) as [Hlen Hp]; [done|].
        rewrite Hp, andb_true_r. by apply Nat.eqb_eq. }
      by rewrite Hread.
    + simpl in Hread. subst d. done.
Qed.
End RoundTrip.

(** The claim C7 as it is stated fails for a document of the sentinel
    form: a no-document at the minimum version is a valid document, it is
    committed, and it reads back as the invalid document of its key. *)
Lemma sentinel_document_does_not_read_back :
  ∃ txn',
    commit storedSerializer false [(key_a1, Some (deletedDoc key_a1 0 1))]
      SnapshotVersion_min emptyTransaction = Ok txn' ∧
    isValidDocument (deletedDoc key_a1 0 1) = true ∧
    getEntry storedSerializer txn' key_a1 = newInvalidDocument key_a1 ∧
    documentType (getEntry storedSerializer txn' key_a1) = INVALID ∧
    documentType (deletedDoc key_a1 0 1) = NO_DOCUMENT.
Proof. eexists. vm_compute. repeat split; reflexivity. Qed.

Lemma added_document_reads_back_as_a_copy_witness :
  getEntry storedSerializer (txn_b true) key_b1 = doc key_b1 42 DOC_DATA 1 ∧
  (∀ documentKeys, key_b1 ∈ documentKeys →
     ∃ results, getEntries storedSerializer (txn_b true) documentKeys = Ok results ∧
                results !! key_b1 = Some (doc key_b1 42 DOC_DATA 1)) ∧
  (store_keyed storedSerializer (txn_b true) → key_b1 ≠ [] →
     ∃ results,
       getAll storedSerializer (txn_b true) (popLast key_b1) SnapshotVersion_min
       = Ok results ∧
       results !! key_b1 = Some (doc key_b1 42 DOC_DATA 1)) ∧
  (∀ (heap : Heap) (f : MutableDocument → MutableDocument),
     let first := getEntry_object storedSerializer (txn_b true) heap key_b1 in
     let second := getEntry_object storedSerializer (txn_b true)
                     (heap_mutate f first.1 first.2) key_b1 in
     (length heap ≤ first.1)%nat ∧
     first.2 !! first.1 = Some (doc key_b1 42 DOC_DATA 1) ∧
     second.1 ≠ first.1 ∧
     second.2 !! second.1 = Some (doc key_b1 42 DOC_DATA 1) ∧
     second.2 !! first.1 = Some (f (doc key_b1 42 DOC_DATA 1)) ∧
     (∀ ref, ref < length heap → second.2 !! ref = heap !! ref)%nat) ∧
  (∀ (heap : Heap) documentKeys,
     ∃ refs heap',
       getEntries_object storedSerializer (txn_b true) heap documentKeys
       = Ok (refs, heap') ∧
       (∀ ref, ref < length heap → heap' !! ref = heap !! ref)%nat ∧
       (∀ k', k' ∈ documentKeys →
          ∃ ref, refs !! k' = Some ref ∧ (length heap ≤ ref)%nat ∧
                 heap' !! ref = Some (getEntry storedSerializer (txn_b true) k'))) ∧
  (∀ (heap : Heap) collection sinceReadTime,
     ∃ results refs heap',
       getAll storedSerializer (txn_b true) collection sinceReadTime = Ok results ∧
       getAll_object storedSerializer (txn_b true) heap collection sinceReadTime
       = Ok (refs, heap') ∧
       (∀ ref, ref < length heap → heap' !! ref = heap !! ref)%nat ∧
       (∀ k' d', results !! k' = Some d' →
          ∃ ref, refs !! k' = Some ref ∧ (length heap ≤ ref)%nat ∧
                 heap' !! ref = Some d')).
Proof.
  apply (added_document_reads_back_as_a_copy storedSerializer (buffer_b true)
           emptyTransaction (txn_b true) key_b1 (doc key_b1 42 DOC_DATA 1)).
  - reflexivity.
  - vm_compute; reflexivity.
  - vm_compute; reflexivity.
  - reflexivity.
  - reflexivity.
  - reflexivity.
Defined.

(** The test 'does not apply document modifications to cache', run on
    the objects: the document read first has its field set to another
    value, and every later read, through [getEntry], [getEntries] and
    [getAll], returns another object in which the field is as committed. *)
Example reads_after_a_modification :
  let modify := heap_mutate (data_set "a" (IntegerValue 9)) in
  let first := getEntry_object storedSerializer (txn_b true) [] key_b1 in
  let heap1 := modify first.1 first.2 in
  ∃ refs2 heap2 refs3 heap3 ref2 ref3,
    getEntries_object storedSerializer (txn_b true) heap1 {[ key_b1 ]}
    = Ok (refs2, heap2) ∧
    refs2 !! key_b1 = Some ref2 ∧
    getAll_object storedSerializer (txn_b true) (modify ref2 heap2) ["b"]
      SnapshotVersion_min = Ok (refs3, heap3) ∧
    refs3 !! key_b1 = Some ref3 ∧
    first.1 = 0%nat ∧ ref2 = 1%nat ∧ ref3 = 2%nat ∧
    data <$> heap3 !! first.1 = Some (<["a" := IntegerValue 9]> DOC_DATA) ∧
    data <$> heap3 !! ref2 = Some (<["a" := IntegerValue 9]> DOC_DATA) ∧
    heap3 !! ref3 = Some (doc key_b1 42 DOC_DATA 1).
Proof. eexists _, _, _, _, _, _. vm_compute. repeat split; reflexivity. Qed.

(** ** The size counter *)

Section SizeCounter.
Context {DbRemoteDocument : Type}.
Variable serializer : LocalSerializer DbRemoteDocument.

(** The record a tracked removal leaves under a key. *)
Definition sentinelRecord (k : DocumentKey) (rt : SnapshotVersion) : DbRemoteDocument :=
  toDbRemoteDocument serializer
    (convertToNoDocument (setReadTime (newInvalidDocument k) rt) SnapshotVersion_min).

(** One document added through a change buffer of its own. *)
Lemma commit_add (tracking : bool) (d : MutableDocument) (rt : SnapshotVersion)
    (txn : PersistenceTransaction DbRemoteDocument) (metadata : DbRemoteDocumentGlobal) :
  remoteDocumentGlobal txn = Some metadata →
  isValidDocument d = true →
  SnapshotVersion_isEqual (readTime d) SnapshotVersion_min = false →
  commit serializer tracking [(key d, Some d)] rt txn
  = Ok {| remoteDocuments :=
            <[key d := toDbRemoteDocument serializer d]> (remoteDocuments txn);
          remoteDocumentGlobal :=
            Some {| byteSize :=
                      byteSize metadata
                      + (dbDocumentSize serializer (Some (toDbRemoteDocument serializer d))
                         - dbDocumentSize serializer (remoteDocuments txn !! key d)) |};
          collectionParentIndex := collectionParentIndex txn ++ [popLast (key d)] |}.
Proof.
  intros Hmeta Hvalid Hrt. unfold commit. cbn [foldl fst snd].
  unfold buffer_getEntry, newChangeBuffer. cbn [changes]. rewrite lookup_empty.
  unfold getFromCache, getSizedEntry, buffer_addEntry, buffer_apply.
  cbn [fst snd changes documentSizes trackRemovals].
  rewrite (applyChanges_Ok serializer _ txn metadata); cbn [changes]; [| |done].
  - rewrite insert_empty, map_to_list_singleton. cbn [foldl fmap list_fmap sumZ foldr].
    unfold staged_write, staged_record, staged_delta, staged_parents.
    cbn [fst snd foldl documentSizes]. rewrite Hvalid.
    unfold dbKey. rewrite lookup_insert_eq. cbn [default from_option].
    unfold SortedSet_add, id. by rewrite Z.add_0_r.
  - rewrite insert_empty, map_to_list_singleton. constructor; [|constructor].
    split; cbn [fst snd documentSizes].
    + rewrite lookup_insert_eq. eauto.
    + done.
Qed.

(** One removal committed through a change buffer of its own. *)
Lemma commit_remove (tracking : bool) (k : DocumentKey) (rt : SnapshotVersion)
    (txn : PersistenceTransaction DbRemoteDocument) (metadata : DbRemoteDocumentGlobal) :
  remoteDocumentGlobal txn = Some metadata →
  commit serializer tracking [(k, None)] rt txn
  = Ok {| remoteDocuments :=
            if tracking then <[k := sentinelRecord k rt]> (remoteDocuments txn)
            else delete k (remoteDocuments txn);
          remoteDocumentGlobal :=
            Some {| byteSize :=
                      byteSize metadata
                      - dbDocumentSize serializer (remoteDocuments txn !! k) |};
          collectionParentIndex := collectionParentIndex txn |}.
Proof.
  intros Hmeta. unfold commit. cbn [foldl fst snd].
  unfold buffer_getEntry, newChangeBuffer. cbn [changes]. rewrite lookup_empty.
  unfold getFromCache, getSizedEntry, buffer_removeEntry, buffer_apply.
  cbn [fst snd changes documentSizes trackRemovals].
  rewrite (applyChanges_Ok serializer _ txn metadata); cbn [changes]; [| |done].
  - rewrite insert_empty, map_to_list_singleton. cbn [foldl fmap list_fmap sumZ foldr].
    unfold staged_write, staged_record, staged_delta, staged_parents.
    cbn [fst snd foldl documentSizes trackRemovals].
    change (isValidDocument (setReadTime (newInvalidDocument k) rt)) with false.
    cbn iota. unfold dbKey. rewrite lookup_insert_eq. cbn [default from_option].
    unfold id, sentinelRecord. rewrite app_nil_r.
    replace (byteSize metadata
             + (0 - dbDocumentSize serializer (remoteDocuments txn !! k) + 0))
      with (byteSize metadata - dbDocumentSize serializer (remoteDocuments txn !! k))
      by lia.
    by destruct tracking.
  - rewrite insert_empty, map_to_list_singleton. constructor; [|constructor].
    split; cbn [fst snd documentSizes].
    + rewrite lookup_insert_eq. eauto.
    + done.
Qed.

(** C1, on the code: with tracked removals the size counter does not stay
    equal to the sum of the sizes of the cached documents.  A document is
    added, removed, added again and removed again, each time through a
    change buffer of its own that reads the key first.  The first removal
    takes the document's size off and leaves the sentinel record; the next
    buffer records the size of that sentinel record as the previous size
    of the key and takes it off as well.  With the document back the
    counter is its size less the size of the sentinel record, and with
    every document removed it is the negated size of the sentinel record,
    not 0. *)
Theorem tracked_removal_is_subtracted_again (d : MutableDocument) (rt : SnapshotVersion) :
  isValidDocument d = true →
  SnapshotVersion_isEqual (readTime d) SnapshotVersion_min = false →
  dbDocumentSize serializer None = 0 →
  ∃ txn1 txn2 txn3 txn4,
    commit serializer true [(key d, Some d)] rt emptyTransaction = Ok txn1 ∧
    commit serializer true [(key d, None)] rt txn1 = Ok txn2 ∧
    commit serializer true [(key d, Some d)] rt txn2 = Ok txn3 ∧
    commit serializer true [(key d, None)] rt txn3 = Ok txn4 ∧
    getSize txn1
    = Ok (dbDocumentSize serializer (Some (toDbRemoteDocument serializer d))) ∧
    getSize txn2 = Ok 0 ∧
    remoteDocuments txn3 = {[ key d := toDbRemoteDocument serializer d ]} ∧
    getSize txn3
    = Ok (dbDocumentSize serializer (Some (toDbRemoteDocument serializer d))
          - dbDocumentSize serializer (Some (sentinelRecord (key d) rt))) ∧
    remoteDocuments txn4 = {[ key d := sentinelRecord (key d) rt ]} ∧
    getSize txn4 = Ok (- dbDocumentSize serializer (Some (sentinelRecord (key d) rt))).
Proof.
  intros Hvalid Hrt Hnone.
  do 4 eexists.
  split; [by apply (commit_add true d rt emptyTransaction {| byteSize := 0 |})|].
  split; [by apply commit_remove|].
  split; [by apply commit_add|].
  split; [by apply commit_remove|].
  cbn [remoteDocuments remoteDocumentGlobal emptyTransaction].
  unfold getSize, getMetadata. simpl.
  rewrite !lookup_insert_eq, lookup_empty, Hnone.
  rewrite !insert_insert_eq, !insert_empty. unfold mret, result_ret.
  repeat split; f_equal; lia.
Qed.
End SizeCounter.

Lemma tracked_removal_is_subtracted_again_witness :
  ∃ txn1 txn2 txn3 txn4,
    commit storedSerializer true [(key_a1, Some (doc key_a1 1 DOC_DATA 1))]
      (testVersion 2) emptyTransaction = Ok txn1 ∧
    commit storedSerializer true [(key_a1, None)] (testVersion 2) txn1 = Ok txn2 ∧
    commit storedSerializer true [(key_a1, Some (doc key_a1 1 DOC_DATA 1))]
      (testVersion 2) txn2 = Ok txn3 ∧
    commit storedSerializer true [(key_a1, None)] (testVersion 2) txn3 = Ok txn4 ∧
    getSize txn1
    = Ok (dbDocumentSize storedSerializer
            (Some (toDbRemoteDocument storedSerializer (doc key_a1 1 DOC_DATA 1)))) ∧
    getSize txn2 = Ok 0 ∧
    remoteDocuments txn3
    = {[ key_a1 := toDbRemoteDocument storedSerializer (doc key_a1 1 DOC_DATA 1) ]} ∧
    getSize txn3
    = Ok (dbDocumentSize storedSerializer
            (Some (toDbRemoteDocument storedSerializer (doc key_a1 1 DOC_DATA 1)))
          - dbDocumentSize storedSerializer
              (Some (sentinelRecord storedSerializer key_a1 (testVersion 2)))) ∧
    remoteDocuments txn4
    = {[ key_a1 := sentinelRecord storedSerializer key_a1 (testVersion 2) ]} ∧
    getSize txn4
    = Ok (- dbDocumentSize storedSerializer
              (Some (sentinelRecord storedSerializer key_a1 (testVersion 2)))).
Proof.
  apply (tracked_removal_is_subtracted_again storedSerializer
           (doc key_a1 1 DOC_DATA 1) (testVersion 2)); reflexivity.
Defined.

(** The same four commits evaluated: the counter reads 7, 0, 2 and -5
    while the cache holds the document, nothing, the document and nothing. *)
Example size_counter_after_tracked_removals :
  ∃ txn1 txn2 txn3 txn4,
    commit storedSerializer true [(key_a1, Some (doc key_a1 1 DOC_DATA 1))]
      (testVersion 2) emptyTransaction = Ok txn1 ∧
    commit storedSerializer true [(key_a1, None)] (testVersion 2) txn1 = Ok txn2 ∧
    commit storedSerializer true [(key_a1, Some (doc key_a1 1 DOC_DATA 1))]
      (testVersion 2) txn2 = Ok txn3 ∧
    commit storedSerializer true [(key_a1, None)] (testVersion 2) txn3 = Ok txn4 ∧
    getSize txn1 = Ok 7 ∧
    getSize txn2 = Ok 0 ∧
    getEntry storedSerializer txn2 key_a1 = newInvalidDocument key_a1 ∧
    getSize txn3 = Ok 2 ∧
    getEntry storedSerializer txn3 key_a1 = doc key_a1 1 DOC_DATA 1 ∧
    getSize txn4 = Ok (-5) ∧
    getEntry storedSerializer txn4 key_a1 = newInvalidDocument key_a1.
Proof. do 4 eexists. vm_compute. repeat split; reflexivity. Qed.

(** Without tracked removals the same four commits keep the counter at
    the size of what is stored: 7, 0, 7 and 0. *)
Example size_counter_after_plain_removals :
  ∃ txn1 txn2 txn3 txn4,
    commit storedSerializer false [(key_a1, Some (doc key_a1 1 DOC_DATA 1))]
      (testVersion 2) emptyTransaction = Ok txn1 ∧
    commit storedSerializer false [(key_a1, None)] (testVersion 2) txn1 = Ok txn2 ∧
    commit storedSerializer false [(key_a1, Some (doc key_a1 1 DOC_DATA 1))]
      (testVersion 2) txn2 = Ok txn3 ∧
    commit storedSerializer false [(key_a1, None)] (testVersion 2) txn3 = Ok txn4 ∧
    getSize txn1 = Ok 7 ∧ getSize txn2 = Ok 0 ∧
    getSize txn3 = Ok 7 ∧ getSize txn4 = Ok 0 ∧
    remoteDocuments txn4 = ∅.
Proof. do 4 eexists. vm_compute. repeat split; reflexivity. Qed.

(** ** The size counter without tracked removals *)

Lemma sumZ_Permutation (l1 l2 : list Z) : l1 ≡ₚ l2 → sumZ l1 = sumZ l2.
Proof.
  unfold sumZ.
  induction 1 as [|x l1 l2 _ IH|x y l|l1 l2 l3 _ IH1 _ IH2]; cbn [foldr] in *; lia.
Qed.

Lemma sumZ_cons (x : Z) (l : list Z) : sumZ (x :: l) = x + sumZ l.
Proof. done. Qed.

Section SizeSum.
Context {DbRemoteDocument : Type}.
Variable serializer : LocalSerializer DbRemoteDocument.
Hypothesis size_of_no_record : dbDocumentSize serializer None = 0.

(** The sum of the sizes of the records the store holds. *)
Definition storedBytes (store : gmap (list string) DbRemoteDocument) : Z :=
  sumZ ((λ kr, dbDocumentSize serializer (Some kr.2)) <$> map_to_list store).

Lemma storedBytes_delete (store : gmap (list string) DbRemoteDocument) (k : list string) :
  storedBytes (delete k store)
  = storedBytes store - dbDocumentSize serializer (store !! k).
Proof.
  destruct (store !! k) as [r|] eqn:Hk.
  - unfold storedBytes.
    rewrite <- (sumZ_Permutation _ _
                  (fmap_Permutation _ _ _ (map_to_list_delete store k r Hk))).
    rewrite fmap_cons, sumZ_cons. cbn [snd]. lia.
  - rewrite delete_id by done. rewrite size_of_no_record. lia.
Qed.

Lemma storedBytes_insert (store : gmap (list string) DbRemoteDocument) (k : list string)
    (r : DbRemoteDocument) :
  storedBytes (<[k := r]> store)
  = storedBytes store - dbDocumentSize serializer (store !! k)
    + dbDocumentSize serializer (Some r).
Proof.
  rewrite <- insert_delete_eq. unfold storedBytes at 1.
  rewrite (sumZ_Permutation _ _
             (fmap_Permutation _ _ _
                (map_to_list_insert (delete k store) k r (lookup_delete_eq store k)))).
  rewrite fmap_cons, sumZ_cons. cbn [snd].
  fold (storedBytes (delete k store)). rewrite storedBytes_delete. lia.
Qed.

(** The writes of a commit without tracked removals change the sum by the
    deltas the loop adds up, when the recorded sizes are those of the
    records under the staged keys. *)
Lemma staged_writes_bytes (buffer : IndexedDbRemoteDocumentChangeBuffer)
    (l : list (DocumentKey * MutableDocument))
    (store : gmap (list string) DbRemoteDocument) :
  trackRemovals buffer = false →
  NoDup l.*1 →
  Forall (λ kd, documentSizes buffer !! kd.1
                = Some (dbDocumentSize serializer (store !! kd.1))) l →
  storedBytes (foldl (staged_write serializer buffer) store l)
  = storedBytes store + sumZ (staged_delta serializer buffer <$> l).
Proof.
  intros Htr. revert store. induction l as [|[k d] l IH]; intros store Hnd Hsizes.
  - cbn [foldl]. rewrite fmap_nil. unfold sumZ. cbn [foldr]. lia.
  - rewrite fmap_cons in Hnd. apply NoDup_cons in Hnd as [Hk Hnd].
    apply Forall_cons in Hsizes as [Hsize Hsizes]. cbn [fst] in Hsize, Hk.
    cbn [foldl]. rewrite fmap_cons, sumZ_cons. rewrite IH; [|done|].
    + unfold staged_write, staged_record, staged_delta. cbn [fst snd].
      rewrite Hsize, Htr. cbn [default from_option]. unfold id.
      destruct (isValidDocument d).
      * rewrite storedBytes_insert. lia.
      * rewrite storedBytes_delete. lia.
    + apply Forall_forall. intros [k' d'] Hin. cbn [fst].
      rewrite Forall_forall in Hsizes.
      pose proof (Hsizes _ Hin) as Hsize'. cbn [fst] in Hsize'. rewrite Hsize'.
      assert (k ≠ k') as Hne.
      { intros ->. apply Hk. apply list_elem_of_fmap. by exists (k', d'). }
      unfold staged_write. cbn [fst snd].
      destruct (staged_record serializer buffer d).
      * by rewrite lookup_insert_ne.
      * by rewrite lookup_delete_ne.
Qed.

(** Every staged key has, on record in the buffer, the size of the record
    the store holds under it. *)
Definition sizes_recorded (buffer : IndexedDbRemoteDocumentChangeBuffer)
    (transaction : PersistenceTransaction DbRemoteDocument) : Prop :=
  map_Forall (λ k _, documentSizes buffer !! k
                     = Some (previousSize serializer transaction k))
             (changes buffer).

Lemma buffer_tracks_sizes_recorded (buffer : IndexedDbRemoteDocumentChangeBuffer)
    (transaction : PersistenceTransaction DbRemoteDocument) (read : gset DocumentKey) :
  buffer_tracks serializer transaction read buffer → sizes_recorded buffer transaction.
Proof. intros (Hread & _ & Hstaged) k d Hk. apply Hread, Hstaged. eauto. Qed.

(** Without tracked removals a commit keeps the size counter equal to the
    sum of the sizes of the stored records: if the counter is that sum
    before a change buffer is applied, and the buffer has read the keys it
    stages from this store, the counter is that sum afterwards.  With the
    last record removed the counter is 0. *)
Theorem untracked_commit_keeps_the_size_sum
    (buffer : IndexedDbRemoteDocumentChangeBuffer)
    (txn txn' : PersistenceTransaction DbRemoteDocument) :
  trackRemovals buffer = false →
  sizes_recorded buffer txn →
  applyChanges serializer buffer txn = Ok txn' →
  getSize txn = Ok (storedBytes (remoteDocuments txn)) →
  getSize txn' = Ok (storedBytes (remoteDocuments txn')) ∧
  (remoteDocuments txn' = ∅ → getSize txn' = Ok 0).
Proof.
  intros Htr Hrec Happly Hsize.
  assert (getSize txn' = Ok (storedBytes (remoteDocuments txn'))) as Hsize'.
  { destruct (applyChanges_Ok_inv serializer buffer txn txn' Happly)
      as [Hall [metadata Hmeta]].
    rewrite (applyChanges_Ok serializer buffer txn metadata Hall Hmeta) in Happly.
    injection Happly as <-.
    unfold getSize, getMetadata in *. cbn [remoteDocuments remoteDocumentGlobal].
    rewrite Hmeta in Hsize. simpl in Hsize. injection Hsize as Hsize. simpl.
    unfold mret, result_ret. f_equal.
    rewrite staged_writes_bytes; [lia|done|apply NoDup_fst_map_to_list|].
    apply Forall_forall. intros [k d] Hin%elem_of_map_to_list. cbn [fst].
    apply (Hrec k d Hin). }
  split; [done|]. intros Hempty. rewrite Hsize', Hempty. done.
Qed.
End SizeSum.

#[global] Instance sizes_recorded_dec {DbRemoteDocument}
    (serializer : LocalSerializer DbRemoteDocument)
    (buffer : IndexedDbRemoteDocumentChangeBuffer)
    (transaction : PersistenceTransaction DbRemoteDocument) :
  Decision (sizes_recorded serializer buffer transaction).
Proof. unfold sizes_recorded. apply _. Defined.

Lemma untracked_commit_keeps_the_size_sum_witness :
  getSize (txn_b false) = Ok (storedBytes storedSerializer (remoteDocuments (txn_b false))) ∧
  (remoteDocuments (txn_b false) = ∅ → getSize (txn_b false) = Ok 0).
Proof.
  apply (untracked_commit_keeps_the_size_sum storedSerializer eq_refl
           (buffer_b false) emptyTransaction (txn_b false)).
  - reflexivity.
  - apply (bool_decide_unpack (sizes_recorded storedSerializer (buffer_b false)
                                 emptyTransaction)).
    vm_compute; exact I.
  - vm_compute; reflexivity.
  - vm_compute; reflexivity.
Defined.

(** ** What a commit keeps, and what a batch read returns *)

Lemma applyChanges_keeps_store_keyed_witness :
  store_keyed storedSerializer (@emptyTransaction StoredDocument) ∧
  store_keyed storedSerializer (txn_b true).
Proof.
  split.
  - apply (bool_decide_unpack (store_keyed storedSerializer emptyTransaction)).
    vm_compute; exact I.
  - apply (applyChanges_keeps_store_keyed storedSerializer (buffer_b true)
             emptyTransaction (txn_b true)).
    + intros d _. reflexivity.
    + apply (bool_decide_unpack (changes_keyed (buffer_b true))).
      vm_compute; exact I.
    + apply (bool_decide_unpack (store_keyed storedSerializer emptyTransaction)).
      vm_compute; exact I.
    + vm_compute; reflexivity.
Defined.

Lemma applyChanges_keeps_store_indexed_witness :
  store_indexed storedSerializer (@emptyTransaction StoredDocument) ∧
  store_indexed storedSerializer (txn_b true).
Proof.
  split.
  - apply (bool_decide_unpack (store_indexed storedSerializer emptyTransaction)).
    vm_compute; exact I.
  - apply (applyChanges_keeps_store_indexed storedSerializer (buffer_b true)
             emptyTransaction (txn_b true)).
    + intros d. split; reflexivity.
    + apply (bool_decide_unpack (changes_keyed (buffer_b true))).
      vm_compute; exact I.
    + apply (bool_decide_unpack (store_indexed storedSerializer emptyTransaction)).
      vm_compute; exact I.
    + vm_compute; reflexivity.
Defined.

(** [getEntries] always returns a result: its merge walk over the key range
    meets every requested key, and never asks its iterator for a key it
    does not have.  The result holds an entry for each requested key and
    for no other key, and the entry is what [getEntry] returns for the
    key, the invalid document where the store has no record or a sentinel
    removal. *)
Theorem getEntries_reads_each_key {DbRemoteDocument : Type}
    (serializer : LocalSerializer DbRemoteDocument)
    (transaction : PersistenceTransaction DbRemoteDocument)
    (documentKeys : gset DocumentKey) :
  ∃ results,
    getEntries serializer transaction documentKeys = Ok results ∧
    (∀ k, k ∈ documentKeys → results !! k = Some (getEntry serializer transaction k)) ∧
    (∀ k, k ∉ documentKeys → results !! k = None).
Proof.
  destruct (getEntries_spec serializer transaction documentKeys) as (results & Hrun & Hlookup).
  exists results. split; [done|]. split; intros k Hk; rewrite Hlookup.
  - by rewrite decide_True.
  - by rewrite decide_False.
Qed.

(** * The rest of the cache *)

(** ** The last read time *)

(** Modelled from the spec: [SimpleDbStore.iterate] in "reverse order"
    (local/simple_db.ts is not among the sources).  The cursor visits the
    records from the last to the first; after a skip it passes over the
    records whose key is after the one asked for. *)
Fixpoint cursor_walk_reverse `{IdbKey IK} {V S : Type} (skipTo : option IK)
    (records : list (IK * (list string * V)))
    (callback : list string → V → S → Result (S * IterationControl IK))
    (s : S) : Result S :=
  match records with
  | [] => Ok s
  | (ik, (k, v)) :: rest =>
      if match skipTo with Some target => key_ltb target ik | None => false end
      then cursor_walk_reverse skipTo rest callback s
      else
        match callback k v s with
        | AssertionFailed msg => AssertionFailed msg
        | Ok (s', ControlContinue) => cursor_walk_reverse None rest callback s'
        | Ok (s', ControlSkip target) => cursor_walk_reverse (Some target) rest callback s'
        | Ok (s', ControlDone) => Ok s'
        end
  end.

Definition SimpleDbStore_iterate_reverse `{IdbKey IK} {V S : Type}
    (index : list string → V → option IK) (range : option (IDBKeyRange IK))
    (store : gmap (list string) V)
    (callback : list string → V → S → Result (S * IterationControl IK))
    (s : S) : Result S :=
  cursor_walk_reverse None
    (reverse
       (filter (λ e, match range with
                     | Some r => IDBKeyRange_includes r e.1
                     | None => true
                     end = true)
               (cursor_records index store)))
    callback s.

Lemma filter_all {A} (P : A → Prop) `{!∀ x, Decision (P x)} (l : list A) :
  (∀ x, P x) → filter P l = l.
Proof.
  intros HP. induction l as [|x l IH]; [done|].
  rewrite filter_cons_True by done. by rewrite IH.
Qed.

Section LastReadTime.
Context {DbRemoteDocument : Type}.
Variable serializer : LocalSerializer DbRemoteDocument.

Abbreviation Txn := (PersistenceTransaction DbRemoteDocument).

Definition getLastReadTime_callback
    (_ : list string) (dbRemoteDoc : DbRemoteDocument) (readTime : SnapshotVersion)
    : Result (SnapshotVersion * IterationControl DbTimestampKey) :=
  let readTime :=
    match db_readTime serializer dbRemoteDoc with
    | Some dbReadTime => fromDbTimestampKey dbReadTime
    | None => readTime
    end in
  Ok (readTime, ControlDone).

Definition remoteDocumentCacheGetLastReadTime (transaction : Txn)
    : Result SnapshotVersion :=
  (* If there are no existing entries, we return SnapshotVersion.min(). *)
  SimpleDbStore_iterate_reverse (DbRemoteDocumentReadTimeIndex serializer) None
    (remoteDocuments transaction) getLastReadTime_callback SnapshotVersion_min.

(** The last read time is the read time of the last record of the read
    time index: no stored read time is after it.  It is the minimum
    version when no record has a read time. *)
Lemma getLastReadTime_spec (transaction : Txn) :
  ∃ readTime,
    remoteDocumentCacheGetLastReadTime transaction = Ok readTime ∧
    (∀ k r rt, remoteDocuments transaction !! k = Some r →
               db_readTime serializer r = Some rt →
               key_leb rt (toDbTimestampKey readTime) = true) ∧
    (readTime = SnapshotVersion_min ∧
     (∀ k r, remoteDocuments transaction !! k = Some r →
             db_readTime serializer r = None)
     ∨ ∃ k r, remoteDocuments transaction !! k = Some r ∧
              db_readTime serializer r = Some (toDbTimestampKey readTime)).
Proof.
  unfold remoteDocumentCacheGetLastReadTime, SimpleDbStore_iterate_reverse.
  rewrite filter_all by done.
  pose proof (cursor_records_sorted (DbRemoteDocumentReadTimeIndex serializer)
                (remoteDocuments transaction)) as Hsorted.
  pose proof (λ ik k v,
              elem_of_cursor_records (DbRemoteDocumentReadTimeIndex serializer)
                (remoteDocuments transaction) ik k v) as Hin.
  rewrite <- (reverse_involutive (cursor_records _ _)) in Hsorted, Hin.
  destruct (reverse (cursor_records _ _)) as [|[ik [k v]] rest].
  - exists SnapshotVersion_min. split; [done|].
    assert (∀ k r, remoteDocuments transaction !! k = Some r →
                   db_readTime serializer r = None) as Hnone.
    { intros k r Hk. destruct (db_readTime serializer r) as [rt|] eqn:Hrt; [|done].
      assert ((rt, (k, r)) ∈ reverse (@nil (DbTimestampKey * (list string * DbRemoteDocument))))
        as Hel by (by apply Hin).
      by apply elem_of_nil in Hel. }
    split; [|by left]. intros k r rt Hk Hrt. by rewrite (Hnone k r Hk) in Hrt.
  - cbn [cursor_walk_reverse]. unfold getLastReadTime_callback.
    assert (remoteDocuments transaction !! k = Some v
            ∧ db_readTime serializer v = Some ik) as [Hk Hik].
    { apply Hin. rewrite reverse_cons. apply elem_of_app. right. by left. }
    rewrite Hik. exists (fromDbTimestampKey ik).
    rewrite toDbTimestampKey_fromDbTimestampKey. split; [done|].
    split; [|right; by exists k, v].
    intros k' r' rt' Hk' Hrt'.
    assert ((rt', (k', r')) ∈ reverse ((ik, (k, v)) :: rest)) as Hel by (by apply Hin).
    rewrite reverse_cons in Hel, Hsorted.
    apply elem_of_app in Hel as [Hel|Hel].
    + pose proof (StronglySorted_app_1_elem_of _ _ _ _ _ Hsorted Hel
                    (list_elem_of_here _ _)) as Hle.
      unfold cursor_le in Hle. cbn [fst snd] in Hle.
      by apply key_leb_pair_fst in Hle.
    + apply list_elem_of_singleton in Hel. injection Hel as -> _ _. apply key_leb_refl.
Qed.
End LastReadTime.

Section LastReadTimeFacts.
Context {DbRemoteDocument : Type}.
Variable serializer : LocalSerializer DbRemoteDocument.

(** [remoteDocumentCacheGetLastReadTime] always returns, and what it
    returns is the latest read time in the store: no record has a later
    one, and some record has exactly this one unless no record has a read
    time at all, in which case it is the minimum version.  A change feed
    started from it skips everything already stored: it returns no
    document and the same read time as its checkpoint. *)
Theorem last_read_time_skips_previous_changes
    (transaction : PersistenceTransaction DbRemoteDocument) :
  ∃ readTime,
    remoteDocumentCacheGetLastReadTime serializer transaction = Ok readTime ∧
    (∀ k r rt, remoteDocuments transaction !! k = Some r →
               db_readTime serializer r = Some rt →
               key_leb rt (toDbTimestampKey readTime) = true) ∧
    (readTime = SnapshotVersion_min ∧
     (∀ k r, remoteDocuments transaction !! k = Some r →
             db_readTime serializer r = None)
     ∨ ∃ k r, remoteDocuments transaction !! k = Some r ∧
              db_readTime serializer r = Some (toDbTimestampKey readTime)) ∧
    remoteDocumentCacheGetNewDocumentChanges serializer transaction readTime
    = Ok (∅, readTime).
Proof.
  destruct (getLastReadTime_spec serializer transaction)
    as (readTime & Hrun & Hmax & Hattained).
  exists readTime. split; [done|]. split; [done|]. split; [done|].
  unfold remoteDocumentCacheGetNewDocumentChanges. rewrite changeFeed_walk.
  assert (changeFeed_visits serializer transaction readTime = []) as ->.
  { destruct (changeFeed_visits serializer transaction readTime)
      as [|[rt [k v]] rest] eqn:Hvisits; [done|].
    assert ((rt, (k, v)) ∈ changeFeed_visits serializer transaction readTime) as Hel
      by (rewrite Hvisits; by left).
    apply elem_of_changeFeed_visits in Hel as (Hk & Hrt & Hlt).
    pose proof (Hmax k v rt Hk Hrt) as Hle.
    rewrite key_leb_ltb, Hlt in Hle. done. }
  cbn [foldl mbind result_mbind result_bind mret result_ret].
  by rewrite fromDbTimestampKey_toDbTimestampKey.
Qed.
End LastReadTimeFacts.

(** ** Batch reads and scans *)

Section ReadFacts.
Context {DbRemoteDocument : Type}.
Variable serializer : LocalSerializer DbRemoteDocument.

Abbreviation Txn := (PersistenceTransaction DbRemoteDocument).

Lemma foldl_snoc_trace {A B} (f : A → B) (l : list A) (trace : list B) :
  foldl (λ trace x, trace ++ [f x]) trace l = trace ++ (f <$> l).
Proof.
  revert trace. induction l as [|x l IH]; intros trace; cbn [foldl fmap list_fmap].
  - by rewrite app_nil_r.
  - rewrite IH. by rewrite <- app_assoc.
Qed.

(** [forEachDbEntry] calls back exactly once for every requested key, in
    the order of the keys, with the record the store holds under the key
    or with null where it holds none, whatever the store holds besides:
    in between, before the first and after the last requested key. *)
Theorem forEachDbEntry_calls_back_in_key_order (transaction : Txn)
    (documentKeys : gset DocumentKey) :
  forEachDbEntry transaction documentKeys
    (λ key dbRemoteDoc calls, calls ++ [(key, dbRemoteDoc)]) []
  = Ok ((λ k, (k, remoteDocuments transaction !! k)) <$> getIterator documentKeys) ∧
  StronglySorted key_lt (getIterator documentKeys) ∧
  (∀ k, k ∈ getIterator documentKeys ↔ k ∈ documentKeys).
Proof.
  split; [|split].
  - rewrite forEachDbEntry_spec. unfold lookup_each.
    by rewrite (foldl_snoc_trace (λ k, (k, remoteDocuments transaction !! k))).
  - apply getIterator_sorted.
  - apply elem_of_getIterator.
Qed.

(** [getSizedEntries] always returns a result, and it reports for each
    requested key the document and the size that [getSizedEntry] reports
    for the key; its documents are those of [getEntries].  Keys that were
    not requested have no entry in either map. *)
Theorem getSizedEntries_agrees_with_getSizedEntry (transaction : Txn)
    (documentKeys : gset DocumentKey) :
  ∃ documents sizeMap,
    getSizedEntries serializer transaction documentKeys = Ok (documents, sizeMap) ∧
    getEntries serializer transaction documentKeys = Ok documents ∧
    (∀ k, k ∈ documentKeys →
       documents !! k = Some (getSizedEntry serializer transaction k).1 ∧
       sizeMap !! k = Some (getSizedEntry serializer transaction k).2) ∧
    (∀ k, k ∉ documentKeys → documents !! k = None ∧ sizeMap !! k = None).
Proof.
  destruct (getSizedEntries_spec serializer transaction documentKeys)
    as (documents & sizeMap & Hsized & Hentries & Hsizes).
  destruct (getEntries_spec serializer transaction documentKeys)
    as (documents' & Hentries' & Hdocs).
  rewrite Hentries in Hentries'. injection Hentries' as <-.
  exists documents, sizeMap. split; [done|]. split; [done|].
  split; intros k Hk; rewrite Hdocs, Hsizes.
  - by rewrite !decide_True.
  - by rewrite !decide_False.
Qed.

(** A read time only narrows [getAll]: what it returns for a collection
    since a read time is part of what it returns for the collection
    without one, and each entry of either result is what [getEntry]
    returns for its key. *)
Theorem getAll_since_narrows_getAll (transaction : Txn) (collection : ResourcePath)
    (sinceReadTime : SnapshotVersion) :
  store_keyed serializer transaction →
  store_indexed serializer transaction →
  ∃ children later,
    getAll serializer transaction collection SnapshotVersion_min = Ok children ∧
    getAll serializer transaction collection sinceReadTime = Ok later ∧
    later ⊆ children ∧
    (∀ k d, children !! k = Some d → d = getEntry serializer transaction k).
Proof.
  intros Hkeyed Hindexed.
  exists (immediateChildren serializer transaction collection).
  assert (∀ k d, immediateChildren serializer transaction collection !! k = Some d →
                 d = getEntry serializer transaction k) as Hread.
  { intros k d. rewrite immediateChildren_lookup. unfold getEntry, dbKey.
    destruct (remoteDocuments transaction !! k) as [r|]; [simpl|done].
    destruct (isImmediateChild collection k); [|done]. by intros [= <-]. }
  destruct (SnapshotVersion_isEqual sinceReadTime SnapshotVersion_min) eqn:Hsince.
  - apply SnapshotVersion_isEqual_eq in Hsince as ->.
    exists (immediateChildren serializer transaction collection).
    rewrite getAll_prefix_scan by done. done.
  - exists (immediateChildrenSince serializer transaction collection sinceReadTime).
    rewrite getAll_prefix_scan, getAll_index_scan by done.
    split; [done|]. split; [done|]. split; [|done].
    apply map_subseteq_spec. intros k d.
    rewrite immediateChildrenSince_lookup, immediateChildren_lookup.
    destruct (remoteDocuments transaction !! k) as [r|]; [simpl|done].
    destruct (isImmediateChild collection k); [|done].
    by destruct (readAfter serializer sinceReadTime r).
Qed.
End ReadFacts.

(** ** What a commit does to the cache *)

Section CommitFacts.
Context {DbRemoteDocument : Type}.
Variable serializer : LocalSerializer DbRemoteDocument.

Abbreviation Txn := (PersistenceTransaction DbRemoteDocument).
Abbreviation Buffer := IndexedDbRemoteDocumentChangeBuffer.

(** A commit touches the staged keys only: under every other key the
    store holds what it held, so [getEntry] and [getSizedEntry] answer as
    before; and the collection parent index is only added to. *)
Theorem commit_leaves_unstaged_keys (buffer : Buffer) (txn txn' : Txn)
    (k : DocumentKey) :
  applyChanges serializer buffer txn = Ok txn' →
  changes buffer !! k = None →
  remoteDocuments txn' !! k = remoteDocuments txn !! k ∧
  getEntry serializer txn' k = getEntry serializer txn k ∧
  getSizedEntry serializer txn' k = getSizedEntry serializer txn k ∧
  ∃ parents, collectionParentIndex txn' = collectionParentIndex txn ++ parents.
Proof.
  intros Happly Hk.
  pose proof (applyChanges_store serializer buffer txn txn' k Happly) as Hstore.
  rewrite Hk in Hstore. split; [done|].
  unfold getSizedEntry, getEntry, dbKey. rewrite Hstore. split; [done|]. split; [done|].
  destruct (applyChanges_Ok_inv serializer buffer txn txn' Happly)
    as [Hall [metadata Hmeta]].
  rewrite (applyChanges_Ok serializer buffer txn metadata Hall Hmeta) in Happly.
  injection Happly as <-. by eexists.
Qed.

(** A removed document reads as the invalid document of its key, whether
    the removal deleted the record or, being tracked, left a sentinel
    record; for the latter the serializer has to decode what it encodes. *)
Theorem removed_document_reads_invalid (buffer : Buffer) (txn txn' : Txn)
    (k : DocumentKey) (d : MutableDocument) :
  (trackRemovals buffer = true → serializer_round_trip serializer) →
  applyChanges serializer buffer txn = Ok txn' →
  changes buffer !! k = Some d →
  isValidDocument d = false →
  getEntry serializer txn' k = newInvalidDocument k ∧
  (∀ documentKeys, k ∈ documentKeys →
     ∃ results, getEntries serializer txn' documentKeys = Ok results ∧
                results !! k = Some (newInvalidDocument k)).
Proof.
  intros Hrt Happly Hk Hinvalid.
  assert (getEntry serializer txn' k = newInvalidDocument k) as Hread.
  { unfold getEntry, dbKey.
    rewrite (applyChanges_store serializer buffer txn txn' k Happly), Hk.
    unfold staged_record. rewrite Hinvalid.
    destruct (trackRemovals buffer); [|done].
    unfold maybeDecodeDocument. rewrite (Hrt eq_refl) by done.
    unfold isSentinelRemoval, isNoDocument. cbn [documentType version convertToNoDocument].
    by rewrite (proj2 (SnapshotVersion_isEqual_eq _ _) eq_refl). }
  split; [done|]. intros documentKeys Hin.
  destruct (getEntries_spec serializer txn' documentKeys) as (results & Hrun & Hlookup).
  exists results. split; [done|]. by rewrite Hlookup, decide_True, Hread.
Qed.

(** The change feed reports a tracked removal and misses an untracked
    one: after a commit that removes a key at a read time after the
    bound, the feed holds for the key the no-document at the minimum
    version that carries this read time when removals are tracked, and no
    entry when they are not. *)
Theorem change_feed_reports_tracked_removals (buffer : Buffer) (txn txn' : Txn)
    (k : DocumentKey) (d : MutableDocument) (sinceReadTime : SnapshotVersion) :
  serializer_round_trip serializer →
  serializer_indexes serializer →
  applyChanges serializer buffer txn = Ok txn' →
  store_keyed serializer txn' →
  changes buffer !! k = Some d →
  isValidDocument d = false →
  key_ltb (toDbTimestampKey sinceReadTime) (toDbTimestampKey (readTime d)) = true →
  ∃ changedDocs checkpoint,
    remoteDocumentCacheGetNewDocumentChanges serializer txn' sinceReadTime
    = Ok (changedDocs, checkpoint) ∧
    changedDocs !! k
    = (if trackRemovals buffer
       then Some (convertToNoDocument d SnapshotVersion_min) else None) ∧
    readTime (convertToNoDocument d SnapshotVersion_min) = readTime d ∧
    isSentinelRemoval (convertToNoDocument d SnapshotVersion_min) = true.
Proof.
  intros Hrt Hix Happly Hkeyed Hk Hinvalid Hlater.
  destruct (getNewDocumentChanges_spec serializer txn' sinceReadTime Hkeyed)
    as (checkpoint & Hrun & _).
  eexists _, checkpoint. split; [exact Hrun|]. split; [|done].
  unfold changedSince. rewrite map_lookup_imap.
  rewrite (applyChanges_store serializer buffer txn txn' k Happly), Hk.
  unfold staged_record. rewrite Hinvalid.
  destruct (trackRemovals buffer); [|done]. cbn [mbind option_bind].
  unfold readAfter. destruct (Hix (convertToNoDocument d SnapshotVersion_min)) as [_ ->].
  cbn [readTime convertToNoDocument]. rewrite Hlater. by rewrite Hrt.
Qed.
End CommitFacts.

Section CommitMisuse.
Context {DbRemoteDocument : Type}.
Variable serializer : LocalSerializer DbRemoteDocument.

Abbreviation Txn := (PersistenceTransaction DbRemoteDocument).
Abbreviation Buffer := IndexedDbRemoteDocumentChangeBuffer.

Lemma staged_writes_twice (buffer : Buffer) (l : list (DocumentKey * MutableDocument))
    (store : gmap (list string) DbRemoteDocument) :
  NoDup l.*1 →
  foldl (staged_write serializer buffer) (foldl (staged_write serializer buffer) store l) l
  = foldl (staged_write serializer buffer) store l.
Proof.
  intros Hnd. apply map_eq. intros k.
  rewrite !(staged_writes_lookup serializer buffer l _ k Hnd).
  by destruct (list_to_map l !! k).
Qed.

(** Modelled from the spec: "a document is mutable in place"
    (model/document.ts is not among the sources).  [convertToNoDocument]
    acts on the staged document itself, so after [applyChanges] a tracked
    removal is staged as the no-document it was converted to.  Valid
    documents and untracked removals are only read. *)
Definition staged_after_applyChanges (buffer : Buffer) (documentChange : MutableDocument)
    : MutableDocument :=
  if isValidDocument documentChange then documentChange
  else if trackRemovals buffer
       then convertToNoDocument documentChange SnapshotVersion_min
       else documentChange.

Definition buffer_after_applyChanges (buffer : Buffer) : Buffer :=
  {| changes := staged_after_applyChanges buffer <$> changes buffer;
     documentSizes := documentSizes buffer;
     trackRemovals := trackRemovals buffer |}.

(** [applyChanges] has no guard of its own against a second call.  For a
    buffer whose commit takes no tracked removal (removals are not
    tracked, or every staged document is valid) the first call leaves the
    buffer as it was, and on the transaction it has produced the call
    succeeds again, writes the same records, so the store is as after the
    first call, and adds the same size delta to the counter a second
    time. *)
Theorem applying_twice_counts_twice (buffer : Buffer) (txn txn1 : Txn) :
  (trackRemovals buffer = false ∨
   ∀ k d, changes buffer !! k = Some d → isValidDocument d = true) →
  applyChanges serializer buffer txn = Ok txn1 →
  buffer_after_applyChanges buffer = buffer ∧
  ∃ txn2 size0 size1,
    applyChanges serializer (buffer_after_applyChanges buffer) txn1 = Ok txn2 ∧
    remoteDocuments txn2 = remoteDocuments txn1 ∧
    getSize txn = Ok size0 ∧
    getSize txn1 = Ok size1 ∧
    getSize txn2 = Ok (size1 + (size1 - size0)).
Proof.
  intros Hkept Happly.
  assert (buffer_after_applyChanges buffer = buffer) as Hsame.
  { assert (staged_after_applyChanges buffer <$> changes buffer = changes buffer) as Hch.
    { apply map_eq. intros k. rewrite lookup_fmap.
      destruct (changes buffer !! k) as [d|] eqn:Hk; [|done].
      cbn [fmap option_fmap option_map]. f_equal. unfold staged_after_applyChanges.
      destruct Hkept as [Htr|Hvalid].
      - rewrite Htr. by destruct (isValidDocument d).
      - by rewrite (Hvalid k d Hk). }
    unfold buffer_after_applyChanges. rewrite Hch. by destruct buffer. }
  split; [done|]. rewrite Hsame.
  destruct (applyChanges_Ok_inv serializer buffer txn txn1 Happly)
    as [Hall [metadata Hmeta]].
  rewrite (applyChanges_Ok serializer buffer txn metadata Hall Hmeta) in Happly.
  injection Happly as <-.
  eexists _, (byteSize metadata), _. split.
  { by apply (applyChanges_Ok serializer buffer). }
  cbn [remoteDocuments remoteDocumentGlobal].
  split; [apply staged_writes_twice, NoDup_fst_map_to_list|].
  unfold getSize, getMetadata. rewrite Hmeta. cbn [remoteDocumentGlobal].
  cbn [mbind result_mbind result_bind mret result_ret byteSize].
  split; [done|]. split; [done|]. f_equal. lia.
Qed.

(** A commit that succeeds has met its assertions: every staged key had
    been read through the buffer, no valid staged document has a read
    time of zero, and the transaction has the metadata row, before and
    after.  Without the metadata row a commit fails whatever is staged,
    and with nothing staged it fails with the message of [getMetadata]. *)
Theorem successful_commit_met_its_assertions (buffer : Buffer) (txn : Txn) :
  (∀ txn', applyChanges serializer buffer txn = Ok txn' →
     (∀ k d, changes buffer !! k = Some d →
        is_Some (documentSizes buffer !! k) ∧
        (isValidDocument d = true →
         SnapshotVersion_isEqual (readTime d) SnapshotVersion_min = false)) ∧
     is_Some (remoteDocumentGlobal txn) ∧
     is_Some (remoteDocumentGlobal txn')) ∧
  (remoteDocumentGlobal txn = None →
     ∃ msg, applyChanges serializer buffer txn = AssertionFailed msg) ∧
  (remoteDocumentGlobal txn = None → changes buffer = ∅ →
     applyChanges serializer buffer txn = AssertionFailed missingMetadataMessage).
Proof.
  split; [|split].
  - intros txn' Happly.
    destruct (applyChanges_Ok_inv serializer buffer txn txn' Happly)
      as [Hall [metadata Hmeta]].
    split; [|split; [by rewrite Hmeta|]].
    + intros k d Hk. rewrite Forall_forall in Hall.
      apply (Hall (k, d)). by apply elem_of_map_to_list.
    + rewrite (applyChanges_Ok serializer buffer txn metadata Hall Hmeta) in Happly.
      injection Happly as <-. by eexists.
  - intros Hmeta.
    destruct (applyChanges serializer buffer txn) as [txn'|msg] eqn:Happly; [|by eauto].
    destruct (applyChanges_Ok_inv serializer buffer txn txn' Happly)
      as [_ [metadata Hmeta']].
    by rewrite Hmeta in Hmeta'.
  - intros Hmeta Hempty.
    destruct (applyChanges serializer buffer txn) as [txn'|msg] eqn:Happly.
    + destruct (applyChanges_Ok_inv serializer buffer txn txn' Happly)
        as [_ [metadata Hmeta']].
      by rewrite Hmeta in Hmeta'.
    + destruct (applyChanges_failure serializer buffer txn msg Happly)
        as [(k & d & Hk & _)|(_ & _ & ->)]; [|done].
      by rewrite Hempty, lookup_empty in Hk.
Qed.
End CommitMisuse.

Section FeedFacts.
Context {DbRemoteDocument : Type}.
Variable serializer : LocalSerializer DbRemoteDocument.

Abbreviation Txn := (PersistenceTransaction DbRemoteDocument).
Abbreviation Buffer := IndexedDbRemoteDocumentChangeBuffer.

(** Whatever the store holds, [getAll] returns a result in which every
    entry is filed under the key of its own document, that key lies
    within the collection, and the document is not a sentinel removal. *)
Theorem getAll_entries_are_keyed_in_the_collection (transaction : Txn)
    (collection : ResourcePath) (sinceReadTime : SnapshotVersion) :
  ∃ results,
    getAll serializer transaction collection sinceReadTime = Ok results ∧
    ∀ k d, results !! k = Some d →
      key d = k ∧ isPrefixOf collection k = true ∧ isSentinelRemoval d = false.
Proof.
  unfold getAll, SimpleDbStore_iterate.
  destruct (SnapshotVersion_isEqual sinceReadTime SnapshotVersion_min);
    apply (cursor_walk_invariant
             (λ m : gmap DocumentKey MutableDocument,
                ∀ k d, m !! k = Some d →
                  key d = k ∧ isPrefixOf collection k = true
                  ∧ isSentinelRemoval d = false)).
  all: try (intros k d; by rewrite lookup_empty).
  all: intros k v s Hs; unfold getAll_callback;
    destruct (negb _); [by eauto|];
    destruct (isPrefixOf _ _) eqn:Hprefix; [|by eauto];
    eexists _, _; split; [done|];
    intros k' d'; destruct (decide (key (maybeDecodeDocument serializer k (Some v)) = k'))
      as [<-|Hne];
    [rewrite lookup_insert_eq; intros [= <-]; split; [done|]; split; [done|];
     apply (maybeDecodeDocument_not_sentinel serializer k (Some v))
    |rewrite lookup_insert_ne by done; apply Hs].
Qed.

(** A change feed started from the last read time of the cache sees the
    next commit and nothing else: it has no entry for a key the commit
    did not stage, and for a staged key it has the record the commit left
    there, decoded, if that record's read time is after the last read
    time.  With a serializer that decodes what it encodes and writes the
    read time, a valid document staged with a later read time is in the
    feed as it was staged. *)
Theorem feed_from_last_read_time_sees_the_commit (buffer : Buffer) (txn txn' : Txn)
    (lastReadTime : SnapshotVersion) :
  remoteDocumentCacheGetLastReadTime serializer txn = Ok lastReadTime →
  applyChanges serializer buffer txn = Ok txn' →
  store_keyed serializer txn' →
  ∃ changedDocs checkpoint,
    remoteDocumentCacheGetNewDocumentChanges serializer txn' lastReadTime
    = Ok (changedDocs, checkpoint) ∧
    (∀ k, changes buffer !! k = None → changedDocs !! k = None) ∧
    (∀ k d, changes buffer !! k = Some d →
       changedDocs !! k
       = staged_record serializer buffer d ≫= λ r,
           if readAfter serializer lastReadTime r
           then Some (fromDbRemoteDocument serializer r) else None) ∧
    (serializer_round_trip serializer → serializer_indexes serializer →
     ∀ k d, changes buffer !! k = Some d → isValidDocument d = true →
       key_ltb (toDbTimestampKey lastReadTime) (toDbTimestampKey (readTime d)) = true →
       changedDocs !! k = Some d).
Proof.
  intros Hlast Happly Hkeyed.
  destruct (getLastReadTime_spec serializer txn) as (readTime' & Hrun & Hmax & _).
  rewrite Hlast in Hrun. injection Hrun as <-.
  destruct (getNewDocumentChanges_spec serializer txn' lastReadTime Hkeyed)
    as (checkpoint & Hfeed & _).
  eexists _, checkpoint. split; [exact Hfeed|].
  assert (∀ k d, changes buffer !! k = Some d →
            changedSince serializer txn' lastReadTime !! k
            = staged_record serializer buffer d ≫= λ r,
                if readAfter serializer lastReadTime r
                then Some (fromDbRemoteDocument serializer r) else None) as Hstaged.
  { intros k d Hk. unfold changedSince. rewrite map_lookup_imap.
    by rewrite (applyChanges_store serializer buffer txn txn' k Happly), Hk. }
  split; [|split; [done|]].
  - intros k Hk. unfold changedSince. rewrite map_lookup_imap.
    rewrite (applyChanges_store serializer buffer txn txn' k Happly), Hk.
    destruct (remoteDocuments txn !! k) as [r|] eqn:Hr; [|done].
    cbn [mbind option_bind]. unfold readAfter.
    destruct (db_readTime serializer r) as [rt|] eqn:Hrt; [|done].
    pose proof (Hmax k r rt Hr Hrt) as Hle. rewrite key_leb_ltb in Hle.
    by destruct (key_ltb (toDbTimestampKey lastReadTime) rt).
  - intros Hrt Hix k d Hk Hvalid Hlater. rewrite (Hstaged k d Hk).
    unfold staged_record. rewrite Hvalid. cbn [mbind option_bind].
    unfold readAfter. destruct (Hix d) as [_ ->]. rewrite Hlater.
    by rewrite Hrt.
Qed.
End FeedFacts.

(** ** The statements above on the stores of the tests *)

(** A buffer over the store of two documents that has read c/1 and stages
    a document for it, read at 5. *)
Definition buffer_c : IndexedDbRemoteDocumentChangeBuffer :=
  let buffer := newChangeBuffer (Some true) in
  let buffer := (buffer_getEntry storedSerializer buffer txn_feed key_c1).1 in
  buffer_addEntry buffer (doc key_c1 3 DOC_DATA 5).

Definition txn_c : PersistenceTransaction StoredDocument :=
  Eval vm_compute in unwrap (applyChanges storedSerializer buffer_c txn_feed).

Lemma getAll_since_narrows_getAll_witness :
  ∃ children later,
    getAll storedSerializer txn_readTimes ["b"] SnapshotVersion_min = Ok children ∧
    getAll storedSerializer txn_readTimes ["b"] (testVersion 12) = Ok later ∧
    later ⊆ children ∧
    (∀ k d, children !! k = Some d → d = getEntry storedSerializer txn_readTimes k).
Proof.
  apply (getAll_since_narrows_getAll storedSerializer txn_readTimes ["b"] (testVersion 12)).
  - apply (bool_decide_unpack (store_keyed storedSerializer txn_readTimes)).
    vm_compute; exact I.
  - apply (bool_decide_unpack (store_indexed storedSerializer txn_readTimes)).
    vm_compute; exact I.
Defined.

Lemma commit_leaves_unstaged_keys_witness :
  remoteDocuments txn_c !! key_a1 = remoteDocuments txn_feed !! key_a1 ∧
  getEntry storedSerializer txn_c key_a1 = getEntry storedSerializer txn_feed key_a1 ∧
  getSizedEntry storedSerializer txn_c key_a1
  = getSizedEntry storedSerializer txn_feed key_a1 ∧
  ∃ parents, collectionParentIndex txn_c = collectionParentIndex txn_feed ++ parents.
Proof.
  apply (commit_leaves_unstaged_keys storedSerializer buffer_c txn_feed txn_c key_a1).
  - vm_compute; reflexivity.
  - vm_compute; reflexivity.
Defined.

Lemma removed_document_reads_invalid_witness :
  getEntry storedSerializer (txn_b true) key_b2 = newInvalidDocument key_b2 ∧
  (∀ documentKeys, key_b2 ∈ documentKeys →
     ∃ results, getEntries storedSerializer (txn_b true) documentKeys = Ok results ∧
                results !! key_b2 = Some (newInvalidDocument key_b2)).
Proof.
  apply (removed_document_reads_invalid storedSerializer (buffer_b true)
           emptyTransaction (txn_b true) key_b2
           (setReadTime (newInvalidDocument key_b2) (testVersion 4))).
  - intros _ d _. reflexivity.
  - vm_compute; reflexivity.
  - vm_compute; reflexivity.
  - reflexivity.
Defined.

Lemma change_feed_reports_tracked_removals_witness :
  ∃ changedDocs checkpoint,
    remoteDocumentCacheGetNewDocumentChanges storedSerializer (txn_b true) (testVersion 1)
    = Ok (changedDocs, checkpoint) ∧
    changedDocs !! key_b2
    = (if trackRemovals (buffer_b true)
       then Some (convertToNoDocument
                    (setReadTime (newInvalidDocument key_b2) (testVersion 4))
                    SnapshotVersion_min)
       else None) ∧
    readTime (convertToNoDocument
                (setReadTime (newInvalidDocument key_b2) (testVersion 4))
                SnapshotVersion_min)
    = readTime (setReadTime (newInvalidDocument key_b2) (testVersion 4)) ∧
    isSentinelRemoval
      (convertToNoDocument (setReadTime (newInvalidDocument key_b2) (testVersion 4))
         SnapshotVersion_min) = true.
Proof.
  apply (change_feed_reports_tracked_removals storedSerializer (buffer_b true)
           emptyTransaction (txn_b true) key_b2
           (setReadTime (newInvalidDocument key_b2) (testVersion 4)) (testVersion 1)).
  - intros d _. reflexivity.
  - intros d. split; reflexivity.
  - vm_compute; reflexivity.
  - apply (bool_decide_unpack (store_keyed storedSerializer (txn_b true))).
    vm_compute; exact I.
  - vm_compute; reflexivity.
  - reflexivity.
  - vm_compute; reflexivity.
Defined.

Lemma applying_twice_counts_twice_witness :
  buffer_after_applyChanges (buffer_b false) = buffer_b false ∧
  ∃ txn2 size0 size1,
    applyChanges storedSerializer (buffer_after_applyChanges (buffer_b false))
      (txn_b false) = Ok txn2 ∧
    remoteDocuments txn2 = remoteDocuments (txn_b false) ∧
    getSize (@emptyTransaction StoredDocument) = Ok size0 ∧
    getSize (txn_b false) = Ok size1 ∧
    getSize txn2 = Ok (size1 + (size1 - size0)).
Proof.
  apply (applying_twice_counts_twice storedSerializer (buffer_b false)
           emptyTransaction (txn_b false)).
  - left. reflexivity.
  - vm_compute; reflexivity.
Defined.

(** With a tracked removal the second call is another commit: the
    removal of b/2 is now staged as a valid no-document, so the call adds
    the size of its record to the delta (12 instead of 7), or, for a
    removal at read time zero, fails the read time assertion. *)
Example second_commit_of_a_tracked_removal :
  ∃ txn2,
    applyChanges storedSerializer (buffer_after_applyChanges (buffer_b true))
      (txn_b true) = Ok txn2 ∧
    remoteDocuments txn2 = remoteDocuments (txn_b true) ∧
    getSize (txn_b true) = Ok 7 ∧
    getSize txn2 = Ok 19 ∧
    let buffer :=
      buffer_removeEntry
        (buffer_getEntry storedSerializer (newChangeBuffer (Some true))
           emptyTransaction key_b2).1
        key_b2 SnapshotVersion_min in
    isOk (applyChanges storedSerializer buffer emptyTransaction) = true ∧
    applyChanges storedSerializer (buffer_after_applyChanges buffer)
      (unwrap (applyChanges storedSerializer buffer emptyTransaction))
    = AssertionFailed zeroReadTimeMessage.
Proof. eexists. vm_compute. repeat split; reflexivity. Qed.

Lemma feed_from_last_read_time_sees_the_commit_witness :
  ∃ changedDocs checkpoint,
    remoteDocumentCacheGetNewDocumentChanges storedSerializer txn_c (testVersion 2)
    = Ok (changedDocs, checkpoint) ∧
    (∀ k, changes buffer_c !! k = None → changedDocs !! k = None) ∧
    (∀ k d, changes buffer_c !! k = Some d →
       changedDocs !! k
       = staged_record storedSerializer buffer_c d ≫= λ r,
           if readAfter storedSerializer (testVersion 2) r
           then Some (fromDbRemoteDocument storedSerializer r) else None) ∧
    (serializer_round_trip storedSerializer → serializer_indexes storedSerializer →
     ∀ k d, changes buffer_c !! k = Some d → isValidDocument d = true →
       key_ltb (toDbTimestampKey (testVersion 2)) (toDbTimestampKey (readTime d)) = true →
       changedDocs !! k = Some d).
Proof.
  apply (feed_from_last_read_time_sees_the_commit storedSerializer buffer_c
           txn_feed txn_c (testVersion 2)).
  - vm_compute; reflexivity.
  - vm_compute; reflexivity.
  - apply (bool_decide_unpack (store_keyed storedSerializer txn_c)).
    vm_compute; exact I.
Defined.

(** A buffer over the store of the collections test that has read b/2,
    where a tracked removal has left a sentinel record, and stages a
    document for it again. *)
Definition buffer_b2 : IndexedDbRemoteDocumentChangeBuffer :=
  let buffer := newChangeBuffer (Some true) in
  let buffer := (buffer_getEntry storedSerializer buffer txn_collections key_b2).1 in
  buffer_addEntry buffer (doc key_b2 43 DOC_DATA 7).

Definition txn_b2 : PersistenceTransaction StoredDocument :=
  Eval vm_compute in unwrap (applyChanges storedSerializer buffer_b2 txn_collections).

Lemma committed_document_replaces_the_entry_witness :
  getEntry storedSerializer txn_b2 key_b2 = doc key_b2 43 DOC_DATA 7 ∧
  (∀ documentKeys, key_b2 ∈ documentKeys →
     ∃ results, getEntries storedSerializer txn_b2 documentKeys = Ok results ∧
                results !! key_b2 = Some (doc key_b2 43 DOC_DATA 7)) ∧
  (∃ results,
     getAll storedSerializer txn_b2 (popLast key_b2) SnapshotVersion_min = Ok results ∧
     results !! key_b2 = Some (doc key_b2 43 DOC_DATA 7)).
Proof.
  apply (committed_document_replaces_the_entry storedSerializer buffer_b2
           txn_collections txn_b2 key_b2 (doc key_b2 43 DOC_DATA 7)).
  - reflexivity.
  - vm_compute; reflexivity.
  - vm_compute; reflexivity.
  - reflexivity.
  - apply (bool_decide_unpack (key_b2 ≠ [])). vm_compute; exact I.
  - reflexivity.
  - reflexivity.
  - apply (bool_decide_unpack (store_keyed storedSerializer txn_b2)).
    vm_compute; exact I.
Defined.
